(** * SuperConductor: the playout command engine, materializer and session layer

    A shallow embedding of the parts of the application that the specification
    makes promises about, followed by the properties proved of them (the
    modules whose names end in [Facts] and [Examples]):

    - [Js]         the few JavaScript primitives the code leans on
                   ([Array.prototype.splice], array indexing, exceptions,
                   reading a property of an object literal);
    - [Ledger]     the undo ledger kept by [IPCServer] (constructor handler,
                   [undo], [redo]);
    - [Playout]    [_playPart] and [_pausePart] over [group.playout.playingParts];
    - [Session]    [SessionHandler] with its debounced change emission;
    - [Timeline]   [getTimelineForGroup] and the id rewriting it performs;
    - [Commands]   the structural edit commands of [IPCServer] (insert, update,
                   toggle) over a rundown;
    - [LockGuards] the remaining commands that test [locked], up to that test.

    Beyond these: [LedgerShape] (the shape the ledger is kept in),
    [SessionRest] (the remaining methods of [SessionHandler] and the
    [updatedResources] callback of [TimedPlayerThingy]), [PlayCommands]
    (play, pause and stop as commands), [GroupCommands] ([newGroup],
    [moveGroups]) and [TimelineReading] (how to read an emitted timeline).

    Times are epoch milliseconds and are modelled as [Z]. JavaScript objects
    used as dictionaries are [gmap string _], holding their own properties;
    where the code reads such an object under a name that a caller chooses,
    the read also sees the members of [Object.prototype] ([Js.readProperty]).
    Where the iteration order of a [Map] decides the result (the id rewrite)
    an association list is used. *)

From Stdlib Require Import ZArith Lia String Ascii List DecimalString.
From stdpp Require Import base option list gmap strings fin_maps.

Set Warnings "-register-all".
Open Scope Z_scope.

(* ===================================================================== *)
(** ** JavaScript primitives *)
(* ===================================================================== *)

Module Js.

(** The result of running a piece of code on a mutable state [S]: it either
    returns a value or throws. Either way the state is the one the code left
    behind: an exception does not roll anything back. *)
Inductive Outcome (S A : Type) : Type :=
| Returned (a : A) (s : S)
| Thrown (e : string) (s : S).
Arguments Returned {S A} a s.
Arguments Thrown {S A} e s.

Definition stateOf {S A} (o : Outcome S A) : S :=
  match o with Returned _ s => s | Thrown _ s => s end.

Definition isThrown {S A} (o : Outcome S A) : bool :=
  match o with Returned _ _ => false | Thrown _ _ => true end.

(** [try { body } catch (e) { handler }] where the handler itself does not throw. *)
Definition tryCatch {S A} (body : Outcome S A) (handler : string -> S -> A * S) : Outcome S A :=
  match body with
  | Returned a s => Returned a s
  | Thrown e s => let '(a, s') := handler e s in Returned a s'
  end.

(** *** Object literals used as dictionaries *)

(** The names that an object literal inherits from [Object.prototype]. *)
Definition objectPrototypeNames : list string :=
  ["constructor"; "__defineGetter__"; "__defineSetter__"; "hasOwnProperty";
   "__lookupGetter__"; "__lookupSetter__"; "isPrototypeOf"; "propertyIsEnumerable";
   "toString"; "valueOf"; "__proto__"; "toLocaleString"].

Definition inheritedName (key : string) : bool := bool_decide (key ∈ objectPrototypeNames).

(** What [obj[key]] evaluates to when [obj] started as [{}]: the own property
    of that name, else the member of [Object.prototype] of that name, else
    [undefined]. *)
Inductive Property (A : Type) : Type :=
| Own (a : A)
| Inherited (name : string)
| Undefined.
Arguments Own {A} a.
Arguments Inherited {A} name.
Arguments Undefined {A}.

#[global]
Instance Property_eq_dec {A} `{EqDecision A} : EqDecision (Property A).
Proof. solve_decision. Defined.

(** [obj[key]] when the own property of that name is [own], if there is one. *)
Definition readOwn {A} (own : option A) (key : string) : Property A :=
  match own with
  | Some a => Own a
  | None => if inheritedName key then Inherited key else Undefined
  end.

(** [obj[key]]. The own properties are kept in a [gmap]: [obj[key] = value]
    is [<[key := value]>] and [delete obj[key]] is [delete key]. (Under the
    one name [__proto__] an assignment replaces the prototype of the object
    instead; a store under that name is outside of what is modelled.) *)
Definition readProperty {A} (obj : gmap string A) (key : string) : Property A :=
  readOwn (obj !! key) key.

(** [if (obj[key])] when the values are objects: the members of
    [Object.prototype] are truthy, as is every object. *)
Definition truthy {A} (p : Property A) : bool :=
  match p with
  | Undefined => false
  | _ => true
  end.

(** [arr[i]] for a number [i]: [undefined] outside [0 .. length-1]. *)
Definition index {A} (l : list A) (i : Z) : option A :=
  if i <? 0 then None else l !! Z.to_nat i.

(** [arr.splice(start, deleteCount, ...items)], the array it leaves behind.
    A negative [start] counts from the end; both arguments are clamped. *)
Definition splice {A} (start deleteCount : Z) (items : list A) (l : list A) : list A :=
  let len := Z.of_nat (length l) in
  let actualStart := if start <? 0 then Z.max (len + start) 0 else Z.min start len in
  let actualDelete := Z.min (Z.max deleteCount 0) (len - actualStart) in
  take (Z.to_nat actualStart) l ++ items ++ drop (Z.to_nat (actualStart + actualDelete)) l.

End Js.

(* ===================================================================== *)
(** ** The undo ledger of [IPCServer] *)
(* ===================================================================== *)

Module Ledger.
Import Js.

Section Ledger.

(** [World] is everything a command can touch (storage, session, timeline
    cache); [Args] the JSON arguments of a call; [Value] a returned value. *)
Context {World Args Value : Type}.

(** [MAX_UNDO_LEDGER_LENGTH] is imported from [ipc/IPCAPI], which is not part
    of the sources at hand; it is a parameter of the development. *)
Variable MAX_UNDO_LEDGER_LENGTH : nat.

(** [type UndoFunction = () => Promise<void> | void] *)
Definition UndoFunction : Type := World -> Outcome World unit.

(** [UndoableResult<T>]: what [isUndoable] accepts. *)
Record UndoableResult : Type := mkUndoableResult {
  result : Value;
  resultDescription : string;
  resultUndo : UndoFunction;
}.

(** What a server method hands back: an undoable result, or anything else
    ([Plain None] is [undefined], [Plain (Some v)] any other value). *)
Inductive MethodResult : Type :=
| Undoable (r : UndoableResult)
| Plain (v : option Value).

Definition UndoableFunction : Type := Args -> World -> Outcome World MethodResult.

(** [interface Action]. The [undo] field is overwritten by [redo] with
    [redoResult.undo], which is [undefined] when the redone call handed back
    something that is not an undoable result: hence the [option]. *)
Record Action : Type := mkAction {
  description : string;
  arguments : Args;
  redo : UndoableFunction;
  undo : option UndoFunction;
}.

(** The [updatedUndoLedger] event, recorded by what a listener can read off
    its arguments: the descriptions in the ledger and the pointer. *)
Record LedgerEvent : Type := mkLedgerEvent {
  evDescriptions : list string;
  evPointer : Z;
}.

Record Server : Type := mkServer {
  undoLedger : list Action;
  undoPointer : Z;
  world : World;
  emitted : list LedgerEvent;
}.

Definition emitUpdatedUndoLedger (s : Server) : Server :=
  {| undoLedger := undoLedger s; undoPointer := undoPointer s; world := world s;
     emitted := emitted s ++ [mkLedgerEvent (description <$> undoLedger s) (undoPointer s)] |}.

Definition withWorld (s : Server) (w : World) : Server :=
  {| undoLedger := undoLedger s; undoPointer := undoPointer s; world := w;
     emitted := emitted s |}.

Definition clearLedger (s : Server) : Server :=
  {| undoLedger := splice 0 (Z.of_nat (length (undoLedger s))) [] (undoLedger s);
     undoPointer := -1; world := world s; emitted := emitted s |}.

(** The body of the [if (isUndoable(result))] branch of the handler that the
    constructor registers for every public method. *)
Definition recordAction (fcn : UndoableFunction) (args : Args) (r : UndoableResult)
    (s : Server) : Server :=
  (* Clear any future things in the undo ledger: *)
  let l1 := splice (undoPointer s + 1) (Z.of_nat (length (undoLedger s))) [] (undoLedger s) in
  (* Add the new action to the undo ledger: *)
  let l2 := l1 ++ [mkAction (resultDescription r) args fcn (Some (resultUndo r))] in
  let l3 := if (MAX_UNDO_LEDGER_LENGTH <? length l2)%nat
            then splice 0 (Z.of_nat (length l2) - Z.of_nat MAX_UNDO_LEDGER_LENGTH) [] l2
            else l2 in
  emitUpdatedUndoLedger
    {| undoLedger := l3; undoPointer := Z.of_nat (length l3) - 1; world := world s;
       emitted := emitted s |}.

(** The handler itself: [ipcMain.handle(methodName, async (event, args0) => ...)].
    An exception of the method is reported through [handleError] and thrown on. *)
Definition handle (fcn : UndoableFunction) (args : Args) (s : Server)
    : Outcome Server (option Value) :=
  match fcn args (world s) with
  | Returned (Undoable r) w => Returned (Some (result r)) (recordAction fcn args r (withWorld s w))
  | Returned (Plain v) w => Returned v (withWorld s w)
  | Thrown e w => Thrown e (withWorld s w)
  end.

(** [async undo()] *)
Definition undo_method (s : Server) : Outcome Server unit :=
  let action := index (undoLedger s) (undoPointer s) in
  let attempt : Outcome Server unit :=
    match action with
    | None => Thrown "TypeError" s
    | Some a =>
      match undo a with
      | None => Thrown "TypeError" s
      | Some f =>
        match f (world s) with
        | Returned _ w =>
          Returned tt {| undoLedger := undoLedger s; undoPointer := undoPointer s - 1;
                         world := w; emitted := emitted s |}
        | Thrown e w => Thrown e (withWorld s w)
        end
      end
    end in
  match tryCatch attempt (fun _ s' => (tt, clearLedger s')) with
  | Returned _ s' => Returned tt (emitUpdatedUndoLedger s')
  | Thrown e s' => Thrown e s'
  end.

(** [action.undo = redoResult.undo] on the ledger entry at index [i]. *)
Definition setUndo (i : nat) (u : option UndoFunction) (l : list Action) : list Action :=
  match l !! i with
  | Some a => <[i := mkAction (description a) (arguments a) (redo a) u]> l
  | None => l
  end.

(** [async redo()] *)
Definition redo_method (s : Server) : Outcome Server unit :=
  let action := index (undoLedger s) (undoPointer s + 1) in
  let attempt : Outcome Server unit :=
    match action with
    | None => Thrown "TypeError" s
    | Some a =>
      match redo a (arguments a) (world s) with
      | Thrown e w => Thrown e (withWorld s w)
      | Returned (Plain None) w => Thrown "TypeError" (withWorld s w)
      | Returned redoResult w =>
        let u := match redoResult with Undoable r => Some (resultUndo r) | Plain _ => None end in
        Returned tt {| undoLedger := setUndo (Z.to_nat (undoPointer s + 1)) u (undoLedger s);
                       undoPointer := undoPointer s + 1; world := w; emitted := emitted s |}
      end
    end in
  match tryCatch attempt (fun _ s' => (tt, clearLedger s')) with
  | Returned _ s' => Returned tt (emitUpdatedUndoLedger s')
  | Thrown e s' => Thrown e s'
  end.

(** When executing the stored inverse raises an exception: there is no action
    at the pointer, its [undo] is not a function, or the function throws. *)
Definition undoRaises (s : Server) : Prop :=
  match index (undoLedger s) (undoPointer s) with
  | None => True
  | Some a =>
    match undo a with
    | None => True
    | Some f => isThrown (f (world s)) = true
    end
  end.

(** When re-invoking the original command raises an exception: there is no
    action after the pointer, the command throws, or it hands back [undefined]
    (so that reading [redoResult.undo] throws). *)
Definition redoRaises (s : Server) : Prop :=
  match index (undoLedger s) (undoPointer s + 1) with
  | None => True
  | Some a =>
    match redo a (arguments a) (world s) with
    | Thrown _ _ => True
    | Returned (Plain None) _ => True
    | Returned _ _ => False
    end
  end.

(** What the ledger holds once the redo history is discarded and the new
    action appended, before any eviction. *)
Definition appended (s : Server) (a : Action) : list Action :=
  take (Z.to_nat (undoPointer s + 1)) (undoLedger s) ++ [a].

End Ledger.

Arguments UndoableResult : clear implicits.
Arguments MethodResult : clear implicits.
Arguments Action : clear implicits.
Arguments Server : clear implicits.

End Ledger.

(* ===================================================================== *)
(** ** The data model: timeline objects, parts, groups, rundowns *)
(* ===================================================================== *)

Module Model.

(** A JavaScript number as far as the playout code needs it: an integer
    (times are epoch milliseconds), the two infinities and [NaN]. *)
Inductive Num : Type := Fin (z : Z) | PosInf | NegInf | NaN.

(** [Math.min(a, b)] *)
Definition num_min (a b : Num) : Num :=
  match a, b with
  | NaN, _ | _, NaN => NaN
  | NegInf, _ | _, NegInf => NegInf
  | PosInf, x | x, PosInf => x
  | Fin x, Fin y => Fin (Z.min x y)
  end.

(** [Math.max(a, b)] *)
Definition num_max (a b : Num) : Num :=
  match a, b with
  | NaN, _ | _, NaN => NaN
  | PosInf, _ | _, PosInf => PosInf
  | NegInf, x | x, NegInf => x
  | Fin x, Fin y => Fin (Z.max x y)
  end.

(** [a - b] *)
Definition num_sub (a b : Num) : Num :=
  match a, b with
  | NaN, _ | _, NaN => NaN
  | Fin x, Fin y => Fin (x - y)
  | Fin _, PosInf => NegInf
  | Fin _, NegInf => PosInf
  | PosInf, PosInf | NegInf, NegInf => NaN
  | PosInf, _ => PosInf
  | NegInf, _ => NegInf
  end.

(** superfly-timeline's [Expression]: [number | string | ExpressionObj | null]. *)
Inductive Expression : Type :=
| ENull
| ENum (n : Num)
| EStr (s : string)
| EObj (l : Expression) (o : string) (r : Expression).

(** [TimelineEnable]; an absent or [undefined] property is [None]. The source
    spells the fields [start], [end], [while], [duration], [repeating]. *)
Record TimelineEnable : Type := mkEnable {
  en_start : option Expression;
  en_end : option Expression;
  en_while : option Expression;
  en_duration : option Expression;
  en_repeating : option Expression;
}.

(** The [content] of a timeline object is opaque to the code modelled here:
    the wrappers carry the abstract device's empty content, everything else a
    device payload that is passed along. *)
Inductive Content : Type := EmptyContent | DeviceContent (payload : string).

Record TimelineKeyframe : Type := mkKeyframe {
  kf_id : string;
  kf_enable : list TimelineEnable;
  kf_content : Content;
}.

(** [TimelineObject]. [enable] may be one enable or an array of them in the
    source; every reader goes through [ensureArray], so it is a list here. *)
Inductive TimelineObject : Type :=
| mkObject (id : string) (enable : list TimelineEnable) (layer : string)
    (content : Content) (isGroup : bool)
    (children : list TimelineObject) (keyframes : list TimelineKeyframe).

Definition obj_id (o : TimelineObject) : string :=
  match o with mkObject id _ _ _ _ _ _ => id end.
Definition obj_enable (o : TimelineObject) : list TimelineEnable :=
  match o with mkObject _ en _ _ _ _ _ => en end.
Definition obj_layer (o : TimelineObject) : string :=
  match o with mkObject _ _ layer _ _ _ _ => layer end.
Definition obj_children (o : TimelineObject) : list TimelineObject :=
  match o with mkObject _ _ _ _ _ ch _ => ch end.
Definition obj_keyframes (o : TimelineObject) : list TimelineKeyframe :=
  match o with mkObject _ _ _ _ _ _ kf => kf end.

(** [TimelineObj]: a timeline object of a part, bound to a resource. *)
Record TimelineObj : Type := mkTimelineObj {
  resourceId : option string;
  obj : TimelineObject;
}.

(** [RundownTrigger]: a key combination bound to an action on a part. *)
Record RundownTrigger : Type := mkTrigger {
  trigger_label : string;
  trigger_action : string;
}.

Record Part : Type := mkPart {
  part_id : string;
  part_name : string;
  part_disabled : bool;
  part_locked : bool;
  part_loop : bool;
  part_duration : option Z;              (* [part.duration], a user setting *)
  part_resolved_duration : option Num;   (* [part.resolved.duration] *)
  part_triggers : list RundownTrigger;
  part_timeline : list TimelineObj;
}.

(** [GroupPreparedPlayDataPart] *)
Record PreparedPart : Type := mkPreparedPart {
  pp_part : Part;
  pp_startTime : Z;
}.

(** [GroupPreparedPlayDataSection] *)
Record PreparedSection : Type := mkSection {
  sec_startTime : Z;
  sec_endTime : option Z;
  sec_pauseTime : option Z;
  sec_stopTime : option Z;
  sec_repeating : bool;
  sec_duration : Num;
  sec_parts : list PreparedPart;
}.

(** [GroupPreparedPlayData]; the ['multi'] sections are kept in the order
    [Object.entries] walks them. *)
Inductive GroupPreparedPlayData : Type :=
| PreparedSingle (sections : list PreparedSection)
| PreparedMulti (sections : list (string * list PreparedSection)).

(** An entry of [group.playout.playingParts]. *)
Record PlayingPart : Type := mkPlayingPart {
  startTime : Z;
  pauseTime : option Z;
  stopTime : option Z;
  fromSchedule : bool;
}.

(** [group.schedule]; only [activate] is read by the code modelled here. *)
Record Schedule : Type := mkSchedule {
  activate : option bool;
  schedule_startTime : option Z;
}.

(** [Group]. [playingParts] is optional because the code guards against it
    being absent ([if (!group.playout.playingParts) ...]). *)
Record Group : Type := mkGroup {
  group_id : string;
  group_name : string;
  transparent : bool;
  oneAtATime : bool;
  autoPlay : bool;
  loop : bool;
  disabled : bool;
  locked : bool;
  schedule : option Schedule;
  parts : list Part;
  playingParts : option (gmap string PlayingPart);
  preparedPlayData : option GroupPreparedPlayData;
}.

Record Rundown : Type := mkRundown {
  rundown_id : string;
  rundown_name : string;
  groups : list Group;
}.

Definition setPlayingParts (g : Group) (pp : option (gmap string PlayingPart)) : Group :=
  mkGroup (group_id g) (group_name g) (transparent g) (oneAtATime g) (autoPlay g) (loop g)
    (disabled g) (locked g) (schedule g) (parts g) pp (preparedPlayData g).

Definition setPreparedPlayData (g : Group) (p : option GroupPreparedPlayData) : Group :=
  mkGroup (group_id g) (group_name g) (transparent g) (oneAtATime g) (autoPlay g) (loop g)
    (disabled g) (locked g) (schedule g) (parts g) (playingParts g) p.

Definition setParts (g : Group) (ps : list Part) : Group :=
  mkGroup (group_id g) (group_name g) (transparent g) (oneAtATime g) (autoPlay g) (loop g)
    (disabled g) (locked g) (schedule g) ps (playingParts g) (preparedPlayData g).

Definition setGroups (r : Rundown) (gs : list Group) : Rundown :=
  mkRundown (rundown_id r) (rundown_name r) gs.

(** The entries of [playingParts], none when the property is absent. *)
Definition entries (g : Group) : gmap string PlayingPart :=
  default ∅ (playingParts g).

End Model.

(* ===================================================================== *)
(** ** Play and pause: [_playPart], [_pausePart] *)
(* ===================================================================== *)

Module Playout.
Import Model.

(** The fields of [GroupPlayDataPlayhead] that [_pausePart] reads. *)
Record GroupPlayDataPlayhead : Type := mkPlayhead {
  partStartTime : Z;
  partPauseTime : option Z;
  playheadFromSchedule : bool;
}.

(** [GroupPlayData]: the playheads by part id. *)
Record GroupPlayData : Type := mkPlayData {
  playheads : gmap string GroupPlayDataPlayhead;
}.

Section Playout.

(** [getGroupPlayData] lives in [lib/playhead], which is not among the
    sources; it reads the clock, so it is a function of the prepared data and
    of the time at which it is called. *)
Variable getGroupPlayData : option GroupPreparedPlayData -> Z -> GroupPlayData.

(** [_playPart(group, part, now)] *)
Definition _playPart (group : Group) (part : Part) (now : Z) : Group :=
  if part_disabled part then group
  else
    (* Anything already playing should be stopped: *)
    let pp1 := if oneAtATime group then Some ∅ else playingParts group in
    let pp2 := match pp1 with Some m => m | None => ∅ end in
    (* Start playing this Part: *)
    setPlayingParts group
      (Some (<[part_id part := mkPlayingPart now None None false]> pp2)).

(** The loop of [_pausePart] that stops every other part:
    [playingParts[partId].stopTime = now] for [partId !== part.id]. *)
Definition stopOthers (keep : string) (now : Z) (m : gmap string PlayingPart)
    : gmap string PlayingPart :=
  map_imap (fun partId p =>
    Some (if decide (partId = keep) then p
          else mkPlayingPart (startTime p) (pauseTime p) (Some now) (fromSchedule p))) m.

(** [_pausePart(group, part, pauseTime, now)]. [clock] is what [Date.now()]
    returns inside the call (the cue branch reads it instead of [now]). *)
Definition _pausePart (group : Group) (part : Part) (pauseTime0 : option Z) (now clock : Z)
    : Group :=
  if part_disabled part then group
  else
    let pp1 := match playingParts group with Some m => m | None => ∅ end in
    (* If any other parts are playing, they should be stopped: *)
    let pp2 := if oneAtATime group then stopOthers (part_id part) now pp1 else pp1 in
    let playData := getGroupPlayData (preparedPlayData group) clock in
    let playhead := playheads playData !! part_id part in
    (* Handle this Part: *)
    let entry :=
      match playhead with
      | Some ph =>
        match partPauseTime ph with
        | None =>
          (* The part is playing, so it should be paused: *)
          mkPlayingPart (partStartTime ph)
            (Some (match pauseTime0 with Some t => t | None => now - partStartTime ph end))
            None false
        | Some frozen =>
          (* The part is paused, so it should be resumed: *)
          mkPlayingPart (now - frozen) None None false
        end
      | None =>
        (* Part is not playing, cue (pause) it at the time specified: *)
        mkPlayingPart clock (Some (match pauseTime0 with Some t => t | None => 0 end)) None false
      end in
    setPlayingParts group (Some (<[part_id part := entry]> pp2)).

(** A play or pause request as it reaches the group: the part, the time of
    the request, and (for a pause) the optional explicit offset and the clock.
    [cmd_prepared] is the prepared play data the group holds when the request
    runs: the timeline callback recomputes it after every command. *)
Inductive Command : Type :=
| Play (part : Part) (now : Z)
| Pause (part : Part) (pauseTime0 : option Z) (now clock : Z)
    (cmd_prepared : option GroupPreparedPlayData).

Definition step (g : Group) (c : Command) : Group :=
  match c with
  | Play part now => _playPart g part now
  | Pause part t now clock prepared => _pausePart (setPreparedPlayData g prepared) part t now clock
  end.

Definition run (g : Group) (cs : list Command) : Group := foldl step g cs.

(** The entries that are not stopped. *)
Definition active (g : Group) : gmap string PlayingPart :=
  filter (fun kv => stopTime kv.2 = None) (entries g).

(** The solo invariant. *)
Definition solo (g : Group) : Prop := (size (active g) <= 1)%nat.

(** The part a request is for. *)
Definition requested (c : Command) : Part :=
  match c with
  | Play part _ => part
  | Pause part _ _ _ _ => part
  end.

(** [playingPart.stopTime = now] *)
Definition stoppedAt (now : Z) (e : PlayingPart) : PlayingPart :=
  mkPlayingPart (startTime e) (pauseTime e) (Some now) (fromSchedule e).

(** The playhead reports the playing entry as it stands: same start, same
    frozen offset. *)
Definition reflects (ph : GroupPlayDataPlayhead) (e : PlayingPart) : Prop :=
  partStartTime ph = startTime e /\ partPauseTime ph = pauseTime e.

(** The playhead for a part is resolved and reports the part's entry. *)
Definition resolved (g : Group) (prepared : option GroupPreparedPlayData) (clock : Z)
    (partId : string) : Prop :=
  exists ph e,
    playheads (getGroupPlayData prepared clock) !! partId = Some ph
    /\ entries g !! partId = Some e
    /\ reflects ph e.

End Playout.

End Playout.

(* ===================================================================== *)
(** ** The session handler: non-persistent data and its debounced events *)
(* ===================================================================== *)

Module Session.
Import Js.

Record PeripheralStatus : Type := mkPeripheralStatus {
  lastConnected : Z;
  connected : bool;
}.

Record Peripheral : Type := mkPeripheral {
  peripheral_id : string;
  peripheral_bridgeId : string;
  peripheral_name : string;
  status : PeripheralStatus;
}.

Record ActiveTrigger : Type := mkActiveTrigger {
  fullIdentifier : string;
  trigger_bridgeId : string;
  trigger_deviceId : string;
  deviceName : string;
  identifier : string;
}.

#[global]
Instance PeripheralStatus_eq_dec : EqDecision PeripheralStatus.
Proof. solve_decision. Defined.

#[global]
Instance Peripheral_eq_dec : EqDecision Peripheral.
Proof. solve_decision. Defined.

Section Session.

(** [ResourceAny] and [BridgeStatus] are plain data to the session handler. *)
Context {ResourceAny BridgeStatus : Type}.

(** What [this.emit(...)] sends to the listeners. The resources and the
    bridge statuses are kept under ids that the callers choose, and what is
    sent is [this.resources[id] ?? null]: an own property, a member of
    [Object.prototype], or [null] ([Undefined] here). The keys of the
    peripherals and of the triggers contain a dash, which no name of
    [Object.prototype] does: under them there is the own property or
    nothing. *)
Inductive Event : Type :=
| EvResource (id : string) (resource : Property ResourceAny)
| EvBridgeStatus (id : string) (bridgeStatus : Property BridgeStatus)
| EvPeripheral (id : string) (peripheral : option Peripheral)
| EvAllTrigger (id : string) (trigger : option ActiveTrigger)
| EvActiveTriggers (triggers : list ActiveTrigger).

(** The private fields of [SessionHandler], and two observers: every event
    emitted so far, and the number of timers [setTimeout] was asked for. *)
Record SessionHandler : Type := mkSession {
  resources : gmap string ResourceAny;
  resourcesHasChanged : gset string;
  bridgeStatuses : gmap string BridgeStatus;
  bridgeStatusesHasChanged : gset string;
  peripherals : gmap string Peripheral;
  peripheralsHasChanged : gset string;
  allTriggers : gmap string ActiveTrigger;
  allTriggersHasChanged : gset string;
  activeTriggers : gmap string ActiveTrigger;
  activeTriggersHasChanged : bool;
  emitTimeout : bool;            (* [true]: a timer is pending *)
  emitEverything : bool;
  emittedEvents : list Event;
  timersSet : nat;
}.

(** [new SessionHandler()] *)
Definition newSession : SessionHandler :=
  mkSession ∅ ∅ ∅ ∅ ∅ ∅ ∅ ∅ ∅ false false false [] 0.

(** [private triggerUpdate()]: arm the 5 ms timer unless one is pending. *)
Definition triggerUpdate (s : SessionHandler) : SessionHandler :=
  if emitTimeout s then s
  else mkSession (resources s) (resourcesHasChanged s) (bridgeStatuses s)
         (bridgeStatusesHasChanged s) (peripherals s) (peripheralsHasChanged s)
         (allTriggers s) (allTriggersHasChanged s) (activeTriggers s)
         (activeTriggersHasChanged s) true (emitEverything s) (emittedEvents s)
         (S (timersSet s)).

(** [getResource(id)]: [this.resources[id]] *)
Definition getResource (id : string) (s : SessionHandler) : Property ResourceAny :=
  readProperty (resources s) id.

(** [getBridgeStatus(id)]: [this.bridgeStatuses[id]] *)
Definition getBridgeStatus (id : string) (s : SessionHandler) : Property BridgeStatus :=
  readProperty (bridgeStatuses s) id.

Definition getPeripheralStatus (bridgeId deviceId : string) (s : SessionHandler)
    : option Peripheral :=
  peripherals s !! (bridgeId +:+ "-" +:+ deviceId).

(** [updateResource(id, resource)] *)
Definition updateResource (id : string) (resource : option ResourceAny)
    (s : SessionHandler) : SessionHandler :=
  let res' := match resource with
              | Some r => <[id := r]> (resources s)
              | None => delete id (resources s)
              end in
  triggerUpdate
    (mkSession res' ({[id]} ∪ resourcesHasChanged s) (bridgeStatuses s)
       (bridgeStatusesHasChanged s) (peripherals s) (peripheralsHasChanged s)
       (allTriggers s) (allTriggersHasChanged s) (activeTriggers s)
       (activeTriggersHasChanged s) (emitTimeout s) (emitEverything s) (emittedEvents s)
       (timersSet s)).

(** [updateBridgeStatus(id, bridgeStatus)] *)
Definition updateBridgeStatus (id : string) (bridgeStatus : option BridgeStatus)
    (s : SessionHandler) : SessionHandler :=
  let '(st', ch') :=
    match bridgeStatus with
    | Some b => (<[id := b]> (bridgeStatuses s), {[id]} ∪ bridgeStatusesHasChanged s)
    | None =>
      if truthy (readProperty (bridgeStatuses s) id)
      then (delete id (bridgeStatuses s), {[id]} ∪ bridgeStatusesHasChanged s)
      else (bridgeStatuses s, bridgeStatusesHasChanged s)
    end in
  triggerUpdate
    (mkSession (resources s) (resourcesHasChanged s) st' ch' (peripherals s)
       (peripheralsHasChanged s) (allTriggers s) (allTriggersHasChanged s)
       (activeTriggers s) (activeTriggersHasChanged s) (emitTimeout s) (emitEverything s)
       (emittedEvents s) (timersSet s)).

(** [updatePeripheralStatus(bridgeId, deviceId, deviceName, connected)];
    [now] is [Date.now()]. *)
Definition updatePeripheralStatus (bridgeId deviceId deviceName0 : string) (connected0 : bool)
    (now : Z) (s : SessionHandler) : SessionHandler :=
  let peripheralId := bridgeId +:+ "-" +:+ deviceId in
  let existing := peripherals s !! peripheralId in
  let newDevice :=
    mkPeripheral deviceId bridgeId deviceName0
      (mkPeripheralStatus
         (if connected0 then now
          else match existing with Some e => lastConnected (status e) | None => 0 end)
         connected0) in
  let '(ps', ch') :=
    if decide (Some newDevice = existing) then (peripherals s, peripheralsHasChanged s)
    else (<[peripheralId := newDevice]> (peripherals s), {[peripheralId]} ∪ peripheralsHasChanged s) in
  triggerUpdate
    (mkSession (resources s) (resourcesHasChanged s) (bridgeStatuses s)
       (bridgeStatusesHasChanged s) ps' ch' (allTriggers s) (allTriggersHasChanged s)
       (activeTriggers s) (activeTriggersHasChanged s) (emitTimeout s) (emitEverything s)
       (emittedEvents s) (timersSet s)).

(** [updatePeripheralTriggerStatus(bridgeId, deviceId, identifier, down)] *)
Definition updatePeripheralTriggerStatus (bridgeId deviceId identifier0 : string) (down : bool)
    (s : SessionHandler) : SessionHandler :=
  let fullIdentifier0 := bridgeId +:+ "-" +:+ deviceId +:+ "-" +:+ identifier0 in
  let peripheralId := bridgeId +:+ "-" +:+ deviceId in
  let device := peripherals s !! peripheralId in
  let trigger :=
    mkActiveTrigger fullIdentifier0 bridgeId deviceId
      (match device with Some d => peripheral_name d | None => "" end) identifier0 in
  let '(all', allCh') :=
    match allTriggers s !! fullIdentifier0 with
    | None => (<[fullIdentifier0 := trigger]> (allTriggers s),
               {[fullIdentifier0]} ∪ allTriggersHasChanged s)
    | Some _ => (allTriggers s, allTriggersHasChanged s)
    end in
  let '(act', actCh') :=
    if down then
      match activeTriggers s !! fullIdentifier0 with
      | None => (<[fullIdentifier0 := trigger]> (activeTriggers s), true)
      | Some _ => (activeTriggers s, activeTriggersHasChanged s)
      end
    else
      match activeTriggers s !! fullIdentifier0 with
      | Some _ => (delete fullIdentifier0 (activeTriggers s), true)
      | None => (activeTriggers s, activeTriggersHasChanged s)
      end in
  triggerUpdate
    (mkSession (resources s) (resourcesHasChanged s) (bridgeStatuses s)
       (bridgeStatusesHasChanged s) (peripherals s) (peripheralsHasChanged s)
       all' allCh' act' actCh' (emitTimeout s) (emitEverything s) (emittedEvents s)
       (timersSet s)).

(** The events one run of [emitChanges] sends. The keys of each
    [...HasChanged] object are walked with [elements]; the order of the events
    inside one pass is that of [elements], not the insertion order JavaScript
    uses. *)
Definition passEvents (s : SessionHandler) : list Event :=
  let all := emitEverything s in
  let rCh := if all then dom (resources s) ∪ resourcesHasChanged s else resourcesHasChanged s in
  let bCh := if all then dom (bridgeStatuses s) ∪ bridgeStatusesHasChanged s
             else bridgeStatusesHasChanged s in
  let pCh := if all then dom (peripherals s) ∪ peripheralsHasChanged s
             else peripheralsHasChanged s in
  let aCh := if all then true else activeTriggersHasChanged s in
  ((fun id => EvResource id (readProperty (resources s) id)) <$> elements rCh) ++
  ((fun id => EvBridgeStatus id (readProperty (bridgeStatuses s) id)) <$> elements bCh) ++
  ((fun id => EvPeripheral id (peripherals s !! id)) <$> elements pCh) ++
  ((fun id => EvAllTrigger id (allTriggers s !! id)) <$> elements (allTriggersHasChanged s)) ++
  (if aCh then [EvActiveTriggers (snd <$> map_to_list (activeTriggers s))] else []).

(** [private emitChanges()] *)
Definition emitChanges (s : SessionHandler) : SessionHandler :=
  mkSession (resources s) ∅ (bridgeStatuses s) ∅ (peripherals s) ∅ (allTriggers s) ∅
    (activeTriggers s) false (emitTimeout s) false (emittedEvents s ++ passEvents s)
    (timersSet s).

(** The timer's callback: [this.emitTimeout = null; this.emitChanges()]. *)
Definition timerFires (s : SessionHandler) : SessionHandler :=
  emitChanges
    (mkSession (resources s) (resourcesHasChanged s) (bridgeStatuses s)
       (bridgeStatusesHasChanged s) (peripherals s) (peripheralsHasChanged s)
       (allTriggers s) (allTriggersHasChanged s) (activeTriggers s)
       (activeTriggersHasChanged s) false (emitEverything s) (emittedEvents s)
       (timersSet s)).

(** A call to one of the four mutators. *)
Inductive Mutation : Type :=
| UpdateResource (id : string) (resource : option ResourceAny)
| UpdateBridgeStatus (id : string) (bridgeStatus : option BridgeStatus)
| UpdatePeripheralStatus (bridgeId deviceId deviceName0 : string) (connected0 : bool) (now : Z)
| UpdatePeripheralTriggerStatus (bridgeId deviceId identifier0 : string) (down : bool).

Definition mutate (s : SessionHandler) (m : Mutation) : SessionHandler :=
  match m with
  | UpdateResource id r => updateResource id r s
  | UpdateBridgeStatus id b => updateBridgeStatus id b s
  | UpdatePeripheralStatus b d n c now => updatePeripheralStatus b d n c now s
  | UpdatePeripheralTriggerStatus b d i down => updatePeripheralTriggerStatus b d i down s
  end.

(** What a getter called right after the mutation [m] reports: after the
    removal of a resource or of a bridge status, what is left to read under
    the id. *)
Definition observed (m : Mutation) (before after : SessionHandler) : Prop :=
  match m with
  | UpdateResource id r => getResource id after = readOwn r id
  | UpdateBridgeStatus id b => getBridgeStatus id after = readOwn b id
  | UpdatePeripheralStatus b d n c now =>
    getPeripheralStatus b d after =
      Some (mkPeripheral d b n
              (mkPeripheralStatus
                 (if c then now
                  else match getPeripheralStatus b d before with
                       | Some e => lastConnected (status e)
                       | None => 0
                       end) c))
  | UpdatePeripheralTriggerStatus b d i down =>
    let key := b +:+ "-" +:+ d +:+ "-" +:+ i in
    is_Some (allTriggers after !! key) /\
    (if down then is_Some (activeTriggers after !! key) else activeTriggers after !! key = None)
  end.

(** What the mutation [m] leaves marked for the next emission pass. *)
Definition marked (m : Mutation) (before after : SessionHandler) : Prop :=
  match m with
  | UpdateResource id _ => id ∈ resourcesHasChanged after
  | UpdateBridgeStatus id b =>
    is_Some b \/ truthy (getBridgeStatus id before) = true ->
    id ∈ bridgeStatusesHasChanged after
  | UpdatePeripheralStatus b d n c now =>
    getPeripheralStatus b d after <> getPeripheralStatus b d before ->
    (b +:+ "-" +:+ d) ∈ peripheralsHasChanged after
  | UpdatePeripheralTriggerStatus b d i down =>
    let key := b +:+ "-" +:+ d +:+ "-" +:+ i in
    (allTriggers before !! key = None -> key ∈ allTriggersHasChanged after)
    /\ (activeTriggers after !! key <> activeTriggers before !! key ->
        activeTriggersHasChanged after = true)
  end.

(** Everything marked in [s] is still marked in [s']. *)
Definition stillMarked (s s' : SessionHandler) : Prop :=
  resourcesHasChanged s ⊆ resourcesHasChanged s'
  /\ bridgeStatusesHasChanged s ⊆ bridgeStatusesHasChanged s'
  /\ peripheralsHasChanged s ⊆ peripheralsHasChanged s'
  /\ allTriggersHasChanged s ⊆ allTriggersHasChanged s'
  /\ (activeTriggersHasChanged s = true -> activeTriggersHasChanged s' = true).

(** The pass [batch] reports what is marked in [s], with the values [s] holds. *)
Definition reports (s : SessionHandler) (batch : list Event) : Prop :=
  (forall id, id ∈ resourcesHasChanged s -> EvResource id (getResource id s) ∈ batch)
  /\ (forall id, id ∈ bridgeStatusesHasChanged s ->
        EvBridgeStatus id (getBridgeStatus id s) ∈ batch)
  /\ (forall id, id ∈ peripheralsHasChanged s -> EvPeripheral id (peripherals s !! id) ∈ batch)
  /\ (forall id, id ∈ allTriggersHasChanged s -> EvAllTrigger id (allTriggers s !! id) ∈ batch)
  /\ (activeTriggersHasChanged s = true ->
        EvActiveTriggers (snd <$> map_to_list (activeTriggers s)) ∈ batch).

(** The kind of an event and the id it is about: what one pass emits at
    most once. *)
Definition eventKey (e : Event) : nat * string :=
  match e with
  | EvResource id _ => (0%nat, id)
  | EvBridgeStatus id _ => (1%nat, id)
  | EvPeripheral id _ => (2%nat, id)
  | EvAllTrigger id _ => (3%nat, id)
  | EvActiveTriggers _ => (4%nat, "")
  end.

End Session.

Arguments Event : clear implicits.
Arguments SessionHandler : clear implicits.
Arguments Mutation : clear implicits.

End Session.

(* ===================================================================== *)
(** ** The timeline materializer: [getTimelineForGroup] *)
(* ===================================================================== *)

Module Timeline.
Import Model.

(** [const pauseLastFrame = true] *)
Definition pauseLastFrame : bool := true.

(** A number inside a template literal. *)
Definition natToString (n : nat) : string := NilZero.string_of_uint (Nat.to_uint n).

(** [const idCount = new Map<string, number>()] *)
Definition makeUniqueId (id : string) (idCount : gmap string nat) : string * gmap string nat :=
  let count := default 0%nat (idCount !! id) in
  (id +:+ "_" +:+ natToString count, <[id := S count]> idCount).

Definition getUniqueId (id : string) (idCount : gmap string nat) : string * gmap string nat :=
  let count := default 0%nat (idCount !! id) in
  (if (count =? 0)%nat then id else id +:+ "_" +:+ natToString count, <[id := S count]> idCount).

(** [Map<string, string>.set]: a [Map] keeps its keys in insertion order, and
    setting a key that is present keeps its place. *)
Fixpoint mapSet (k v : string) (m : list (string * string)) : list (string * string) :=
  match m with
  | [] => [(k, v)]
  | (k', v') :: m' => if String.eqb k k' then (k, v) :: m' else (k', v') :: mapSet k v m'
  end.

(** [str.replace(new RegExp(oldId, 'g'), newId)] for an [oldId] made of word
    characters (letters, digits, underscore), where the regular expression
    matches the literal text: every occurrence, left to right, not
    overlapping. [skip] counts the characters of a match still to be dropped. *)
Fixpoint replaceFrom (oldId newId : string) (skip : nat) (str : string) : string :=
  match str with
  | EmptyString => EmptyString
  | String c rest =>
    match skip with
    | S k => replaceFrom oldId newId k rest
    | O =>
      if String.prefix oldId str
      then newId +:+ replaceFrom oldId newId (String.length oldId - 1) rest
      else String c (replaceFrom oldId newId 0 rest)
    end
  end.

(** An empty pattern matches before every character and at the end. *)
Fixpoint intersperse (newId str : string) : string :=
  match str with
  | EmptyString => newId
  | String c rest => newId +:+ String c (intersperse newId rest)
  end.

Definition replaceAll (oldId newId str : string) : string :=
  if String.eqb oldId "" then intersperse newId str else replaceFrom oldId newId 0 str.

(** [updateTimelineExpression(changedIds, expr)]: falsy expressions and
    numbers are left alone, a string has every changed id replaced in the
    order the ids were recorded, an expression object is walked. *)
Fixpoint updateTimelineExpression (changedIds : list (string * string)) (expr : Expression)
    : Expression :=
  match expr with
  | ENull => ENull
  | ENum n => ENum n
  | EStr s =>
    if String.eqb s "" then EStr s
    else EStr (fold_left (fun str kv => replaceAll kv.1 kv.2 str) changedIds s)
  | EObj l o r =>
    EObj (updateTimelineExpression changedIds l) o (updateTimelineExpression changedIds r)
  end.

(** The loop body of [updateTimelineEnable]; with [pauseLastFrame] the
    duration becomes [Infinity]. *)
Definition updateEnable (changedIds : list (string * string)) (enable : TimelineEnable)
    : TimelineEnable :=
  mkEnable
    (updateTimelineExpression changedIds <$> en_start enable)
    (updateTimelineExpression changedIds <$> en_end enable)
    (updateTimelineExpression changedIds <$> en_while enable)
    (if pauseLastFrame then Some (ENum PosInf)
     else updateTimelineExpression changedIds <$> en_duration enable)
    (updateTimelineExpression changedIds <$> en_repeating enable).

Definition updateTimelineEnable (changedIds : list (string * string))
    (enable : list TimelineEnable) : list TimelineEnable :=
  updateEnable changedIds <$> enable.

(** [updateTimelineReferences(changedIds, obj)] *)
Fixpoint updateTimelineReferences (changedIds : list (string * string)) (o : TimelineObject)
    : TimelineObject :=
  match o with
  | mkObject id enable layer content isGroup children keyframes =>
    mkObject id (updateTimelineEnable changedIds enable) layer content isGroup
      (map (updateTimelineReferences changedIds) children)
      (map (fun kf => mkKeyframe (kf_id kf) (updateTimelineEnable changedIds (kf_enable kf))
                        (kf_content kf)) keyframes)
  end.

(** The state the id rewrite threads through: the counters behind
    [getUniqueId] and the [changedIds] map. *)
Definition RewriteState : Type := gmap string nat * list (string * string).

(** [changeTimelineIdInnerKeyframe]: the new id is stored in the keyframe
    first, and [changedIds.set(obj.id, newId)] then records it under the
    new id. *)
Definition changeTimelineIdInnerKeyframe (kf : TimelineKeyframe) (st : RewriteState)
    : TimelineKeyframe * RewriteState :=
  let '(newId, idCount) := getUniqueId (kf_id kf) st.1 in
  let kf' := mkKeyframe newId (kf_enable kf) (kf_content kf) in
  (kf', (idCount, mapSet (kf_id kf') newId st.2)).

Fixpoint changeKeyframes (kfs : list TimelineKeyframe) (st : RewriteState)
    : list TimelineKeyframe * RewriteState :=
  match kfs with
  | [] => ([], st)
  | kf :: rest =>
    let '(kf', st1) := changeTimelineIdInnerKeyframe kf st in
    let '(rest', st2) := changeKeyframes rest st1 in
    (kf' :: rest', st2)
  end.

(** [changeTimelineIdInnerObj]: the object itself, then its children in
    order, then its keyframes. *)
Fixpoint changeTimelineIdInnerObj (o : TimelineObject) (st : RewriteState)
    : TimelineObject * RewriteState :=
  match o with
  | mkObject oldId enable layer content isGroup children keyframes =>
    let '(newId, idCount) := getUniqueId oldId st.1 in
    let st1 : RewriteState := (idCount, mapSet oldId newId st.2) in
    let '(children', st2) :=
      (fix walk (cs : list TimelineObject) (s : RewriteState) {struct cs}
         : list TimelineObject * RewriteState :=
         match cs with
         | [] => ([], s)
         | c :: cs' =>
           let '(c', s1) := changeTimelineIdInnerObj c s in
           let '(cs'', s2) := walk cs' s1 in
           (c' :: cs'', s2)
         end) children st1 in
    let '(keyframes', st3) := changeKeyframes keyframes st2 in
    (mkObject newId enable layer content isGroup children' keyframes', st3)
  end.

(** [changeTimelineId(obj, changeId)] with [changeId = getUniqueId]: a fresh
    [changedIds] per call, the counters shared with every other call. *)
Definition changeTimelineId (o : TimelineObject) (idCount : gmap string nat)
    : TimelineObject * gmap string nat :=
  let '(o', (idCount', changedIds)) := changeTimelineIdInnerObj o (idCount, []) in
  (updateTimelineReferences changedIds o', idCount').

Section Materializer.

(** [type CustomPartContent] *)
Definition CustomPartContent : Type :=
  Group -> PreparedPart -> string -> bool -> list TimelineObject.

(** [modifyTimelineObjectForPlayout] is imported from [./TimelineObj], which
    is not among the sources. It receives the clone of a part's timeline
    object and adapts it for playout; here it hands back the adapted clone. *)
Variable modifyTimelineObjectForPlayout :
  TimelineObject -> PreparedPart -> TimelineObj -> option Z -> TimelineObject.

Definition emptyEnable : TimelineEnable := mkEnable None None None None None.

Definition numExpr (n : option Num) : Expression :=
  match n with Some x => ENum x | None => ENull end.

(** [partToTimelineObj] *)
Definition partToTimelineObj (objId : string) (group : Group) (playingPart : PreparedPart)
    (startTime0 : Z) (pauseTime0 stopTime0 : option Z)
    (customPartContent : option CustomPartContent) : TimelineObject :=
  let part := pp_part playingPart in
  let paused := match pauseTime0 with Some _ => true | None => false end in
  let enable :=
    mkEnable (Some (ENum (Fin startTime0))) None None
      (if paused then None else Some (numExpr (part_resolved_duration part)))
      (if paused then None
       else if part_loop part then Some (numExpr (part_resolved_duration part)) else None) in
  mkObject objId [enable] objId EmptyContent true
    (match customPartContent with
     | Some f => f group playingPart objId paused
     | None =>
       map (fun o => modifyTimelineObjectForPlayout (obj o) playingPart o pauseTime0)
         (part_timeline part)
     end)
    [].

(** The [for (const part of section.parts)] loop of [sectionToTimelineObj]. *)
Fixpoint sectionParts (group : Group) (section : PreparedSection)
    (customPartContent : option CustomPartContent)
    (ps : list PreparedPart) (idCount : gmap string nat)
    : list TimelineObject * gmap string nat :=
  match ps with
  | [] => ([], idCount)
  | part :: rest =>
    let '(objId, idCount1) := makeUniqueId (part_id (pp_part part)) idCount in
    (* Add the part to the timeline: *)
    let o := partToTimelineObj objId group part (pp_startTime part - sec_startTime section)
               (sec_pauseTime section) (sec_stopTime section) customPartContent in
    (* We have to modify the ids so that they won't collide with the previous ones: *)
    let '(o', idCount2) := changeTimelineId o idCount1 in
    let '(rest', idCount3) := sectionParts group section customPartContent rest idCount2 in
    (o' :: rest', idCount3)
  end.

(** [sectionToTimelineObj] *)
Definition sectionToTimelineObj (group : Group) (section : PreparedSection) (id layer : string)
    (customPartContent : option CustomPartContent) (idCount : gmap string nat)
    : list TimelineObject * gmap string nat :=
  let '(partObjs, idCount') :=
    sectionParts group section customPartContent (sec_parts section) idCount in
  let sectionContentObj :=
    mkObject ("section_content_" +:+ id)
      [mkEnable (Some (ENum (Fin 0))) None None None
         (if sec_repeating section then Some (ENum (sec_duration section)) else None)]
      (layer +:+ "_content") EmptyContent true partObjs [] in
  let sectionObj :=
    mkObject ("section_" +:+ id)
      [mkEnable (Some (ENum (Fin (sec_startTime section)))) None None None None]
      layer EmptyContent true [sectionContentObj] [] in
  (if (0 <? length partObjs)%nat then [sectionObj] else [], idCount').

(** The state of the loop over the sections of ['single'] prepared data. *)
Record SingleLoop : Type := mkSingleLoop {
  firstStart : Num;
  lastEnd : Num;
  children : list TimelineObject;
  loopIdCount : gmap string nat;
}.

Fixpoint singleLoop (group : Group) (customPartContent : option CustomPartContent)
    (i : nat) (sections : list PreparedSection) (st : SingleLoop) : SingleLoop :=
  match sections with
  | [] => st
  | section :: rest =>
    let firstStart' := num_min (Fin (sec_startTime section)) (firstStart st) in
    let lastEnd' :=
      if (match sec_stopTime section with Some _ => true | None => false end)
         || negb pauseLastFrame
      then num_max (match sec_endTime section with
                    | Some e => if e =? 0 then PosInf else Fin e
                    | None => PosInf
                    end) (lastEnd st)
      else PosInf in
    let '(objs, idCount') :=
      sectionToTimelineObj group section (group_id group +:+ "_" +:+ natToString i)
        (group_id group) customPartContent (loopIdCount st) in
    singleLoop group customPartContent (S i) rest
      (mkSingleLoop firstStart' lastEnd' (children st ++ objs) idCount')
  end.

(** [if (typeof enable.start === 'number') enable.start -= firstStart], and
    the same for [end]. *)
Definition rebaseExpr (first : Num) (e : option Expression) : option Expression :=
  match e with
  | Some (ENum n) => Some (ENum (num_sub n first))
  | other => other
  end.

Definition rebaseEnable (first : Num) (enable : TimelineEnable) : TimelineEnable :=
  mkEnable (rebaseExpr first (en_start enable)) (rebaseExpr first (en_end enable))
    (en_while enable) (en_duration enable) (en_repeating enable).

(** The loop under the comment [Modify times to be relative to the group]:
    it walks [children], the objects directly under the group's wrapper. *)
Definition rebaseObject (first : Num) (o : TimelineObject) : TimelineObject :=
  match o with
  | mkObject id enable layer content isGroup ch kf =>
    mkObject id (rebaseEnable first <$> enable) layer content isGroup ch kf
  end.

(** The loops over the sections of ['multi'] prepared data. *)
Fixpoint multiSections (group : Group) (customPartContent : option CustomPartContent)
    (partId : string) (i : nat) (sections : list PreparedSection)
    (idCount : gmap string nat) : list TimelineObject * gmap string nat :=
  match sections with
  | [] => ([], idCount)
  | section :: rest =>
    let '(ch, idCount1) :=
      sectionToTimelineObj group section
        (group_id group +:+ "_" +:+ partId +:+ "_" +:+ natToString i)
        (group_id group +:+ "_" +:+ partId) customPartContent idCount in
    let timelineGroupPart :=
      mkObject ("group_" +:+ group_id group +:+ "_" +:+ partId +:+ "_" +:+ natToString i)
        [mkEnable (Some (ENum (Fin 0))) None None None None]
        ("__group_" +:+ group_id group +:+ "_" +:+ partId) EmptyContent true ch [] in
    let '(rest', idCount2) :=
      multiSections group customPartContent partId (S i) rest idCount1 in
    ((if (0 <? length ch)%nat then [timelineGroupPart] else []) ++ rest', idCount2)
  end.

Fixpoint multiLoop (group : Group) (customPartContent : option CustomPartContent)
    (entries : list (string * list PreparedSection)) (idCount : gmap string nat)
    : list TimelineObject :=
  match entries with
  | [] => []
  | (partId, sections) :: rest =>
    let '(objs, idCount') := multiSections group customPartContent partId 0 sections idCount in
    objs ++ multiLoop group customPartContent rest idCount'
  end.

(** [getTimelineForGroup(group, prepared, customPartContent)] *)
Definition getTimelineForGroup (group : Group) (prepared : option GroupPreparedPlayData)
    (customPartContent : option CustomPartContent) : option (list TimelineObject) :=
  match prepared with
  | Some (PreparedSingle sections) =>
    let st := singleLoop group customPartContent 0 sections (mkSingleLoop PosInf (Fin 0) [] ∅) in
    if (0 <? length (children st))%nat then
      Some [mkObject ("group_" +:+ group_id group)
              [mkEnable (Some (ENum (firstStart st)))
                 (match lastEnd st with PosInf => None | e => Some (ENum e) end)
                 None None None]
              ("__group_" +:+ group_id group) EmptyContent true
              (rebaseObject (firstStart st) <$> children st) []]
    else Some []
  | Some (PreparedMulti sections) =>
    let ch := multiLoop group customPartContent sections ∅ in
    if (0 <? length ch)%nat then
      Some [mkObject ("group_" +:+ group_id group)
              [mkEnable (Some (ENum (Fin 0))) None None None None]
              ("__group_" +:+ group_id group) EmptyContent true ch []]
    else Some []
  | None => None
  end.

End Materializer.

(** *** Reading an emitted tree *)

(** Every object and keyframe id in a tree, in document order. *)
Fixpoint objectIds (o : TimelineObject) : list string :=
  match o with
  | mkObject id _ _ _ _ children keyframes =>
    id :: flat_map objectIds children ++ map kf_id keyframes
  end.

(** The leaves of a tree: the objects without children. *)
Fixpoint leaves (o : TimelineObject) : list TimelineObject :=
  match o with
  | mkObject _ _ _ _ _ [] _ => [o]
  | mkObject _ _ _ _ _ children _ => flat_map leaves children
  end.

(** The object with the given id, searched depth first. *)
Fixpoint findObject (id : string) (o : TimelineObject) : option TimelineObject :=
  match o with
  | mkObject id' _ _ _ _ children _ =>
    if String.eqb id id' then Some o
    else (fix search (cs : list TimelineObject) : option TimelineObject :=
            match cs with
            | [] => None
            | c :: cs' => match findObject id c with Some r => Some r | None => search cs' end
            end) children
  end.

(** The part instances (expansions) of an emitted ['single'] tree: the
    objects under group wrapper / section / section content. *)
Definition expansions (timeline : list TimelineObject) : list TimelineObject :=
  flat_map (fun wrapper =>
    flat_map (fun section =>
      flat_map obj_children (obj_children section)) (obj_children wrapper)) timeline.

(** The section objects the ['single'] loop emits, read off the prepared
    data: one per section that holds a part, with the section's start. *)
Fixpoint sectionHeads (groupId : string) (i : nat) (sections : list PreparedSection)
    : list (string * Z) :=
  match sections with
  | [] => []
  | s :: rest =>
    (if (0 <? length (sec_parts s))%nat
     then [("section_" +:+ groupId +:+ "_" +:+ natToString i, sec_startTime s)]
     else [])
    ++ sectionHeads groupId (S i) rest
  end.

Definition headOf (o : TimelineObject) : string * list TimelineEnable :=
  (obj_id o, obj_enable o).

Definition startingAt (t : Z) : list TimelineEnable :=
  [mkEnable (Some (ENum (Fin t))) None None None None].

(** The smallest section start, as the loop accumulates it from [init]. *)
Definition minStart (init : Num) (sections : list PreparedSection) : Num :=
  foldl (fun acc s => num_min (Fin (sec_startTime s)) acc) init sections.

End Timeline.

(* ===================================================================== *)
(** ** The edit commands of [IPCServer] *)
(* ===================================================================== *)

Module Commands.
Import Js Model.

(** [MoveTarget] *)
Inductive MoveTarget : Type :=
| TargetFirst
| TargetLast
| TargetBefore (id : string)
| TargetAfter (id : string).

(** What the server keeps in memory. [rundowns] are the open rundowns of the
    storage handler: [storage.getRundown] hands out the stored object itself,
    so a command that changes a group or a part changes it here, saved or not.
    The other fields observe the collaborators: the ids passed to
    [storage.updateRundown], the calls of [callbacks.updatePeripherals], and
    how many ids [shortID] has drawn. *)
Record World : Type := mkWorld {
  rundowns : gmap string Rundown;
  updatedRundowns : list string;
  updatedPeripherals : nat;
  drawnIds : nat;
}.

(** What a command hands back as [result]. *)
Inductive Value : Type :=
| VVoid
| VString (s : string)
| VNewPart (partId : string) (groupId : option string)
| VGroups (groupIds : list string)
| VParts (groupAndPartIds : list (string * string)).

(** A server method: it runs on the world and returns or throws. *)
Definition Cmd (A : Type) : Type := World -> Outcome World A.

Definition ret {A} (a : A) : Cmd A := fun w => Returned a w.
Definition throw {A} (e : string) : Cmd A := fun w => Thrown e w.
Definition bind {A B} (c : Cmd A) (k : A -> Cmd B) : Cmd B :=
  fun w => match c w with
           | Returned a w' => k a w'
           | Thrown e w' => Thrown e w'
           end.

Declare Scope cmd_scope.
Delimit Scope cmd_scope with cmd.
Notation "x <- c ;; k" := (bind c (fun x => k))
  (at level 100, c at next level, right associativity) : cmd_scope.
Notation "c ;;; k" := (bind c (fun _ => k))
  (at level 100, right associativity) : cmd_scope.
Open Scope cmd_scope.

Definition UndoFunction : Type := World -> Outcome World unit.
Definition UndoableResult : Type := Ledger.UndoableResult World Value.
Definition undoable (undo : UndoFunction) (description : string) (result : Value)
    : UndoableResult :=
  Ledger.mkUndoableResult result description undo.

Definition setWorldRundowns (w : World) (rs : gmap string Rundown) : World :=
  mkWorld rs (updatedRundowns w) (updatedPeripherals w) (drawnIds w).

(** *** Field updates *)

Definition setLocked (g : Group) (v : bool) : Group :=
  mkGroup (group_id g) (group_name g) (transparent g) (oneAtATime g) (autoPlay g) (loop g)
    (disabled g) v (schedule g) (parts g) (playingParts g) (preparedPlayData g).
Definition setLoop (g : Group) (v : bool) : Group :=
  mkGroup (group_id g) (group_name g) (transparent g) (oneAtATime g) (autoPlay g) v
    (disabled g) (locked g) (schedule g) (parts g) (playingParts g) (preparedPlayData g).
Definition setAutoPlay (g : Group) (v : bool) : Group :=
  mkGroup (group_id g) (group_name g) (transparent g) (oneAtATime g) v (loop g)
    (disabled g) (locked g) (schedule g) (parts g) (playingParts g) (preparedPlayData g).
Definition setOneAtATime (g : Group) (v : bool) : Group :=
  mkGroup (group_id g) (group_name g) (transparent g) v (autoPlay g) (loop g)
    (disabled g) (locked g) (schedule g) (parts g) (playingParts g) (preparedPlayData g).
Definition setDisabled (g : Group) (v : bool) : Group :=
  mkGroup (group_id g) (group_name g) (transparent g) (oneAtATime g) (autoPlay g) (loop g)
    v (locked g) (schedule g) (parts g) (playingParts g) (preparedPlayData g).
Definition setTransparent (g : Group) (v : bool) : Group :=
  mkGroup (group_id g) (group_name g) v (oneAtATime g) (autoPlay g) (loop g)
    (disabled g) (locked g) (schedule g) (parts g) (playingParts g) (preparedPlayData g).
Definition setTriggers (p : Part) (ts : list RundownTrigger) : Part :=
  mkPart (part_id p) (part_name p) (part_disabled p) (part_locked p) (part_loop p)
    (part_duration p) (part_resolved_duration p) ts (part_timeline p).

(** *** Looking things up *)

(** Modelled from the spec: [findGroup] and [findPart] of [lib/util] are not
    among the sources; they look an id up in the addressed container (the
    first group of the rundown, the first part of the group, with that id). *)
Definition findGroup (rundown : Rundown) (groupId : string) : option Group :=
  find (fun g => String.eqb (group_id g) groupId) (groups rundown).
Definition findPart (group : Group) (partId : string) : option Part :=
  find (fun p => String.eqb (part_id p) partId) (parts group).

(** A change made through a reference that [findGroup] or [findPart] handed
    out lands in the first element with that id. *)
Fixpoint changeFirst {A} (hit : A -> bool) (f : A -> A) (l : list A) : list A :=
  match l with
  | [] => []
  | x :: rest => if hit x then f x :: rest else x :: changeFirst hit f rest
  end.

Definition changeGroup (rundownId groupId : string) (f : Group -> Group) (w : World) : World :=
  setWorldRundowns w
    (alter (fun r => setGroups r (changeFirst (fun g => String.eqb (group_id g) groupId) f (groups r)))
       rundownId (rundowns w)).

Definition changePart (rundownId groupId partId : string) (f : Part -> Part) (w : World)
    : World :=
  changeGroup rundownId groupId
    (fun g => setParts g (changeFirst (fun p => String.eqb (part_id p) partId) f (parts g))) w.

Definition changeRundown (rundownId : string) (f : Rundown -> Rundown) (w : World) : World :=
  setWorldRundowns w (alter f rundownId (rundowns w)).

(** [getRundown(arg)]. The texts of the error messages are abridged. *)
Definition getRundown (rundownId : string) : Cmd Rundown :=
  fun w => match rundowns w !! rundownId with
           | Some r => Returned r w
           | None => Thrown ("Rundown not found: " +:+ rundownId) w
           end.

(** [_getGroupOfRundown(rundown, groupId)] *)
Definition _getGroupOfRundown (rundown : Rundown) (groupId : string) : Cmd Group :=
  match findGroup rundown groupId with
  | Some g => ret g
  | None => throw ("Group not found: " +:+ groupId)
  end.

(** [getGroup(arg)] *)
Definition getGroup (rundownId groupId : string) : Cmd (Rundown * Group) :=
  rundown <- getRundown rundownId ;;
  group <- _getGroupOfRundown rundown groupId ;;
  ret (rundown, group).

(** [getPart(arg)] *)
Definition getPart (rundownId groupId partId : string) : Cmd (Rundown * Group * Part) :=
  rg <- getGroup rundownId groupId ;;
  match findPart rg.2 partId with
  | Some p => ret (rg.1, rg.2, p)
  | None => throw ("Part not found: " +:+ partId)
  end.

(** *** Patches *)

(** [has(obj, key)]: a property of a patch is [None] when the key is absent. *)
Definition hasKey {A} (field : option A) : bool :=
  match field with Some _ => true | None => false end.

(** [Partial<Part>] as [updatePart] receives it: every property of [Part]
    may be there or not ([resolved] as a whole: the patch is shallow). *)
Record PartPatch : Type := mkPartPatch {
  patch_id : option string;
  patch_name : option string;
  patch_disabled : option bool;
  patch_locked : option bool;
  patch_loop : option bool;
  patch_duration : option (option Z);
  patch_resolved_duration : option (option Num);
  patch_triggers : option (list RundownTrigger);
  patch_timeline : option (list TimelineObj);
}.

(** [Object.assign(part, patch)] *)
Definition assignPart (p : Part) (patch : PartPatch) : Part :=
  mkPart
    (default (part_id p) (patch_id patch))
    (default (part_name p) (patch_name patch))
    (default (part_disabled p) (patch_disabled patch))
    (default (part_locked p) (patch_locked patch))
    (default (part_loop p) (patch_loop patch))
    (default (part_duration p) (patch_duration patch))
    (default (part_resolved_duration p) (patch_resolved_duration patch))
    (default (part_triggers p) (patch_triggers patch))
    (default (part_timeline p) (patch_timeline patch)).

(** [has(arg.part, 'loop') || has(arg.part, 'disabled') || has(arg.part, 'duration')] *)
Definition partAffectsPlayout (patch : PartPatch) : bool :=
  hasKey (patch_loop patch) || hasKey (patch_disabled patch) || hasKey (patch_duration patch).

(** [group.schedule?.activate] as a condition. *)
Definition scheduleActivated (g : Group) : bool :=
  match schedule g with
  | Some s => match activate s with Some true => true | _ => false end
  | None => false
  end.

(** [if (playingPart.stopTime)]: a number is truthy unless it is [0]. *)
Definition truthyTime (t : option Z) : bool :=
  match t with Some z => negb (z =? 0) | None => false end.

(** The special case of [updateGroup]: when scheduling is enabled, any
    previous stop-times should be removed. [Object.entries] throws when there
    is no [playingParts] object ([None]). *)
Definition discardStopTimes (groupPreChange group : Group) : option Group :=
  if negb (scheduleActivated groupPreChange) && scheduleActivated group then
    match playingParts group with
    | None => None
    | Some m =>
      Some (setPlayingParts group
              (Some (filter (fun kv => truthyTime (stopTime kv.2) = false) m)))
    end
  else Some group.

(** [for (const g of rundown.groups) for (const p of g.parts) if (p.id === id)] *)
Definition partIdInUse (rundown : Rundown) (id : string) : bool :=
  existsb (fun g => existsb (fun p => String.eqb (part_id p) id) (parts g)) (groups rundown).

Section Commands.

(** The collaborators that are not among the sources, as parameters:
    the timeline callback, [updateGroupPlayingParts], [postProcessPart],
    [getPositionFromTarget] (given the ids of the list it indexes), [shortID]
    (the n-th id it draws) and the defaults of a new group and a new part. *)
Variable updateTimeline : Group -> option GroupPreparedPlayData.
Variable updateGroupPlayingParts : Group -> Group.
Variable postProcessPart : Part -> Part.
Variable getPositionFromTarget : MoveTarget -> list string -> Z.
Variable shortID : nat -> string.
Variable getDefaultGroup : Group.
Variable getDefaultPart : Part.

(** [Object.keys(playingParts)[0]]: the key [toggleGroupOneAtATime] keeps,
    "quick and dirty, just pick one". [Object.keys] lists the keys in the
    order in which they were inserted (integer-like keys first, in ascending
    order); a [gmap] does not record that order, so which of the keys comes
    first is a parameter: some key of the object, none when it is empty. *)
Variable firstKey : gmap string PlayingPart -> option string.

(** The patch of [updateGroup] is a [PartialDeep<Group>]: any property of a
    group, at any depth, may be there or not. The code reads it through two
    library functions only, [has] (lodash) and [deepExtend] (the package
    deep-extend), neither of which is among the sources; the patch is an
    opaque value and the two functions are parameters. [deepExtend] changes
    the group object in place: [deepExtend group patch] is that object after
    the call. *)
Context {GroupPatch : Type}.
Variable has : GroupPatch -> string -> bool.
Variable deepExtend : Group -> GroupPatch -> Group.

(** A resource to be added to a part's timeline. *)
Context {ResourceAny : Type}.

(** [addResourcesToTimeline] is a command of its own, with the project's
    mappings and the resource library behind it; the insert commands call it
    only after their insertion loop has run to its end. It is a parameter:
    rundown id, group id, part id, resources; the undo it hands back, if any. *)
Variable addResourcesToTimeline :
  string -> string -> string -> list ResourceAny -> Cmd (option UndoFunction).

Definition drawId : Cmd string :=
  fun w => Returned (shortID (drawnIds w))
             (mkWorld (rundowns w) (updatedRundowns w) (updatedPeripherals w) (S (drawnIds w))).

(** [_saveUpdates]: for every group handed in, clear [transparent] once it
    holds more than one part and, unless the change has no effect on playout,
    recompute the prepared play data and the playing parts; then pass the
    rundown to the storage, and update the peripherals. *)
Definition refreshGroup (noEffectOnPlayout : bool) (g : Group) : Group :=
  let g1 := if (1 <? length (parts g))%nat then setTransparent g false else g in
  if noEffectOnPlayout then g1
  else updateGroupPlayingParts (setPreparedPlayData g1 (updateTimeline g1)).

Definition _saveUpdates (rundownId : string) (saveRundown : bool) (groupIds : list string)
    (noEffectOnPlayout : bool) : Cmd unit :=
  fun w =>
    let w1 := foldl (fun acc gid => changeGroup rundownId gid (refreshGroup noEffectOnPlayout) acc)
                w groupIds in
    Returned tt
      (mkWorld (rundowns w1)
         (if saveRundown then updatedRundowns w1 ++ [rundownId] else updatedRundowns w1)
         (S (updatedPeripherals w1)) (drawnIds w1)).

(** *** Toggles *)

(** [toggleGroupLock]: no guard. *)
Definition toggleGroupLock (rundownId groupId : string) (value : bool)
    : Cmd (option UndoableResult) :=
  rg <- getGroup rundownId groupId ;;
  let group := rg.2 in
  let originalValue := locked group in
  (fun w => Returned tt (changeGroup rundownId groupId (fun g => setLocked g value) w)) ;;;
  _saveUpdates rundownId true [groupId] true ;;;
  ret (Some (undoable
    (_ <- getGroup rundownId groupId ;;
     (fun w => Returned tt (changeGroup rundownId groupId (fun g => setLocked g originalValue) w)) ;;;
     _saveUpdates rundownId true [groupId] true)
    "ToggleGroupLock" VVoid)).

(** The shape shared by [toggleGroupLoop], [toggleGroupAutoplay] and
    [toggleGroupDisable]: guard on [group.locked], refresh the playing parts,
    set the property, save. *)
Definition toggleGroupProperty (read : Group -> bool) (write : Group -> bool -> Group)
    (description : string) (rundownId groupId : string) (value : bool)
    : Cmd (option UndoableResult) :=
  rg <- getGroup rundownId groupId ;;
  let group := rg.2 in
  if locked group then ret None
  else
    let originalValue := read group in
    (fun w => Returned tt
       (changeGroup rundownId groupId (fun g => write (updateGroupPlayingParts g) value) w)) ;;;
    _saveUpdates rundownId true [groupId] false ;;;
    ret (Some (undoable
      (_ <- getGroup rundownId groupId ;;
       (fun w => Returned tt
          (changeGroup rundownId groupId
             (fun g => write (updateGroupPlayingParts g) originalValue) w)) ;;;
       _saveUpdates rundownId true [groupId] false)
      description VVoid)).

Definition toggleGroupLoop := toggleGroupProperty loop setLoop "ToggleGroupLoop".
Definition toggleGroupAutoplay := toggleGroupProperty autoPlay setAutoPlay "ToggleGroupAutoplay".
Definition toggleGroupDisable := toggleGroupProperty disabled setDisabled "ToggleGroupDisable".

(** [toggleGroupOneAtATime]; [Object.keys] throws on a missing object. *)
Definition toggleGroupOneAtATime (rundownId groupId : string) (value : bool)
    : Cmd (option UndoableResult) :=
  rg <- getGroup rundownId groupId ;;
  let group := rg.2 in
  if locked group then ret None
  else
    let originalValue := oneAtATime group in
    let g1 := setOneAtATime (updateGroupPlayingParts group) value in
    (fun w => Returned tt (changeGroup rundownId groupId (fun _ => g1) w)) ;;;
    (if oneAtATime g1 then
       match playingParts g1 with
       | None => throw "TypeError"
       | Some m =>
         if (1 <? size m)%nat then
           (* Only allow one part at a time: *)
           match firstKey m with
           | Some k =>
             fun w => Returned tt
               (changeGroup rundownId groupId
                  (fun g => setPlayingParts g (Some (filter (fun kv => kv.1 = k) m))) w)
           | None => ret tt
           end
         else ret tt
       end
     else ret tt) ;;;
    _saveUpdates rundownId true [groupId] false ;;;
    ret (Some (undoable
      (_ <- getGroup rundownId groupId ;;
       (fun w => Returned tt
          (changeGroup rundownId groupId
             (fun g => setOneAtATime (updateGroupPlayingParts g) originalValue) w)) ;;;
       _saveUpdates rundownId true [groupId] false)
      "toggleGroupOneAtATime" VVoid)).

(** *** Parts *)

(** [setPartTrigger] *)
Definition setPartTrigger (rundownId groupId partId : string)
    (trigger : option RundownTrigger) (triggerIndex : option Z)
    : Cmd (option UndoableResult) :=
  rgp <- getPart rundownId groupId partId ;;
  let group := rgp.1.2 in
  let part := rgp.2 in
  if locked group || part_locked part then ret None
  else
    let originalTriggers := part_triggers part in
    let triggers' :=
      match triggerIndex with
      | None =>
        (* Replace any existing triggers: *)
        match trigger with Some t => [t] | None => [] end
      | Some i =>
        (* Modify a trigger: *)
        match trigger with
        | None => splice i 1 [] (part_triggers part)
        | Some t =>
          match index (part_triggers part) i with
          | Some _ => <[Z.to_nat i := t]> (part_triggers part)
          | None => part_triggers part ++ [t]
          end
        end
      end in
    (fun w => Returned tt
       (changePart rundownId groupId partId (fun p => setTriggers p triggers') w)) ;;;
    _saveUpdates rundownId true [] true ;;;
    ret (Some (undoable
      (_ <- getPart rundownId groupId partId ;;
       (fun w => Returned tt
          (changePart rundownId groupId partId (fun p => setTriggers p originalTriggers) w)) ;;;
       _saveUpdates rundownId true [] true)
      "SetPartTrigger" VVoid)).

Definition truthyString (s : option string) : option string :=
  match s with
  | Some id => if String.eqb id "" then None else Some id
  | None => None
  end.

Definition withIdName (p : Part) (id name : string) : Part :=
  mkPart id name (part_disabled p) (part_locked p) (part_loop p) (part_duration p)
    (part_resolved_duration p) (part_triggers p) (part_timeline p).

Definition transparentGroup (id name : string) (ps : list Part) : Group :=
  mkGroup id name true (oneAtATime getDefaultGroup) (autoPlay getDefaultGroup)
    (loop getDefaultGroup) (disabled getDefaultGroup) (locked getDefaultGroup)
    (schedule getDefaultGroup) ps (playingParts getDefaultGroup)
    (preparedPlayData getDefaultGroup).

(** [newPart] *)
Definition newPart (rundownId : string) (groupId : option string) (name : string)
    : Cmd (option UndoableResult) :=
  newPartId <- drawId ;;
  let newPart0 := withIdName getDefaultPart newPartId name in
  rundown <- getRundown rundownId ;;
  match truthyString groupId with
  | Some gid =>
    (* Put part into existing group: *)
    group <- _getGroupOfRundown rundown gid ;;
    if locked group then ret None
    else
      (fun w => Returned tt
         (changeGroup rundownId gid (fun g => setParts g (parts g ++ [newPart0])) w)) ;;;
      _saveUpdates rundownId true [] false ;;;
      ret (Some (undoable
        (_ <- getRundown rundownId ;;
         (* Remove the part from its group. *)
         _ <- getGroup rundownId gid ;;
         (fun w => Returned tt
            (changeGroup rundownId gid
               (fun g => setParts g (filter (fun p => part_id p <> newPartId) (parts g))) w)) ;;;
         _saveUpdates rundownId true [] false)
        "NewPart" (VNewPart newPartId None)))
  | None =>
    (* Create a new "transparent group": *)
    transparentGroupId <- drawId ;;
    let newGroup := transparentGroup transparentGroupId name [newPart0] in
    (fun w => Returned tt
       (changeRundown rundownId (fun r => setGroups r (groups r ++ [newGroup])) w)) ;;;
    _saveUpdates rundownId true [] false ;;;
    ret (Some (undoable
      (_ <- getRundown rundownId ;;
       (* Remove the entire group. *)
       (fun w => Returned tt
          (changeRundown rundownId
             (fun r => setGroups r
                (filter (fun g => group_id g <> transparentGroupId) (groups r))) w)) ;;;
       _saveUpdates rundownId true [] false)
      "NewPart" (VNewPart newPartId (Some transparentGroupId))))
  end.

(** [updatePart]: the guard lets a patch through that carries [locked]. *)
Definition updatePart (rundownId groupId partId : string) (patch : PartPatch)
    : Cmd (option UndoableResult) :=
  rgp <- getPart rundownId groupId partId ;;
  let group := rgp.1.2 in
  let part := rgp.2 in
  if locked group then ret None
  else if part_locked part && negb (hasKey (patch_locked patch)) then ret None
  else
    let affectsPlayout := partAffectsPlayout patch in
    (if affectsPlayout
     then fun w => Returned tt (changeGroup rundownId groupId updateGroupPlayingParts w)
     else ret tt) ;;;
    let partPreChange := part in
    (fun w => Returned tt
       (changePart rundownId groupId partId
          (fun p => postProcessPart (assignPart p patch)) w)) ;;;
    _saveUpdates rundownId true (if affectsPlayout then [groupId] else []) false ;;;
    ret (Some (undoable
      (_ <- getPart rundownId groupId partId ;;
       (fun w => Returned tt
          (changePart rundownId groupId partId (fun _ => postProcessPart partPreChange) w)) ;;;
       _saveUpdates rundownId true [] false)
      "UpdatePart" VVoid)).

(** *** Groups *)

(** [has(arg.group, 'schedule') || has(arg.group, 'autoPlay') || ...] *)
Definition affectsPlayout (patch : GroupPatch) : bool :=
  has patch "schedule" || has patch "autoPlay" || has patch "loop" || has patch "disabled"
  || has patch "oneAtATime" || has patch "parts" || has patch "playout"
  || has patch "playoutMode".

(** [updateGroup]. The command works on the group object that [getGroup]
    handed out: [deepExtend] changes it, the special case deletes entries of
    its [playingParts], and [_saveUpdates] refreshes it when the patch
    affects playout. The three steps are applied to the object in one go, so
    that a patch that changes the [id] of the group changes nothing in what
    they address; what is left of [_saveUpdates] is the call without a
    group. When [playingParts] is missing the special case throws, after
    [deepExtend] has run. *)
Definition updateGroup (rundownId groupId : string) (patch : GroupPatch)
    : Cmd (option UndoableResult) :=
  rg <- getGroup rundownId groupId ;;
  let group := rg.2 in
  if locked group then ret None
  else
    let groupPreChange := group in
    let extended := deepExtend group patch in
    (* Special Case: When scheduling is enabled, any prevous stop-times should be removed. *)
    match discardStopTimes groupPreChange extended with
    | None =>
      fun w => Thrown "TypeError" (changeGroup rundownId groupId (fun _ => extended) w)
    | Some group' =>
      (fun w => Returned tt
         (changeGroup rundownId groupId
            (fun _ => if affectsPlayout patch then refreshGroup false group' else group') w)) ;;;
      _saveUpdates rundownId true [] false ;;;
      ret (Some (undoable
        (_ <- getGroup rundownId groupId ;;
         (fun w => Returned tt (changeGroup rundownId groupId (fun _ => groupPreChange) w)) ;;;
         _saveUpdates rundownId true [] false)
        "UpdateGroup" VVoid))
    end.

(** *** Inserting groups and parts *)

(** One element of [arg.groups]: the group and the resources of its parts. *)
Record GroupToInsert : Type := mkGroupToInsert {
  ins_group : Group;
  ins_resources : gmap string (list ResourceAny);
}.

(** One element of [arg.parts]. *)
Record PartToInsert : Type := mkPartToInsert {
  ins_part : Part;
  ins_part_resources : list ResourceAny;
}.

(** The insertion loop of [insertGroups] over the rundown object: each group
    is checked against the rundown as it stands and spliced in at once. *)
Fixpoint insertGroupsLoop (batch : list GroupToInsert) (nextTarget : MoveTarget)
    (inserted : list string) (rundown : Rundown) : Outcome Rundown (list string) :=
  match batch with
  | [] => Returned inserted rundown
  | group :: rest =>
    (* Ensure that the group id is unique: *)
    if existsb (fun g => String.eqb (group_id g) (group_id (ins_group group))) (groups rundown)
    then Thrown ("Group id is already in use: " +:+ group_id (ins_group group)) rundown
    else
      (* Ensure that the part id is unique: *)
      match find (fun part => partIdInUse rundown (part_id part)) (parts (ins_group group)) with
      | Some part => Thrown ("part id is already in use: " +:+ part_id part) rundown
      | None =>
        let insertPosition := getPositionFromTarget nextTarget (group_id <$> groups rundown) in
        insertGroupsLoop rest (TargetAfter (group_id (ins_group group)))
          (inserted ++ [group_id (ins_group group)])
          (setGroups rundown (splice insertPosition 0 [ins_group group] (groups rundown)))
      end
  end.

(** Run a loop over the stored rundown object: whatever the loop did to the
    object stays done, also when it throws. *)
Definition onRundown {A} (rundownId : string) (body : Rundown -> Outcome Rundown A) : Cmd A :=
  fun w =>
    match rundowns w !! rundownId with
    | None => Thrown ("Rundown not found: " +:+ rundownId) w
    | Some r =>
      match body r with
      | Returned a r' => Returned a (changeRundown rundownId (fun _ => r') w)
      | Thrown e r' => Thrown e (changeRundown rundownId (fun _ => r') w)
      end
    end.

(** The resources of the inserted parts, added one part at a time. *)
Fixpoint addResourcesOfParts (rundownId groupId : string)
    (ps : list (string * list ResourceAny)) (undos : list UndoFunction)
    : Cmd (list UndoFunction) :=
  match ps with
  | [] => ret undos
  | (partId, resources) :: rest =>
    if (0 <? length resources)%nat then
      r <- addResourcesToTimeline rundownId groupId partId resources ;;
      addResourcesOfParts rundownId groupId rest
        (match r with Some u => undos ++ [u] | None => undos end)
    else addResourcesOfParts rundownId groupId rest undos
  end.

Fixpoint addResourcesOfGroups (rundownId : string) (batch : list GroupToInsert)
    (undos : list UndoFunction) : Cmd (list UndoFunction) :=
  match batch with
  | [] => ret undos
  | group :: rest =>
    undos' <- addResourcesOfParts rundownId (group_id (ins_group group))
                ((fun part => (part_id part,
                               default [] (ins_resources group !! part_id part)))
                   <$> parts (ins_group group)) undos ;;
    addResourcesOfGroups rundownId rest undos'
  end.

Fixpoint runUndos (undos : list UndoFunction) : Cmd unit :=
  match undos with
  | [] => ret tt
  | u :: rest => u ;;; runUndos rest
  end.

(** [insertGroups] *)
Definition insertGroups (rundownId : string) (batch : list GroupToInsert) (target : MoveTarget)
    : Cmd UndoableResult :=
  rundown <- getRundown rundownId ;;
  (* Save the original positions for use in undo: *)
  let originalGroupIds := group_id <$> groups rundown in
  inserted <- onRundown rundownId (insertGroupsLoop batch target []) ;;
  _saveUpdates rundownId true [] false ;;;
  (* Now, also add the resources as timeline-objects into the parts: *)
  addedResourcesUndo <- addResourcesOfGroups rundownId batch [] ;;
  ret (undoable
    (runUndos (rev addedResourcesUndo) ;;;
     _ <- getRundown rundownId ;;
     (fun w => Returned tt
        (changeRundown rundownId
           (fun r => setGroups r
              (omap (fun groupId => findGroup r groupId) originalGroupIds)) w)) ;;;
     _saveUpdates rundownId true [] false)
    "InsertGroups" (VGroups inserted)).

(** [_insertPartsAsTransparentGroup] *)
Fixpoint wrapParts (batch : list PartToInsert)
    : Cmd (list GroupToInsert * list (string * string)) :=
  match batch with
  | [] => ret ([], [])
  | part :: rest =>
    (* Create a new "transparent group": *)
    newGroupId <- drawId ;;
    let newGroup := transparentGroup newGroupId (part_name (ins_part part)) [ins_part part] in
    more <- wrapParts rest ;;
    ret (mkGroupToInsert newGroup {[part_id (ins_part part) := ins_part_resources part]}
           :: more.1,
         (newGroupId, part_id (ins_part part)) :: more.2)
  end.

Definition _insertPartsAsTransparentGroup (rundownId : string) (batch : list PartToInsert)
    (target : MoveTarget) : Cmd UndoableResult :=
  wrapped <- wrapParts batch ;;
  r <- insertGroups rundownId wrapped.1 target ;;
  ret (undoable (Ledger.resultUndo r) (Ledger.resultDescription r) (VParts wrapped.2)).

(** The insertion loop of [insertParts] over the rundown object. *)
Fixpoint insertPartsLoop (groupId : string) (batch : list PartToInsert)
    (nextTarget : MoveTarget) (inserted : list (string * string)) (rundown : Rundown)
    : Outcome Rundown (list (string * string)) :=
  match batch with
  | [] => Returned inserted rundown
  | part :: rest =>
    (* Ensure that the part id is unique: *)
    if partIdInUse rundown (part_id (ins_part part))
    then Thrown ("part id is already in use: " +:+ part_id (ins_part part)) rundown
    else
      let groupParts := match findGroup rundown groupId with Some g => parts g | None => [] end in
      let insertPosition := getPositionFromTarget nextTarget (part_id <$> groupParts) in
      insertPartsLoop groupId rest (TargetAfter (part_id (ins_part part)))
        (inserted ++ [(groupId, part_id (ins_part part))])
        (setGroups rundown
           (changeFirst (fun g => String.eqb (group_id g) groupId)
              (fun g => setParts g (splice insertPosition 0 [ins_part part] (parts g)))
              (groups rundown)))
  end.

(** [insertParts] *)
Definition insertParts (rundownId : string) (groupId : option string)
    (batch : list PartToInsert) (target : MoveTarget) : Cmd UndoableResult :=
  match truthyString groupId with
  | Some gid =>
    rg <- getGroup rundownId gid ;;
    let group := rg.2 in
    if transparent group then
      (* Oh, we can't add Parts to a transparent group. add them to the side instead: *)
      _insertPartsAsTransparentGroup rundownId batch (TargetAfter (group_id group))
    else
      (* Save the original positions for use in undo: *)
      let originalPartIds := part_id <$> parts group in
      inserted <- onRundown rundownId (insertPartsLoop gid batch target []) ;;
      _saveUpdates rundownId true [] false ;;;
      (* Now, also add the resources as timeline-objects into the parts: *)
      addedResourcesUndo <-
        addResourcesOfParts rundownId gid
          ((fun part => (part_id (ins_part part), ins_part_resources part)) <$> batch) [] ;;
      ret (undoable
        (runUndos (rev addedResourcesUndo) ;;;
         _ <- getGroup rundownId gid ;;
         (fun w => Returned tt
            (changeGroup rundownId gid
               (fun g => setParts g (omap (fun partId => findPart g partId) originalPartIds))
               w)) ;;;
         _saveUpdates rundownId true [gid] false)
        "InsertParts" (VParts inserted))
  | None => _insertPartsAsTransparentGroup rundownId batch target
  end.

(** An element of a batch of groups that cannot go in: its id, or the id of
    one of its parts, is in use in the rundown. *)
Definition groupCollides (rundown : Rundown) (g : GroupToInsert) : bool :=
  existsb (fun g' => String.eqb (group_id g') (group_id (ins_group g))) (groups rundown)
  || existsb (fun part => partIdInUse rundown (part_id part)) (parts (ins_group g)).

(** The rundown state a command can change, and what the storage was told. *)
Definition unsaved (w w' : World) : Prop :=
  updatedRundowns w' = updatedRundowns w /\ updatedPeripherals w' = updatedPeripherals w.

(** A part of a batch that cannot go in: its id is in use in the rundown. *)
Definition partCollides (rundown : Rundown) (p : PartToInsert) : bool :=
  partIdInUse rundown (part_id (ins_part p)).

End Commands.

End Commands.

(* ===================================================================== *)
(** ** The lock guard of the other edit commands *)
(* ===================================================================== *)

Module LockGuards.
Import Js Model Commands.
Open Scope cmd_scope.

Section LockGuards.

(** The seven commands below are modelled as far as their lock guard. What
    they do once past it leans on code that is not among the sources
    ([deletePart], [deleteGroup], [findTimelineObj], [findTimelineObjIndex]
    and [deleteTimelineObj] of [lib/util], [getLastEndTime], the mappings of
    the project, the resource library): for each command it is a parameter
    that receives the arguments of the call and what the command has looked
    up. *)
Context {Project TimelineObjChange ResourceAny : Type}.

(** [this.getProject()]: the project that the storage holds. *)
Variable getProject : World -> Project.

(** [findTimelineObjInRundown(rundown, timelineObjId)] of [lib/util]: the
    group, the part and the timeline object, when the rundown holds it. *)
Variable findTimelineObjInRundown : Rundown -> string -> option (Group * Part * TimelineObj).

Variable deletePartUnlocked :
  string -> string -> string -> Rundown -> Group -> Part -> Cmd (option UndoableResult).
Variable deleteGroupUnlocked :
  string -> string -> Rundown -> Group -> Cmd (option UndoableResult).
Variable updateTimelineObjUnlocked :
  string -> string -> string -> string -> TimelineObjChange ->
  Rundown -> Group -> Part -> Cmd (option UndoableResult).
Variable deleteTimelineObjUnlocked :
  string -> string -> Rundown -> Group -> Part -> TimelineObj -> Cmd (option UndoableResult).
Variable insertTimelineObjsUnlocked :
  string -> string -> string -> list TimelineObj -> option MoveTarget -> Project ->
  Rundown -> Group -> Part -> Cmd (option UndoableResult).
Variable moveTimelineObjToNewLayerUnlocked :
  string -> string -> string -> string -> Rundown -> Group -> Part ->
  Cmd (option UndoableResult).
Variable addResourcesToTimelineUnlocked :
  string -> string -> string -> option string -> list (string + ResourceAny) ->
  Rundown -> Group -> Part -> Cmd (option UndoableResult).

(** [deletePart(arg)] *)
Definition deletePart (rundownId groupId partId : string) : Cmd (option UndoableResult) :=
  rgp <- getPart rundownId groupId partId ;;
  let rundown := rgp.1.1 in
  let group := rgp.1.2 in
  let part := rgp.2 in
  if locked group || part_locked part then ret None
  else deletePartUnlocked rundownId groupId partId rundown group part.

(** [deleteGroup(arg)] *)
Definition deleteGroup (rundownId groupId : string) : Cmd (option UndoableResult) :=
  rg <- getGroup rundownId groupId ;;
  let rundown := rg.1 in
  let group := rg.2 in
  if locked group then ret None
  else deleteGroupUnlocked rundownId groupId rundown group.

(** [updateTimelineObj(arg)] *)
Definition updateTimelineObj (rundownId groupId partId timelineObjId : string)
    (timelineObj : TimelineObjChange) : Cmd (option UndoableResult) :=
  rgp <- getPart rundownId groupId partId ;;
  let rundown := rgp.1.1 in
  let group := rgp.1.2 in
  let part := rgp.2 in
  if locked group || part_locked part then ret None
  else updateTimelineObjUnlocked rundownId groupId partId timelineObjId timelineObj
         rundown group part.

(** [deleteTimelineObj(arg)]: the group and the part are those that hold the
    timeline object, not those the arguments name. *)
Definition deleteTimelineObj (rundownId groupId partId timelineObjId : string)
    : Cmd (option UndoableResult) :=
  rundown <- getRundown rundownId ;;
  match findTimelineObjInRundown rundown timelineObjId with
  | None => throw ("TimelineObj not found: " +:+ timelineObjId)
  | Some (group, part, timelineObj) =>
    if locked group || part_locked part then ret None
    else deleteTimelineObjUnlocked rundownId timelineObjId rundown group part timelineObj
  end.

(** [insertTimelineObjs(arg)]; the project is read before the part is
    looked up. *)
Definition insertTimelineObjs (rundownId groupId partId : string)
    (timelineObjs : list TimelineObj) (target : option MoveTarget)
    : Cmd (option UndoableResult) :=
  fun w =>
    let project := getProject w in
    (rgp <- getPart rundownId groupId partId ;;
     let rundown := rgp.1.1 in
     let group := rgp.1.2 in
     let part := rgp.2 in
     if locked group || part_locked part then ret None
     else insertTimelineObjsUnlocked rundownId groupId partId timelineObjs target project
            rundown group part) w.

(** [moveTimelineObjToNewLayer(arg)] *)
Definition moveTimelineObjToNewLayer (rundownId groupId partId timelineObjId : string)
    : Cmd (option UndoableResult) :=
  rgp <- getPart rundownId groupId partId ;;
  let rundown := rgp.1.1 in
  let group := rgp.1.2 in
  let part := rgp.2 in
  if locked group || part_locked part then ret None
  else moveTimelineObjToNewLayerUnlocked rundownId groupId partId timelineObjId
         rundown group part.

(** [addResourcesToTimeline(arg)]; a resource is named by its id or given
    whole. *)
Definition addResourcesToTimeline (rundownId groupId partId : string)
    (layerId : option string) (resourceIds : list (string + ResourceAny))
    : Cmd (option UndoableResult) :=
  rgp <- getPart rundownId groupId partId ;;
  let rundown := rgp.1.1 in
  let group := rgp.1.2 in
  let part := rgp.2 in
  if locked group || part_locked part then ret None
  else addResourcesToTimelineUnlocked rundownId groupId partId layerId resourceIds
         rundown group part.

End LockGuards.

End LockGuards.

(* ===================================================================== *)
(** ** The shape of the undo ledger *)
(* ===================================================================== *)

Module LedgerShape.
Import Js Ledger.

Section LedgerShape.
Context {World Args Value : Type}.
Variable MAX_UNDO_LEDGER_LENGTH : nat.

(** The shape the ledger is kept in: the pointer is [-1] or the index of an
    entry, and the ledger holds at most [MAX_UNDO_LEDGER_LENGTH] entries. *)
Definition wellFormed (s : Ledger.Server World Args Value) : Prop :=
  -1 <= undoPointer s < Z.of_nat (length (undoLedger s))
  /\ (length (undoLedger s) <= MAX_UNDO_LEDGER_LENGTH)%nat.

End LedgerShape.
End LedgerShape.

(* ===================================================================== *)
(** ** The session handler: the remaining methods, and the bridge callback *)
(* ===================================================================== *)

Module SessionRest.
Import Js Session.

Section SessionRest.

Context {ResourceAny BridgeStatus : Type}.

(** [resource.deviceId] and [resource.id]: [ResourceAny] comes from
    [@shared/models], which is not among the sources; the two properties the
    code reads are parameters. *)
Variable resource_deviceId : ResourceAny -> string.
Variable resource_id : ResourceAny -> string.

(** [_.isEqual] on two resources. *)
Context `{EqDecision ResourceAny}.

(** [triggerEmitAll()] *)
Definition triggerEmitAll (s : SessionHandler ResourceAny BridgeStatus)
    : SessionHandler ResourceAny BridgeStatus :=
  triggerUpdate
    (mkSession (resources s) (resourcesHasChanged s) (bridgeStatuses s)
       (bridgeStatusesHasChanged s) (peripherals s) (peripheralsHasChanged s)
       (allTriggers s) (allTriggersHasChanged s) (activeTriggers s)
       (activeTriggersHasChanged s) (emitTimeout s) true (emittedEvents s)
       (timersSet s)).

(** [getResourceIds(deviceId)]; the ids come in the order of [map_to_list],
    not in the insertion order of [Object.entries]. *)
Definition getResourceIds (deviceId : string) (s : SessionHandler ResourceAny BridgeStatus)
    : list string :=
  (filter (fun kv => resource_deviceId kv.2 = deviceId) (map_to_list (resources s))).*1.

(** [resetPeripheralTriggerStatuses(bridgeId)]: no call of [triggerUpdate]. *)
Definition resetPeripheralTriggerStatuses (bridgeId : string)
    (s : SessionHandler ResourceAny BridgeStatus) : SessionHandler ResourceAny BridgeStatus :=
  let ofBridge (kv : string * ActiveTrigger) := trigger_bridgeId kv.2 = bridgeId in
  mkSession (resources s) (resourcesHasChanged s) (bridgeStatuses s)
    (bridgeStatusesHasChanged s) (peripherals s) (peripheralsHasChanged s)
    (filter (fun kv => ~ ofBridge kv) (allTriggers s))
    (allTriggersHasChanged s ∖ dom (filter ofBridge (allTriggers s)))
    (filter (fun kv => ~ ofBridge kv) (activeTriggers s))
    (if existsb (fun kv => String.eqb (trigger_bridgeId kv.2) bridgeId)
          (map_to_list (activeTriggers s))
     then true else activeTriggersHasChanged s)
    (emitTimeout s) (emitEverything s) (emittedEvents s) (timersSet s).

(** The callback [updatedResources] that [TimedPlayerThingy.initWindow] hands
    to the bridge handler. Added / updated: *)
Definition addOrUpdate (s : SessionHandler ResourceAny BridgeStatus) (resource : ResourceAny)
    : SessionHandler ResourceAny BridgeStatus :=
  if decide (getResource (resource_id resource) s = Own resource) then s
  else updateResource (resource_id resource) (Some resource) s.

(** Removed: *)
Definition removeMissing (newResouceIds : gset string)
    (s : SessionHandler ResourceAny BridgeStatus) (id : string)
    : SessionHandler ResourceAny BridgeStatus :=
  if decide (id ∈ newResouceIds) then s else updateResource id None s.

Definition updatedResources (deviceId : string) (resources0 : list ResourceAny)
    (s : SessionHandler ResourceAny BridgeStatus) : SessionHandler ResourceAny BridgeStatus :=
  let newResouceIds : gset string := list_to_set (resource_id <$> resources0) in
  let s1 := foldl addOrUpdate s resources0 in
  foldl (removeMissing newResouceIds) s1 (getResourceIds deviceId s1).

(** What the session holds under [id] once [updatedResources] has run: the
    last resource of the list that carries the id, else what it held before
    unless that belonged to the device. *)
Definition synced (deviceId : string) (resources0 : list ResourceAny)
    (before : gmap string ResourceAny) (id : string) : option ResourceAny :=
  match last (filter (fun r => resource_id r = id) resources0) with
  | Some r => Some r
  | None =>
    match before !! id with
    | Some r => if decide (resource_deviceId r = deviceId) then None else Some r
    | None => None
    end
  end.

End SessionRest.

End SessionRest.

(* ===================================================================== *)
(** ** The playout commands of [IPCServer] *)
(* ===================================================================== *)

Module PlayCommands.
Import Js Model Playout Commands.
Open Scope cmd_scope.

Section PlayCommands.

(** The collaborators that are not among the sources, as before. *)
Variable getGroupPlayData : option GroupPreparedPlayData -> Z -> GroupPlayData.
Variable updateTimeline : Group -> option GroupPreparedPlayData.
Variable updateGroupPlayingParts : Group -> Group.

(** Run a loop over the stored group object: whatever the loop did to the
    object stays done, also when it throws. *)
Definition onGroup {A} (rundownId groupId : string) (body : Group -> Outcome Group A) : Cmd A :=
  rg <- getGroup rundownId groupId ;;
  fun w =>
    match body rg.2 with
    | Returned a g' => Returned a (changeGroup rundownId groupId (fun _ => g') w)
    | Thrown e g' => Thrown e (changeGroup rundownId groupId (fun _ => g') w)
    end.

(** [playPart(arg)]; [now] is what [Date.now()] returns. *)
Definition playPart (rundownId groupId partId : string) (now : Z) : Cmd unit :=
  rgp <- getPart rundownId groupId partId ;;
  (fun w => Returned tt (changeGroup rundownId groupId (fun g => _playPart g rgp.2 now) w)) ;;;
  _saveUpdates updateTimeline updateGroupPlayingParts rundownId true [groupId] false.

(** The loop of [playParts]; [_getPartOfGroup] throws when the part is not
    in the group. *)
Fixpoint playPartsLoop (partIds : list string) (now : Z) (group : Group)
    : Outcome Group unit :=
  match partIds with
  | [] => Returned tt group
  | partId :: rest =>
    match findPart group partId with
    | None => Thrown ("Part not found: " +:+ partId) group
    | Some part => playPartsLoop rest now (_playPart group part now)
    end
  end.

(** [playParts(arg)] *)
Definition playParts (rundownId groupId : string) (partIds : list string) (now : Z)
    : Cmd unit :=
  onGroup rundownId groupId (playPartsLoop partIds now) ;;;
  _saveUpdates updateTimeline updateGroupPlayingParts rundownId true [groupId] false.

(** [pausePart(arg)]; [clock] is what [Date.now()] returns inside
    [_pausePart]. *)
Definition pausePart (rundownId groupId partId : string) (time : option Z) (now clock : Z)
    : Cmd unit :=
  rgp <- getPart rundownId groupId partId ;;
  (fun w => Returned tt
     (changeGroup rundownId groupId
        (fun g => _pausePart getGroupPlayData (updateGroupPlayingParts g) rgp.2 time now clock)
        w)) ;;;
  _saveUpdates updateTimeline updateGroupPlayingParts rundownId true [groupId] false.

(** [playingParts[partId].stopTime = now] *)
Definition stopEntry (now : Z) (p : PlayingPart) : PlayingPart :=
  mkPlayingPart (startTime p) (pauseTime p) (Some now) (fromSchedule p).

(** [stopPart(arg)]; reading the keys of a missing [playingParts] throws. *)
Definition stopPart (rundownId groupId partId : string) (now : Z) : Cmd unit :=
  rg <- getGroup rundownId groupId ;;
  let group := rg.2 in
  match playingParts group with
  | None => throw "TypeError"
  | Some m =>
    let m' :=
      if oneAtATime group then
        (* Stop the group: *)
        stopEntry now <$> m
      else
        (* Stop the part: *)
        alter (stopEntry now) partId m in
    (fun w => Returned tt
       (changeGroup rundownId groupId (fun g => setPlayingParts g (Some m')) w)) ;;;
    _saveUpdates updateTimeline updateGroupPlayingParts rundownId true [groupId] false
  end.

(** [stopGroup(arg)] *)
Definition stopGroup (rundownId groupId : string) (now : Z) : Cmd unit :=
  rg <- getGroup rundownId groupId ;;
  let group := rg.2 in
  match playingParts group with
  | None => throw "TypeError"
  | Some m =>
    (fun w => Returned tt
       (changeGroup rundownId groupId
          (fun g => setPlayingParts g (Some (stopEntry now <$> m))) w)) ;;;
    _saveUpdates updateTimeline updateGroupPlayingParts rundownId true [groupId] false
  end.

(** [promise.catch(this._log.error)]: the call has run, its exception is
    logged and goes no further. *)
Definition caught (c : Cmd unit) : Cmd unit :=
  fun w => match c w with
           | Returned _ w' => Returned tt w'
           | Thrown _ w' => Returned tt w'
           end.

(** [playGroup(arg)] *)
Definition playGroup (rundownId groupId : string) (now : Z) : Cmd unit :=
  rg <- getGroup rundownId groupId ;;
  let group := rg.2 in
  if disabled group then ret tt
  else if oneAtATime group then
    (* Play the first non-disabled part *)
    match find (fun p => negb (part_disabled p)) (parts group) with
    | Some part => caught (playPart rundownId groupId (part_id part) now)
    | None => ret tt
    end
  else
    (* Play all parts (disabled parts won't get played) *)
    caught (playParts rundownId groupId (part_id <$> parts group) now).

(** The entry of a part that has just been started. *)
Definition started (now : Z) : PlayingPart := mkPlayingPart now None None false.

(** A request to play [partId] in [group] starts something: the part that
    [findPart] hands out for the id is not disabled. *)
Definition playable (group : Group) (partId : string) : bool :=
  match findPart group partId with
  | Some p => negb (part_disabled p)
  | None => false
  end.

(** What a command hands to [_saveUpdates]: the command ends
    in the call of [_saveUpdates] for the group, on the world in which the
    group is [g1]. *)
Definition savesGroupAs (c : Cmd unit) (rundownId groupId : string) (w : World) (g1 : Group) : Prop :=
  c w = _saveUpdates updateTimeline updateGroupPlayingParts rundownId true [groupId] false
          (changeGroup rundownId groupId (fun _ => g1) w).

End PlayCommands.

End PlayCommands.

(* ===================================================================== *)
(** ** More edit commands: [newGroup], [moveGroups] *)
(* ===================================================================== *)

Module GroupCommands.
Import Js Model Commands.
Open Scope cmd_scope.

(** The group a command addresses, if the rundown is open and holds it. *)
Definition lookupGroup (w : World) (rundownId groupId : string) : option Group :=
  r ← rundowns w !! rundownId; findGroup r groupId.

(** The part a command addresses. *)
Definition lookupPart (w : World) (rundownId groupId partId : string) : option Part :=
  g ← lookupGroup w rundownId groupId; findPart g partId.

(** The call threw and left the world as it was. *)
Definition rejected {A} (o : Outcome World A) (w : World) : Prop :=
  isThrown o = true /\ stateOf o = w.

Section GroupCommands.

Variable updateTimeline : Group -> option GroupPreparedPlayData.
Variable updateGroupPlayingParts : Group -> Group.
Variable getPositionFromTarget : MoveTarget -> list string -> Z.
Variable shortID : nat -> string.
Variable getDefaultGroup : Group.

(** [{ ...getDefaultGroup(), id, name }] *)
Definition defaultGroupNamed (id name : string) : Group :=
  mkGroup id name (transparent getDefaultGroup) (oneAtATime getDefaultGroup)
    (autoPlay getDefaultGroup) (loop getDefaultGroup) (disabled getDefaultGroup)
    (locked getDefaultGroup) (schedule getDefaultGroup) (parts getDefaultGroup)
    (playingParts getDefaultGroup) (preparedPlayData getDefaultGroup).

(** [newGroup(arg)] *)
Definition newGroup (rundownId name : string) : Cmd UndoableResult :=
  newGroupId <- drawId shortID ;;
  let newGroup0 := defaultGroupNamed newGroupId name in
  _ <- getRundown rundownId ;;
  (fun w => Returned tt
     (changeRundown rundownId (fun r => setGroups r (groups r ++ [newGroup0])) w)) ;;;
  _saveUpdates updateTimeline updateGroupPlayingParts rundownId true [] false ;;;
  ret (undoable
    (_ <- getRundown rundownId ;;
     (fun w => Returned tt
        (changeRundown rundownId
           (fun r => setGroups r (filter (fun g => group_id g <> newGroupId) (groups r))) w)) ;;;
     _saveUpdates updateTimeline updateGroupPlayingParts rundownId true [] false)
    "NewGroup" (VString newGroupId)).

(** The loop of [moveGroups] over the rundown object: each group is taken
    out of the array and put back at the position of the target. *)
Fixpoint moveGroupsLoop (groupIds : list string) (nextTarget : MoveTarget) (rundown : Rundown)
    : Outcome Rundown unit :=
  match groupIds with
  | [] => Returned tt rundown
  | groupId :: rest =>
    match findGroup rundown groupId with
    | None => Thrown ("Group not found: " +:+ groupId) rundown
    | Some group =>
      (* Remove the group from the groups array and re-insert it at its new position *)
      let others := filter (fun g => group_id g <> group_id group) (groups rundown) in
      let insertPosition := getPositionFromTarget nextTarget (group_id <$> others) in
      moveGroupsLoop rest (TargetAfter (group_id group))
        (setGroups rundown (splice insertPosition 0 [group] others))
    end
  end.

(** [moveGroups(arg)] *)
Definition moveGroups (rundownId : string) (groupIds : list string) (target : MoveTarget)
    : Cmd UndoableResult :=
  rundown <- getRundown rundownId ;;
  (* Save the original positions for use in undo: *)
  let originalGroupIds := group_id <$> groups rundown in
  onRundown rundownId (moveGroupsLoop groupIds target) ;;;
  _saveUpdates updateTimeline updateGroupPlayingParts rundownId true [] false ;;;
  ret (undoable
    (_ <- getRundown rundownId ;;
     (fun w => Returned tt
        (changeRundown rundownId
           (fun r => setGroups r
              (omap (fun groupId => findGroup r groupId) originalGroupIds)) w)) ;;;
     _saveUpdates updateTimeline updateGroupPlayingParts rundownId true [] false)
    "MoveGroup" VVoid).

(** A batch of groups that goes in whole: no element collides with the
    rundown as the elements before it have left it. *)
Fixpoint fitsAll {ResourceAny : Type} (rundown : Rundown)
    (batch : list (GroupToInsert (ResourceAny := ResourceAny))) : bool :=
  match batch with
  | [] => true
  | g :: rest =>
    negb (groupCollides rundown g)
    && fitsAll (setGroups rundown (ins_group g :: groups rundown)) rest
  end.

(** The ids that [newPart] draws are not in use where the undo will look:
    the id of the part among the parts of the group it goes into, or the id
    of the transparent group among the groups of the rundown. *)
Definition idsAreNew (w : World) (rundownId : string) (groupId : option string) : Prop :=
  match truthyString groupId with
  | Some gid =>
    exists g, lookupGroup w rundownId gid = Some g
              /\ shortID (drawnIds w) ∉ part_id <$> parts g
  | None =>
    exists r, rundowns w !! rundownId = Some r
              /\ shortID (S (drawnIds w)) ∉ group_id <$> groups r
  end.

End GroupCommands.

End GroupCommands.

(* ===================================================================== *)
(** ** Reading an emitted timeline: part instances, enables, shape *)
(* ===================================================================== *)

Module TimelineReading.
Import Model Timeline.

(** Every enable in a tree: those of the object, of the objects below it and
    of the keyframes. *)
Fixpoint enables (o : TimelineObject) : list TimelineEnable :=
  match o with
  | mkObject _ enable _ _ _ children keyframes =>
    enable ++ flat_map enables children ++ flat_map kf_enable keyframes
  end.

(** Every enable in the tree has the duration [Infinity]. *)
Definition frozen (o : TimelineObject) : Prop :=
  forall e, e ∈ enables o -> en_duration e = Some (ENum PosInf).

(** The part instances of an emitted timeline. Under ['multi'] prepared data
    the sections sit one level further down, below the wrapper of their part. *)
Definition instances (prepared : option GroupPreparedPlayData)
    (timeline : list TimelineObject) : list TimelineObject :=
  match prepared with
  | Some (PreparedMulti _) => flat_map (fun wrapper => expansions (obj_children wrapper)) timeline
  | _ => expansions timeline
  end.

(** The enable of the instance of a prepared part in its section, as it
    leaves [sectionToTimelineObj]. *)
Definition instanceEnable (section : PreparedSection) (part : PreparedPart)
    : list TimelineEnable :=
  let paused := match sec_pauseTime section with Some _ => true | None => false end in
  [mkEnable (Some (ENum (Fin (pp_startTime part - sec_startTime section)))) None None
     (Some (ENum PosInf))
     (if paused then None
      else if part_loop (pp_part part)
           then Some (numExpr (part_resolved_duration (pp_part part)))
           else None)].

(** The part instances below a list of section objects: the objects under
    section / section content. *)
Definition under (sectionObjs : list TimelineObject) : list TimelineObject :=
  flat_map (fun section => flat_map obj_children (obj_children section)) sectionObjs.

(** The prepared sections in the order the loops walk them. *)
Definition sectionsOf (prepared : option GroupPreparedPlayData) : list PreparedSection :=
  match prepared with
  | Some (PreparedSingle sections) => sections
  | Some (PreparedMulti sections) => flat_map snd sections
  | None => []
  end.

(** What the id rewrite leaves alone: layers, content, and the form of the
    tree. *)
Inductive Shape : Type :=
| mkShape (layer : string) (content : Content) (isGroup : bool)
    (children : list Shape) (keyframes : list Content).

Fixpoint shape (o : TimelineObject) : Shape :=
  match o with
  | mkObject _ _ layer content isGroup children keyframes =>
    mkShape layer content isGroup (map shape children) (map kf_content keyframes)
  end.

(** [getUniqueId] over a list of ids, in order, on the shared counters. *)
Fixpoint renameAll (ids : list string) (idCount : gmap string nat)
    : list string * gmap string nat :=
  match ids with
  | [] => ([], idCount)
  | id :: rest =>
    let '(id', idCount1) := getUniqueId id idCount in
    let '(rest', idCount2) := renameAll rest idCount1 in
    (id' :: rest', idCount2)
  end.

(** The loop of [changeTimelineIdInnerObj] over the children of an object,
    with the rewrite of one child as a parameter. *)
Section ChangeChildren.
Variable changeOne : TimelineObject -> RewriteState -> TimelineObject * RewriteState.

Fixpoint changeChildren (cs : list TimelineObject) (s : RewriteState)
    : list TimelineObject * RewriteState :=
  match cs with
  | [] => ([], s)
  | c :: cs' =>
    let '(c', s1) := changeOne c s in
    let '(cs'', s2) := changeChildren cs' s1 in
    (c' :: cs'', s2)
  end.

End ChangeChildren.

End TimelineReading.

(* ===================================================================== *)
(** ** Sample inputs *)
(* ===================================================================== *)

Module LedgerSamples.
Import Js Ledger.

(** A command on a counter that hands back an undoable result. *)
Definition bump : @Ledger.UndoableFunction nat unit nat :=
  fun _ w => Returned (Undoable (mkUndoableResult 7%nat "NewPart" (fun w' => Returned tt (pred w')))) (S w).

(** A command whose inverse fails and that cannot be redone. *)
Definition broken : Ledger.Action nat unit nat :=
  mkAction "DeletePart" tt (fun _ w => Thrown "gone" w) (Some (fun w => Thrown "gone" w)).

Definition fresh : Ledger.Server nat unit nat := mkServer [] (-1) 0%nat [].

Definition stuck : Ledger.Server nat unit nat := mkServer [broken; broken] 0 5%nat [].

(** A ledger that is full when it may hold two entries, with the pointer on
    its first entry (one action can be redone) and on its last. *)
Definition older : Ledger.Action nat unit nat :=
  mkAction "NewGroup" tt bump (Some (fun w => Returned tt (pred w))).

Definition newer : Ledger.Action nat unit nat :=
  mkAction "MoveGroup" tt bump (Some (fun w => Returned tt (pred w))).

Definition undoneOnce : Ledger.Server nat unit nat := mkServer [older; newer] 0 5%nat [].

Definition full : Ledger.Server nat unit nat := mkServer [older; newer] 1 5%nat [].

End LedgerSamples.

Module PlayoutSamples.
Import Model Playout.

Definition partA : Part := mkPart "A" "Opener" false false false None (Some (Fin 1000)) [] [].

Definition partB : Part := mkPart "B" "Closer" false false false None (Some (Fin 2000)) [] [].

Definition soloGroup : Group :=
  mkGroup "G" "Show" false true false false false false None [partA; partB] None None.

(** A resolver for prepared data with one section: every part of the
    section plays from its own start, frozen where the section is paused. *)
Definition sectionResolver (prepared : option GroupPreparedPlayData) (clock : Z)
    : GroupPlayData :=
  match prepared with
  | Some (PreparedSingle [sec]) =>
    mkPlayData
      (list_to_map ((fun pp => (part_id (pp_part pp),
                                mkPlayhead (pp_startTime pp) (sec_pauseTime sec) false))
                      <$> sec_parts sec))
  | _ => mkPlayData ∅
  end.

Definition playingA : option GroupPreparedPlayData :=
  Some (PreparedSingle [mkSection 0 None None None false PosInf [mkPreparedPart partA 0]]).

Definition pausedA : option GroupPreparedPlayData :=
  Some (PreparedSingle [mkSection 0 None (Some 10) None false PosInf [mkPreparedPart partA 0]]).

(** A group that played [partA] and [partB] side by side and has then been
    given [oneAtATime] ([updateGroup] with the patch [{ oneAtATime: true }]
    extends the group and, unlike [toggleGroupOneAtATime], does not cut
    [playingParts] down to one entry), and a disabled part. *)
Definition crowded : Group :=
  mkGroup "G" "Show" false true false false false false None [partA; partB]
    (Some (<["A" := mkPlayingPart 0 None None false]>
             (<["B" := mkPlayingPart 5 None None false]> ∅)))
    None.

Definition partOff : Part := mkPart "C" "Off air" true false false None (Some (Fin 500)) [] [].

End PlayoutSamples.

Module TimelineSamples.
Import Model Timeline.

(** The clone of a part's timeline object, handed on as it is. *)
Definition keepClone (o : TimelineObject) (playingPart : PreparedPart) (org : TimelineObj)
    (pauseTime0 : option Z) : TimelineObject := o.

Definition startAt (e : Expression) : TimelineEnable := mkEnable (Some e) None None None None.

Definition showGroup : Group :=
  mkGroup "G" "Show" false true true true false false None [] None None.

(** *** A part that starts late *)

Definition clip : TimelineObject :=
  mkObject "clip" [startAt (ENum (Fin 5))] "casparcg_1" (DeviceContent "video") false [] [].

Definition latePart : Part :=
  mkPart "P" "Late" false false false None (Some (Fin 1000)) [] [mkTimelineObj (Some "res") clip].

Definition lateSection : PreparedSection :=
  mkSection 100 (Some 1100) None None false (Fin 1000) [mkPreparedPart latePart 100].

Definition lateBuilt : SingleLoop :=
  singleLoop keepClone showGroup None 0 [lateSection] (mkSingleLoop PosInf (Fin 0) [] ∅).

Definition lateEmitted : list TimelineObject :=
  default [] (getTimelineForGroup keepClone showGroup (Some (PreparedSingle [lateSection])) None).

(** The starts of the enables of the leaves of a list of trees. *)
Definition leafStarts (objs : list TimelineObject) : list (option Expression) :=
  flat_map (fun o => en_start <$> obj_enable o) (flat_map leaves objs).

Definition lateWrapper : TimelineObject :=
  match lateEmitted with
  | [wrapper] => wrapper
  | _ => mkObject "" [] "" EmptyContent false [] []
  end.

(** *** A part played twice in a row *)

Definition clipWithFade : TimelineObject :=
  mkObject "clip" [startAt (ENum (Fin 0))] "casparcg_1" (DeviceContent "video") false []
    [mkKeyframe "fade" [startAt (ENum (Fin 500))] (DeviceContent "opacity")].

Definition logo : TimelineObject :=
  mkObject "logo" [startAt (EStr "#fade.start")] "casparcg_2" (DeviceContent "image") false [] [].

Definition loopPart : Part :=
  mkPart "P" "Loop" false false false None (Some (Fin 1000)) []
    [mkTimelineObj (Some "res1") clipWithFade; mkTimelineObj (Some "res2") logo].

Definition loopPrepared : GroupPreparedPlayData :=
  PreparedSingle
    [mkSection 0 None None None true (Fin 2000)
       [mkPreparedPart loopPart 0; mkPreparedPart loopPart 1000]].

Definition loopTimeline : list TimelineObject :=
  default [] (getTimelineForGroup keepClone showGroup (Some loopPrepared) None).

Definition findInTimeline (id : string) (timeline : list TimelineObject) : option TimelineObject :=
  head (omap (findObject id) timeline).

(** *** Ids that overlap *)

Definition objA : TimelineObject :=
  mkObject "a" [startAt (ENum (Fin 0))] "casparcg_1" (DeviceContent "video") false [] [].

Definition objA1 : TimelineObject :=
  mkObject "a_1" [startAt (EStr "#a.end")] "casparcg_1" (DeviceContent "video") false [] [].

Definition overlapPart : Part :=
  mkPart "P" "Overlap" false false false None (Some (Fin 1000)) []
    [mkTimelineObj (Some "res1") objA; mkTimelineObj (Some "res2") objA1].

Definition overlapTimeline : list TimelineObject :=
  default []
    (getTimelineForGroup keepClone showGroup
       (Some (PreparedSingle
                [mkSection 0 None None None true (Fin 2000)
                   [mkPreparedPart overlapPart 0; mkPreparedPart overlapPart 1000]])) None).

End TimelineSamples.

Module CommandSamples.
Import Js Model Commands.

Definition plainPart (id name : string) (isLocked : bool) : Part :=
  mkPart id name false isLocked false None None [] [].

Definition plainGroup (id name : string) (isLocked : bool) (ps : list Part)
    (playing : gmap string PlayingPart) : Group :=
  mkGroup id name false true false false false isLocked None ps (Some playing) None.

Definition worldOf (r : Rundown) : World := mkWorld {[rundown_id r := r]} [] 0 0.

(** Stand-ins for the collaborators, for running the commands. *)
Definition noTimeline (g : Group) : option GroupPreparedPlayData := None.

Definition keepGroup (g : Group) : Group := g.

Definition keepPart (p : Part) : Part := p.

Definition numberedId (n : nat) : string := "id" +:+ Timeline.natToString n.

Definition noResources : string -> string -> string -> list unit -> Cmd (option UndoFunction) :=
  fun _ _ _ _ => ret None.

(** *** Inserting into a rundown that holds the group [intro] *)

Definition intro : Group := plainGroup "intro" "Intro" false [plainPart "p1" "Titles" false] ∅.

Definition news : Group := plainGroup "news" "News" false [plainPart "p2" "Headlines" false] ∅.

Definition evening : Rundown := mkRundown "rd" "Evening" [intro].

Definition toInsert (R : Type) (g : Group) : GroupToInsert (ResourceAny := R) :=
  mkGroupToInsert g ∅.

(** The batch [news; intro] goes into a rundown that holds [intro]: whatever
    the collaborators do, the call throws, and the rundown then holds two
    groups, [news] among them. *)
Definition PartialInsert : Prop :=
  forall (updateTimeline : Group -> option GroupPreparedPlayData)
         (updateGroupPlayingParts : Group -> Group)
         (getPositionFromTarget : MoveTarget -> list string -> Z)
         (R : Type)
         (addResourcesToTimeline : string -> string -> string -> list R -> Cmd (option UndoFunction)),
  exists e w' r',
    insertGroups updateTimeline updateGroupPlayingParts getPositionFromTarget
      addResourcesToTimeline "rd" [toInsert R news; toInsert R intro] TargetLast (worldOf evening)
    = Thrown e w'
    /\ rundowns w' !! "rd" = Some r'
    /\ length (groups evening) = 1%nat
    /\ length (groups r') = 2%nat
    /\ news ∈ groups r'.

(** *** A locked part in a group that is not locked *)

Definition sealed : Part := plainPart "p1" "Titles" true.

Definition openers : Group := plainGroup "intro" "Intro" false [sealed] ∅.

Definition morning : Rundown := mkRundown "rd" "Morning" [openers].

Definition renameAndLock : PartPatch :=
  mkPartPatch None (Some "Credits") None (Some true) None None None None None.

(** [updatePart] with a patch that carries [locked] and a new name, on a
    locked part: whatever the collaborators do, the call hands back an
    undoable result, the rundown is saved, and the part carries the new name
    (as [postProcessPart] leaves it). *)
Definition LockedPartUpdated : Prop :=
  forall (updateTimeline : Group -> option GroupPreparedPlayData)
         (updateGroupPlayingParts : Group -> Group)
         (postProcessPart : Part -> Part),
  part_locked sealed = true
  /\ match updatePart updateTimeline updateGroupPlayingParts postProcessPart "rd" "intro" "p1"
             renameAndLock (worldOf morning) with
     | Returned (Some _) w' =>
       w' = mkWorld
              {["rd" := mkRundown "rd" "Morning"
                          [plainGroup "intro" "Intro" false
                             [postProcessPart (plainPart "p1" "Credits" true)] ∅]]}
              ["rd"] 1 0
     | _ => False
     end.

Definition lockedGroup : Group := plainGroup "intro" "Intro" true [sealed] ∅.

Definition lockedRundown : Rundown := mkRundown "rd" "Night" [lockedGroup].

(** *** A locked part that holds a timeline object, in a group that is not locked *)

Definition titleCard : TimelineObj :=
  mkTimelineObj (Some "res")
    (mkObject "card" [] "casparcg_1" (DeviceContent "image") false [] []).

Definition sealedCard : Part := mkPart "p1" "Titles" false true false None None [] [titleCard].

Definition cards : Group := plainGroup "intro" "Intro" false [sealedCard] ∅.

Definition matinee : Rundown := mkRundown "rd" "Matinee" [cards].

(** A stand-in for [findTimelineObjInRundown]: the first part, in the order
    of the rundown, that holds a timeline object with the id. *)
Definition holderOf (rundown : Rundown) (timelineObjId : string)
    : option (Group * Part * TimelineObj) :=
  head (flat_map (fun g =>
          flat_map (fun p =>
            flat_map (fun o =>
              if String.eqb (obj_id (obj o)) timelineObjId then [(g, p, o)] else [])
              (part_timeline p))
            (parts g))
          (groups rundown)).

(** A stand-in for what a command does past its guard: it throws, so that a
    call that returns has returned at the guard. *)
Definition pastGuard : Cmd (option UndoableResult) := throw "past the guard".

(** *** Enabling the schedule of a group with stopped parts *)

Definition stoppedEarlier : PlayingPart := mkPlayingPart 0 None (Some 40) false.

Definition stoppedLater : PlayingPart := mkPlayingPart 10 None (Some 50) false.

Definition stillPlaying : PlayingPart := mkPlayingPart 20 None None false.

Definition lateEntries : gmap string PlayingPart :=
  <["p" := stoppedEarlier]> (<["q" := stoppedLater]> (<["s" := stillPlaying]> ∅)).

Definition scheduled : Group :=
  plainGroup "late" "Late show" false [plainPart "p" "One" false; plainPart "q" "Two" false]
    lateEntries.

Definition night : Rundown := mkRundown "rd" "Night" [scheduled].

(** The patches [{ schedule: { activate } }] and [{ name }], with what [has]
    and [deepExtend] make of them. *)
Inductive SamplePatch : Type :=
| ScheduleActivate (value : bool)
| Rename (name : string).

Definition sampleHas (patch : SamplePatch) (key : string) : bool :=
  match patch with
  | ScheduleActivate _ => String.eqb key "schedule"
  | Rename _ => String.eqb key "name"
  end.

Definition sampleExtend (g : Group) (patch : SamplePatch) : Group :=
  match patch with
  | ScheduleActivate value =>
    mkGroup (group_id g) (group_name g) (transparent g) (oneAtATime g) (autoPlay g) (loop g)
      (disabled g) (locked g)
      (Some (mkSchedule (Some value)
               (match schedule g with Some sch => schedule_startTime sch | None => None end)))
      (parts g) (playingParts g) (preparedPlayData g)
  | Rename name =>
    mkGroup (group_id g) name (transparent g) (oneAtATime g) (autoPlay g) (loop g)
      (disabled g) (locked g) (schedule g) (parts g) (playingParts g) (preparedPlayData g)
  end.

Definition enableSchedule : SamplePatch := ScheduleActivate true.

(** A stand-in for [Object.keys(playingParts)[0]]: some key of the object. *)
Definition someKey (m : gmap string PlayingPart) : option string :=
  head (fst <$> map_to_list m).

End CommandSamples.

Module RoundTripSamples.
Import Js Ledger LedgerSamples.

(** What [bump] hands back. *)
Definition bumpResult : Ledger.UndoableResult nat nat :=
  mkUndoableResult 7%nat "NewPart" (fun w' => Returned tt (pred w')).

(** The ledger once [bump] has gone through the handler. *)
Definition bumped : Ledger.Server nat unit nat := stateOf (handle 2 bump tt fresh).

Definition bumpEntry : Ledger.Action nat unit nat :=
  mkAction "NewPart" tt bump (Some (resultUndo bumpResult)).

End RoundTripSamples.

Module SessionSamples.
Import Session SessionRest.

(** A resource reduced to what the session reads of it: its id and the id
    of its device. *)
Definition Clip : Type := string * string.

Definition reported : list Clip := [("amb", "casparcg"); ("go1080p25", "casparcg")].

(** A session that holds a clip the device no longer reports. *)
Definition stale : SessionHandler Clip unit :=
  timerFires (updateResource "old" (Some ("old", "casparcg")) newSession).

Definition afterReport : SessionHandler Clip unit :=
  updatedResources snd fst "casparcg" reported stale.



End SessionSamples.

Module EditSamples.
Import Js Model Commands GroupCommands CommandSamples.

Definition twoGroups : Rundown := mkRundown "rd" "Evening" [intro; news].

(** [getPositionFromTarget] for a target that is the end of the list. *)
Definition atEnd (target : MoveTarget) (ids : list string) : Z := Z.of_nat (length ids).

Definition blankGroup : Group := plainGroup "" "" false [] ∅.

Definition blankPart : Part := plainPart "" "" false.

(** *** A part that is bound to a key *)

Definition onF1 : RundownTrigger := mkTrigger "F1" "play".

Definition onF2 : RundownTrigger := mkTrigger "F2" "stop".

Definition keyed : Part := mkPart "p1" "Titles" false false false None None [onF1] [].

Definition brunch : Rundown :=
  mkRundown "rd" "Brunch" [plainGroup "intro" "Intro" false [keyed] ∅].

End EditSamples.

Module TimelineReadingSamples.
Import Model Timeline TimelineReading TimelineSamples.

Definition latePrepared : option GroupPreparedPlayData := Some (PreparedSingle [lateSection]).

(** The instance of [latePart] in the emitted timeline, and the enable of
    the clip below it. *)
Definition lateInstance : TimelineObject :=
  default lateWrapper (head (instances latePrepared lateEmitted)).

Definition lateClipEnable : TimelineEnable :=
  default emptyEnable (last (enables lateInstance)).

(** A section with nothing in it. *)
Definition emptySection : PreparedSection := mkSection 0 None None None false PosInf [].

End TimelineReadingSamples.

(* ===================================================================== *)
(** * Properties *)
(* ===================================================================== *)

(** ** JavaScript primitives *)

Module JsFacts.
Import Js.

Lemma readProperty_Own {A} (obj : gmap string A) (key : string) (a : A) :
  readProperty obj key = Own a <-> obj !! key = Some a.
Proof.
  unfold readProperty, readOwn. destruct (obj !! key) as [x|].
  - split; intros [= ->]; reflexivity.
  - destruct (inheritedName key); split; discriminate.
Qed.

Lemma readOwn_inj {A} (o1 o2 : option A) (key : string) :
  readOwn o1 key = readOwn o2 key -> o1 = o2.
Proof.
  unfold readOwn. destruct o1, o2; destruct (inheritedName key); congruence.
Qed.

Lemma readOwn_ne {A} (o1 o2 : option A) (key : string) :
  readOwn o1 key <> readOwn o2 key <-> o1 <> o2.
Proof.
  split; intros Hne Heq; apply Hne; [by rewrite Heq | by apply (readOwn_inj _ _ key)].
Qed.

Lemma splice_from {A} (start : Z) (l : list A) :
  0 <= start ->
  splice start (Z.of_nat (length l)) [] l = take (Z.to_nat start) l.
Proof.
  intros Hs. unfold splice.
  assert (Hneg : (start <? 0) = false) by (apply Z.ltb_ge; lia).
  rewrite Hneg. cbn [app].
  destruct (Z_le_gt_dec start (Z.of_nat (length l))) as [Hle | Hgt].
  - rewrite Z.min_l by lia. rewrite Z.max_l by lia.
    rewrite Z.min_r by lia.
    replace (Z.to_nat (start + (Z.of_nat (length l) - start))) with (length l) by lia.
    rewrite drop_ge by lia. apply app_nil_r.
  - rewrite Z.min_r by lia. rewrite Z.max_l by lia.
    rewrite Z.min_r by lia.
    replace (Z.to_nat (Z.of_nat (length l) + (Z.of_nat (length l) - Z.of_nat (length l))))
      with (length l) by lia.
    rewrite drop_ge by lia. rewrite app_nil_r.
    rewrite Nat2Z.id. rewrite !take_ge by lia. reflexivity.
Qed.

Lemma splice_all {A} (l : list A) : splice 0 (Z.of_nat (length l)) [] l = [].
Proof. rewrite splice_from by lia. reflexivity. Qed.

Lemma splice_front {A} (n : nat) (l : list A) :
  (n <= length l)%nat ->
  splice 0 (Z.of_nat n) [] l = drop n l.
Proof.
  intros Hn. unfold splice.
  assert (Hneg : (0 <? 0) = false) by reflexivity. rewrite Hneg.
  rewrite (Z.min_l 0) by lia. rewrite Z.max_l by lia.
  rewrite Z.min_l by lia. rewrite Z.add_0_l, Nat2Z.id. reflexivity.
Qed.

Lemma splice_insert_length {A} (pos : Z) (x : A) (l : list A) :
  length (splice pos 0 [x] l) = S (length l).
Proof.
  unfold splice.
  set (start := if pos <? 0 then _ else _).
  assert (Hs : 0 <= start <= Z.of_nat (length l)).
  { subst start. destruct (Z.ltb_spec pos 0); lia. }
  change (Z.max 0 0) with 0. rewrite (Z.min_l 0) by lia. rewrite Z.add_0_r.
  rewrite !length_app, length_take, length_drop. cbn [length]. lia.
Qed.

Lemma splice_insert_elem {A} (pos : Z) (x y : A) (l : list A) :
  y ∈ splice pos 0 [x] l <-> y = x \/ y ∈ l.
Proof.
  unfold splice.
  set (start := if pos <? 0 then _ else _).
  assert (Hs : 0 <= start <= Z.of_nat (length l)).
  { subst start. destruct (Z.ltb_spec pos 0); lia. }
  change (Z.max 0 0) with 0. rewrite (Z.min_l 0) by lia. rewrite Z.add_0_r.
  rewrite <- (take_drop (Z.to_nat start) l) at 3.
  rewrite !elem_of_app, list_elem_of_singleton. tauto.
Qed.

End JsFacts.

(** ** The undo ledger *)

Module LedgerFacts.
Import Js Ledger JsFacts.

Section LedgerFacts.

Context {World Args Value : Type}.
Variable MAX_UNDO_LEDGER_LENGTH : nat.

Abbreviation Server := (Ledger.Server World Args Value).
Abbreviation UndoableResult := (Ledger.UndoableResult World Value).
Abbreviation Action := (Ledger.Action World Args Value).

Lemma recordAction_ledger fcn args (r : UndoableResult) (s : Server) :
  -1 <= undoPointer s ->
  let a := mkAction (resultDescription r) args fcn (Some (resultUndo r)) in
  let s' := recordAction MAX_UNDO_LEDGER_LENGTH fcn args r s in
  undoLedger s' = drop (length (appended s a) - MAX_UNDO_LEDGER_LENGTH) (appended s a)
  /\ undoPointer s' = Z.of_nat (length (undoLedger s')) - 1
  /\ world s' = world s.
Proof.
  intros Hp a s'. subst s'. unfold recordAction, appended.
  rewrite splice_from by lia. fold a.
  set (l2 := take _ _ ++ [a]).
  cbn [emitUpdatedUndoLedger undoLedger undoPointer world].
  destruct (Nat.ltb_spec MAX_UNDO_LEDGER_LENGTH (length l2)) as [Hlt | Hge].
  - replace (Z.of_nat (length l2) - Z.of_nat MAX_UNDO_LEDGER_LENGTH)
      with (Z.of_nat (length l2 - MAX_UNDO_LEDGER_LENGTH)) by lia.
    rewrite splice_front by lia. auto.
  - replace (length l2 - MAX_UNDO_LEDGER_LENGTH)%nat with 0%nat by lia.
    rewrite drop_0. auto.
Qed.

Lemma clearLedger_empty (s : Server) :
  undoLedger (clearLedger s) = [] /\ undoPointer (clearLedger s) = -1.
Proof. unfold clearLedger. cbn. rewrite splice_all. auto. Qed.

Lemma undo_method_returns (s : Server) : isThrown (undo_method s) = false.
Proof.
  unfold undo_method.
  destruct (index (undoLedger s) (undoPointer s)) as [a|]; [|reflexivity].
  destruct (undo a) as [f|]; [|reflexivity].
  destruct (f (world s)); reflexivity.
Qed.

Lemma redo_method_returns (s : Server) : isThrown (redo_method s) = false.
Proof.
  unfold redo_method.
  destruct (index (undoLedger s) (undoPointer s + 1)) as [a|]; [|reflexivity].
  destruct (redo a (arguments a) (world s)) as [[r|[v|]] w | e w]; reflexivity.
Qed.

Lemma undo_failure (s : Server) :
  undoRaises s ->
  exists s', undo_method s = Returned tt s' /\ undoLedger s' = [] /\ undoPointer s' = -1.
Proof.
  unfold undoRaises, undo_method. intros H.
  destruct (index (undoLedger s) (undoPointer s)) as [a|].
  - destruct (undo a) as [f|].
    + destruct (f (world s)) as [u w | e w]; [discriminate|].
      eexists. split; [reflexivity|]. cbn. rewrite splice_all. auto.
    + eexists. split; [reflexivity|]. cbn. rewrite splice_all. auto.
  - eexists. split; [reflexivity|]. cbn. rewrite splice_all. auto.
Qed.

Lemma redo_failure (s : Server) :
  redoRaises s ->
  exists s', redo_method s = Returned tt s' /\ undoLedger s' = [] /\ undoPointer s' = -1.
Proof.
  unfold redoRaises, redo_method. intros H.
  destruct (index (undoLedger s) (undoPointer s + 1)) as [a|].
  - destruct (redo a (arguments a) (world s)) as [[r|[v|]] w | e w]; try contradiction;
      (eexists; split; [reflexivity|]; cbn; rewrite splice_all; auto).
  - eexists. split; [reflexivity|]. cbn. rewrite splice_all. auto.
Qed.

(** The pointer never drops below [-1], whatever is called and however the
    call ends. *)
Lemma pointer_lower_bound (s : Server) :
  -1 <= undoPointer s ->
  (forall fcn args, -1 <= undoPointer (stateOf (handle MAX_UNDO_LEDGER_LENGTH fcn args s)))
  /\ -1 <= undoPointer (stateOf (undo_method s))
  /\ -1 <= undoPointer (stateOf (redo_method s)).
Proof.
  intros Hp. split; [|split].
  - intros fcn args. unfold handle.
    destruct (fcn args (world s)) as [[r|v] w | e w]; cbn; lia.
  - unfold undo_method, index.
    destruct (Z.ltb_spec (undoPointer s) 0) as [Hneg | Hpos]; [cbn; lia|].
    destruct (undoLedger s !! Z.to_nat (undoPointer s)) as [a|]; [|cbn; lia].
    destruct (undo a) as [f|]; [|cbn; lia].
    destruct (f (world s)); cbn; lia.
  - unfold redo_method, index.
    destruct (Z.ltb_spec (undoPointer s + 1) 0) as [Hneg | Hpos]; [cbn; lia|].
    destruct (undoLedger s !! Z.to_nat (undoPointer s + 1)) as [a|]; [|cbn; lia].
    destruct (redo a (arguments a) (world s)) as [[r|[v|]] w | e w]; cbn; lia.
Qed.

(** C4. When a command that produces an undoable result completes, the
    handler cuts the ledger after the pointer, appends the new action, keeps
    only the last [MAX_UNDO_LEDGER_LENGTH] entries of that, and leaves the
    pointer on the last entry; the command's result is handed on. *)
Theorem handle_undoable_bounds_ledger (fcn : Ledger.UndoableFunction) (args : Args)
    (s : Server) (r : UndoableResult) (w : World) :
  -1 <= undoPointer s ->
  fcn args (world s) = Returned (Undoable r) w ->
  exists s',
    handle MAX_UNDO_LEDGER_LENGTH fcn args s = Returned (Some (result r)) s'
    /\ (let a := mkAction (resultDescription r) args fcn (Some (resultUndo r)) in
        undoLedger s'
          = drop (length (appended s a) - MAX_UNDO_LEDGER_LENGTH) (appended s a)
        /\ length (undoLedger s')
          = Nat.min (length (appended s a)) MAX_UNDO_LEDGER_LENGTH)
    /\ undoPointer s' = Z.of_nat (length (undoLedger s')) - 1
    /\ world s' = w.
Proof.
  intros Hp Hcall. unfold handle. rewrite Hcall.
  eexists. split; [reflexivity|].
  pose proof (recordAction_ledger fcn args r (withWorld s w) Hp) as (Hl & Hptr & Hw).
  unfold appended in *. cbn [withWorld undoLedger undoPointer world] in *.
  split; [split; [exact Hl | rewrite Hl, length_drop; lia] |].
  split; [exact Hptr | exact Hw].
Qed.

(** C5. An exception raised while undoing or redoing is caught: the call
    returns normally, the ledger is empty and the pointer is [-1]. *)
Theorem undo_redo_failure_clears_ledger (s : Server) :
  (undoRaises s ->
   exists s', undo_method s = Returned tt s' /\ undoLedger s' = [] /\ undoPointer s' = -1)
  /\ (redoRaises s ->
      exists s', redo_method s = Returned tt s' /\ undoLedger s' = [] /\ undoPointer s' = -1)
  /\ isThrown (undo_method s) = false
  /\ isThrown (redo_method s) = false.
Proof.
  split; [apply undo_failure|]. split; [apply redo_failure|].
  split; [apply undo_method_returns | apply redo_method_returns].
Qed.

End LedgerFacts.

End LedgerFacts.

Module LedgerExamples.
Import Js Ledger LedgerFacts.
Import LedgerSamples.

Lemma handle_undoable_bounds_ledger_witness :
  (* the action that could be redone is cut off *)
  (exists s', handle 2 bump tt undoneOnce = Returned (Some 7%nat) s'
              /\ description <$> undoLedger s' = ["NewGroup"; "NewPart"]
              /\ undoPointer s' = 1)
  (* the oldest action is evicted *)
  /\ (exists s', handle 2 bump tt full = Returned (Some 7%nat) s'
                 /\ description <$> undoLedger s' = ["MoveGroup"; "NewPart"]
                 /\ undoPointer s' = 1).
Proof.
  split.
  - destruct (handle_undoable_bounds_ledger 2 bump tt undoneOnce
                (mkUndoableResult 7%nat "NewPart" (fun w' => Returned tt (pred w'))) 6%nat)
      as (s' & Hcall & (Hledger & Hlen) & Hptr & _).
    + cbn. lia.
    + reflexivity.
    + exists s'. split; [exact Hcall|]. split; [rewrite Hledger; reflexivity|].
      rewrite Hptr, Hlen. reflexivity.
  - destruct (handle_undoable_bounds_ledger 2 bump tt full
                (mkUndoableResult 7%nat "NewPart" (fun w' => Returned tt (pred w'))) 6%nat)
      as (s' & Hcall & (Hledger & Hlen) & Hptr & _).
    + cbn. lia.
    + reflexivity.
    + exists s'. split; [exact Hcall|]. split; [rewrite Hledger; reflexivity|].
      rewrite Hptr, Hlen. reflexivity.
Defined.

Lemma undo_redo_failure_clears_ledger_witness :
  (exists s', undo_method stuck = Returned tt s' /\ undoLedger s' = [] /\ undoPointer s' = -1)
  /\ (exists s', redo_method stuck = Returned tt s' /\ undoLedger s' = [] /\ undoPointer s' = -1).
Proof.
  destruct (undo_redo_failure_clears_ledger stuck) as (Hundo & Hredo & _).
  split; [apply Hundo | apply Hredo]; vm_compute; reflexivity.
Defined.

End LedgerExamples.

(** ** Play and pause *)

Module PlayoutFacts.
Import Model Playout.

Section PlayoutFacts.

Variable getGroupPlayData : option GroupPreparedPlayData -> Z -> GroupPlayData.

Lemma stopOthers_lookup keep now (m : gmap string PlayingPart) k e :
  stopOthers keep now m !! k = Some e ->
  k <> keep -> stopTime e = Some now.
Proof.
  unfold stopOthers. rewrite map_lookup_imap.
  destruct (m !! k) as [p|]; cbn; [|discriminate].
  destruct (decide (k = keep)) as [->|Hne]; intros [= <-] Hk; [done|reflexivity].
Qed.

(** A map in which every key but one is stopped has at most one active entry. *)
Lemma one_active_at_most (m : gmap string PlayingPart) keep e :
  (forall k v, m !! k = Some v -> k <> keep -> stopTime v <> None) ->
  (size (filter (fun kv : string * PlayingPart => stopTime kv.2 = None) (<[keep := e]> m))
     <= 1)%nat.
Proof.
  intros Hstopped.
  rewrite <- (map_size_singleton (M := gmap string) keep e).
  apply map_subseteq_size, map_subseteq_spec. intros k v Hkv.
  apply map_lookup_filter_Some in Hkv as [Hkv Hactive]. cbn in Hactive.
  destruct (decide (k = keep)) as [->|Hne].
  - rewrite lookup_insert_eq in Hkv. rewrite lookup_singleton_eq. exact Hkv.
  - rewrite lookup_insert_ne in Hkv by done.
    exfalso. exact (Hstopped k v Hkv Hne Hactive).
Qed.

Lemma _playPart_oneAtATime g part now :
  oneAtATime (_playPart g part now) = oneAtATime g.
Proof. unfold _playPart. destruct (part_disabled part); reflexivity. Qed.

Lemma _pausePart_oneAtATime g part t now clock :
  oneAtATime (_pausePart getGroupPlayData g part t now clock) = oneAtATime g.
Proof. unfold _pausePart. destruct (part_disabled part); reflexivity. Qed.

(** Playing a part that is not disabled in a solo group leaves exactly that
    part in [playingParts]. *)
Lemma _playPart_solo g part now :
  oneAtATime g = true -> part_disabled part = false ->
  entries (_playPart g part now) = {[part_id part := mkPlayingPart now None None false]}.
Proof.
  intros Hsolo Hen. unfold _playPart, entries. rewrite Hen, Hsolo. cbn.
  apply insert_empty.
Qed.

Lemma _playPart_keeps_solo g part now :
  oneAtATime g = true -> solo g -> solo (_playPart g part now).
Proof.
  intros Hsolo Hinv. destruct (part_disabled part) eqn:Hdis.
  - unfold _playPart. rewrite Hdis. exact Hinv.
  - unfold solo, active. rewrite _playPart_solo by done.
    rewrite <- insert_empty. apply one_active_at_most.
    intros k v Hk. rewrite lookup_empty in Hk. discriminate.
Qed.

Lemma _pausePart_keeps_solo g part t now clock :
  oneAtATime g = true -> solo g ->
  solo (_pausePart getGroupPlayData g part t now clock).
Proof.
  intros Hsolo Hinv. unfold _pausePart.
  destruct (part_disabled part) eqn:Hdis; [exact Hinv|].
  rewrite Hsolo. unfold solo, active, entries. cbn.
  apply one_active_at_most. intros k v Hk Hne.
  rewrite (stopOthers_lookup _ _ _ _ _ Hk Hne). discriminate.
Qed.

Lemma step_oneAtATime g c : oneAtATime (step getGroupPlayData g c) = oneAtATime g.
Proof.
  destruct c; cbn.
  - apply _playPart_oneAtATime.
  - rewrite _pausePart_oneAtATime. reflexivity.
Qed.

Lemma step_keeps_solo g c :
  oneAtATime g = true -> solo g -> solo (step getGroupPlayData g c).
Proof.
  intros Hsolo Hinv. destruct c; cbn.
  - by apply _playPart_keeps_solo.
  - by apply _pausePart_keeps_solo.
Qed.

(** After a play or pause request for a part that is not disabled, a solo
    group has at most one active entry, whatever it held before. *)
Lemma step_establishes_solo g c :
  oneAtATime g = true ->
  part_disabled (match c with Play p _ => p | Pause p _ _ _ _ => p end) = false ->
  solo (step getGroupPlayData g c).
Proof.
  intros Hsolo Hen. destruct c as [part now | part t now clock prepared]; cbn in *.
  - unfold solo, active. rewrite _playPart_solo by done.
    rewrite <- insert_empty. apply one_active_at_most.
    intros k v Hk. rewrite lookup_empty in Hk. discriminate.
  - unfold _pausePart. rewrite Hen. cbn. rewrite Hsolo.
    unfold solo, active, entries. cbn.
    apply one_active_at_most. intros k v Hk Hne.
    rewrite (stopOthers_lookup _ _ _ _ _ Hk Hne). discriminate.
Qed.

Lemma run_keeps_solo (g : Group) (cs : list Command) :
  oneAtATime g = true ->
  solo g ->
  solo (run getGroupPlayData g cs).
Proof.
  unfold run. revert g. induction cs as [|c cs IH]; intros g Hsolo Hinv; [exact Hinv|].
  cbn. apply IH.
  - rewrite step_oneAtATime. exact Hsolo.
  - by apply step_keeps_solo.
Qed.

Lemma run_establishes_solo (g : Group) (cs : list Command) :
  oneAtATime g = true ->
  Exists (fun c => part_disabled (requested c) = false) cs ->
  solo (run getGroupPlayData g cs).
Proof.
  intros Hsolo Hex. revert g Hsolo.
  induction Hex as [c cs Hen | c cs Hex IH]; intros g Hsolo; unfold run; cbn [foldl].
  - apply run_keeps_solo.
    + rewrite step_oneAtATime. exact Hsolo.
    + apply step_establishes_solo; [exact Hsolo|]. destruct c; exact Hen.
  - apply IH. rewrite step_oneAtATime. exact Hsolo.
Qed.

(** What [_pausePart] leaves in [playingParts] of a solo group: the entry of
    the part, not stopped, and every other entry stopped at [now]. *)
Lemma _pausePart_entries g part t now clock :
  oneAtATime g = true -> part_disabled part = false ->
  (exists e, entries (_pausePart getGroupPlayData g part t now clock) !! part_id part = Some e
             /\ stopTime e = None)
  /\ (forall k, k <> part_id part ->
        entries (_pausePart getGroupPlayData g part t now clock) !! k
        = stoppedAt now <$> entries g !! k).
Proof.
  intros Hsolo Hen. unfold _pausePart. rewrite Hen, Hsolo. unfold entries. cbn. split.
  - rewrite lookup_insert_eq. eexists. split; [reflexivity|].
    destruct (playheads _ !! part_id part) as [ph|]; [destruct (partPauseTime ph)|];
      reflexivity.
  - intros k Hk. rewrite lookup_insert_ne by congruence.
    unfold stopOthers. rewrite map_lookup_imap.
    destruct (playingParts g) as [m|]; cbn.
    + destruct (m !! k) as [e|]; cbn; [|reflexivity].
      destruct (decide (k = part_id part)); [contradiction | reflexivity].
    + rewrite lookup_empty. reflexivity.
Qed.

(** C1 (as amended). In a group with [oneAtATime]: a play request for a part
    that is not disabled leaves the entry of that part as the only entry of
    [playingParts]; a pause request for a part that is not disabled leaves
    the entry of that part without a stop time and stops every other entry
    at [now]; a request for a disabled part leaves [playingParts] as it is.
    So any sequence of play and pause requests leaves at most one entry
    without a stop time, when the group had at most one to begin with or
    one of the requests is for a part that is not disabled. *)
Theorem solo_semantics (g : Group) :
  oneAtATime g = true ->
  (forall part now, part_disabled part = false ->
     entries (step getGroupPlayData g (Play part now))
     = {[part_id part := mkPlayingPart now None None false]})
  /\ (forall part t now clock prepared, part_disabled part = false ->
        (exists e,
            entries (step getGroupPlayData g (Pause part t now clock prepared)) !! part_id part
            = Some e
            /\ stopTime e = None)
        /\ (forall k, k <> part_id part ->
              entries (step getGroupPlayData g (Pause part t now clock prepared)) !! k
              = stoppedAt now <$> entries g !! k))
  /\ (forall c, part_disabled (requested c) = true ->
        entries (step getGroupPlayData g c) = entries g)
  /\ (forall cs,
        solo g \/ Exists (fun c => part_disabled (requested c) = false) cs ->
        solo (run getGroupPlayData g cs)).
Proof.
  intros Hsolo. split; [|split; [|split]].
  - intros part now Hen. cbn [step]. by apply _playPart_solo.
  - intros part t now clock prepared Hen. cbn [step].
    exact (_pausePart_entries (setPreparedPlayData g prepared) part t now clock Hsolo Hen).
  - intros [part now | part t now clock prepared] Hdis; cbn [step requested] in *.
    + unfold _playPart. rewrite Hdis. reflexivity.
    + unfold _pausePart. rewrite Hdis. reflexivity.
  - intros cs [Hinv | Hex].
    + by apply run_keeps_solo.
    + by apply run_establishes_solo.
Qed.

Lemma entry_after_play g part now :
  part_disabled part = false ->
  entries (_playPart g part now) !! part_id part = Some (mkPlayingPart now None None false).
Proof.
  intros Hen. unfold _playPart, entries. rewrite Hen. cbn. apply lookup_insert_eq.
Qed.

(** The entry [_pausePart] writes when the playhead is resolved and no
    explicit offset is given. *)
Lemma entry_after_pause g part now clock ph :
  part_disabled part = false ->
  playheads (getGroupPlayData (preparedPlayData g) clock) !! part_id part = Some ph ->
  entries (_pausePart getGroupPlayData g part None now clock) !! part_id part
  = Some (match partPauseTime ph with
          | None => mkPlayingPart (partStartTime ph) (Some (now - partStartTime ph)) None false
          | Some frozen => mkPlayingPart (now - frozen) None None false
          end).
Proof.
  intros Hen Hph. unfold _pausePart, entries. rewrite Hen. cbn. rewrite Hph.
  apply lookup_insert_eq.
Qed.

(** C2. Play at [t0], pause at [t1] with no explicit offset, pause again at
    [t2]: with a playhead that is resolved at both pauses, the entry ends with
    no pause time and start [t2 - (t1 - t0)], so that the elapsed time at any
    [t] is [t1 - t0] plus the time since the resume. The order of the three
    times plays no part. *)
Theorem pause_resume_round_trip (g : Group) (part : Part) (t0 t1 t2 c1 c2 : Z)
    (p1 p2 : option GroupPreparedPlayData) :
  part_disabled part = false ->
  resolved getGroupPlayData (run getGroupPlayData g [Play part t0]) p1 c1 (part_id part) ->
  resolved getGroupPlayData
    (run getGroupPlayData g [Play part t0; Pause part None t1 c1 p1]) p2 c2 (part_id part) ->
  let final := run getGroupPlayData g
                 [Play part t0; Pause part None t1 c1 p1; Pause part None t2 c2 p2] in
  entries final !! part_id part = Some (mkPlayingPart (t2 - (t1 - t0)) None None false)
  /\ forall t e, entries final !! part_id part = Some e ->
       t - startTime e = (t1 - t0) + (t - t2).
Proof.
  intros Hen (ph1 & e1 & Hph1 & He1 & Hs1 & Hp1) (ph2 & e2 & Hph2 & He2 & Hs2 & Hp2) final.
  assert (Hfinal : entries final !! part_id part
                   = Some (mkPlayingPart (t2 - (t1 - t0)) None None false)).
  { subst final. cbn in *.
    rewrite entry_after_play in He1 by exact Hen. injection He1 as <-. cbn in Hs1, Hp1.
    rewrite (entry_after_pause _ _ _ _ ph1) in He2 by (exact Hen || exact Hph1).
    rewrite Hp1 in He2. injection He2 as <-. cbn in Hs2, Hp2.
    rewrite (entry_after_pause _ _ _ _ ph2) by (exact Hen || exact Hph2).
    rewrite Hp2, Hs1. reflexivity. }
  split; [exact Hfinal|].
  intros t e He. rewrite Hfinal in He. injection He as <-. cbn. lia.
Qed.

End PlayoutFacts.

End PlayoutFacts.

Module PlayoutExamples.
Import Model Playout PlayoutFacts.
Import PlayoutSamples.

(** C1, counterexample: requests for a disabled part leave both entries of
    a solo group without a stop time. *)
Lemma disabled_requests_keep_two_active :
  oneAtATime crowded = true
  /\ size (active (run sectionResolver crowded [Play partOff 9; Pause partOff None 12 12 None]))
     = 2%nat
  /\ ~ solo (run sectionResolver crowded [Play partOff 9; Pause partOff None 12 12 None]).
Proof.
  assert (Hsize : size (active (run sectionResolver crowded
                                  [Play partOff 9; Pause partOff None 12 12 None])) = 2%nat)
    by (vm_compute; reflexivity).
  split; [reflexivity|]. split; [exact Hsize|].
  unfold solo. rewrite Hsize. lia.
Qed.

Lemma solo_semantics_witness :
  entries (step sectionResolver crowded (Play partA 9))
  = {["A" := mkPlayingPart 9 None None false]}
  /\ entries (step sectionResolver crowded (Pause partB None 12 12 None)) !! "A"
     = Some (mkPlayingPart 0 None (Some 12) false)
  /\ solo (run sectionResolver crowded
             [Play partOff 9; Pause partB None 12 12 None; Play partA 20]).
Proof.
  destruct (solo_semantics sectionResolver crowded eq_refl) as (Hplay & Hpause & _ & Hrun).
  split; [exact (Hplay partA 9 eq_refl)|].
  split.
  - destruct (Hpause partB None 12 12 None eq_refl) as [_ Hothers].
    exact (Hothers "A" ltac:(discriminate)).
  - apply Hrun. right. apply Exists_cons_tl, Exists_cons_hd. reflexivity.
Defined.

Lemma pause_resume_round_trip_witness :
  entries (run sectionResolver soloGroup
             [Play partA 0; Pause partA None 10 10 playingA; Pause partA None 25 25 pausedA])
    !! "A"
  = Some (mkPlayingPart 15 None None false).
Proof.
  refine (proj1 (pause_resume_round_trip sectionResolver soloGroup partA 0 10 25 10 25
                   playingA pausedA _ _ _)).
  - reflexivity.
  - exists (mkPlayhead 0 None false), (mkPlayingPart 0 None None false).
    split; [vm_compute; reflexivity|]. split; [vm_compute; reflexivity|].
    split; reflexivity.
  - exists (mkPlayhead 0 (Some 10) false), (mkPlayingPart 0 (Some 10) None false).
    split; [vm_compute; reflexivity|]. split; [vm_compute; reflexivity|].
    split; reflexivity.
Defined.

End PlayoutExamples.

(** ** The session handler *)

Module SessionFacts.
Import Js Session.

Section SessionFacts.
Context {ResourceAny BridgeStatus : Type}.
Abbreviation SessionHandler := (Session.SessionHandler ResourceAny BridgeStatus).
Abbreviation Mutation := (Session.Mutation ResourceAny BridgeStatus).
Abbreviation Event := (Session.Event ResourceAny BridgeStatus).

Lemma triggerUpdate_effects (s : SessionHandler) :
  emittedEvents (triggerUpdate s) = emittedEvents s
  /\ emitTimeout (triggerUpdate s) = true
  /\ timersSet (triggerUpdate s) = (if emitTimeout s then timersSet s else S (timersSet s))
  /\ resources (triggerUpdate s) = resources s
  /\ bridgeStatuses (triggerUpdate s) = bridgeStatuses s
  /\ peripherals (triggerUpdate s) = peripherals s
  /\ allTriggers (triggerUpdate s) = allTriggers s
  /\ activeTriggers (triggerUpdate s) = activeTriggers s.
Proof.
  unfold triggerUpdate. destruct (emitTimeout s) eqn:E; cbn; rewrite ?E; repeat split.
Qed.

Lemma triggerUpdate_marks (s : SessionHandler) :
  resourcesHasChanged (triggerUpdate s) = resourcesHasChanged s
  /\ bridgeStatusesHasChanged (triggerUpdate s) = bridgeStatusesHasChanged s
  /\ peripheralsHasChanged (triggerUpdate s) = peripheralsHasChanged s
  /\ allTriggersHasChanged (triggerUpdate s) = allTriggersHasChanged s
  /\ activeTriggersHasChanged (triggerUpdate s) = activeTriggersHasChanged s
  /\ emitEverything (triggerUpdate s) = emitEverything s.
Proof. unfold triggerUpdate. destruct (emitTimeout s); repeat split. Qed.

Lemma mutate_effects (s : SessionHandler) (m : Mutation) :
  emittedEvents (mutate s m) = emittedEvents s
  /\ emitTimeout (mutate s m) = true
  /\ timersSet (mutate s m) = (if emitTimeout s then timersSet s else S (timersSet s)).
Proof.
  destruct m; cbn [mutate];
    unfold updateResource, updateBridgeStatus, updatePeripheralStatus,
      updatePeripheralTriggerStatus;
    repeat case_match;
    match goal with
    | |- context [triggerUpdate ?x] =>
      destruct (triggerUpdate_effects x) as (He & Ht & Hn & _); rewrite He, Ht, Hn
    end; cbn; auto.
Qed.

Lemma mutate_observed (s : SessionHandler) (m : Mutation) : observed m s (mutate s m).
Proof.
  destruct m as [id r | id b | b d n c now | b d i down]; cbn [mutate observed].
  - unfold getResource, updateResource, readProperty.
    match goal with |- context [triggerUpdate ?x] =>
      destruct (triggerUpdate_effects x) as (_ & _ & _ & -> & _) end. cbn.
    destruct r; [by rewrite lookup_insert_eq | by rewrite lookup_delete_eq].
  - unfold getBridgeStatus, updateBridgeStatus, readProperty.
    destruct b as [b|].
    + match goal with |- context [triggerUpdate ?x] =>
        destruct (triggerUpdate_effects x) as (_ & _ & _ & _ & -> & _) end. cbn.
      by rewrite lookup_insert_eq.
    + destruct (truthy (readOwn (bridgeStatuses s !! id) id)) eqn:E;
        match goal with |- context [triggerUpdate ?x] =>
          destruct (triggerUpdate_effects x) as (_ & _ & _ & _ & -> & _) end; cbn.
      * by rewrite lookup_delete_eq.
      * destruct (bridgeStatuses s !! id); [discriminate E | reflexivity].
  - unfold getPeripheralStatus, updatePeripheralStatus.
    case_decide as Heq;
      match goal with |- context [triggerUpdate ?x] =>
        destruct (triggerUpdate_effects x) as (_ & _ & _ & _ & _ & -> & _) end; cbn.
    + symmetry. exact Heq.
    + apply lookup_insert_eq.
  - unfold updatePeripheralTriggerStatus.
    set (key := b +:+ "-" +:+ d +:+ "-" +:+ i).
    destruct (allTriggers s !! key) eqn:Eall;
      destruct down; destruct (activeTriggers s !! key) eqn:Eact;
      match goal with |- context [triggerUpdate ?x] =>
        destruct (triggerUpdate_effects x) as (_ & _ & _ & _ & _ & _ & -> & ->) end; cbn;
      rewrite ?lookup_insert_eq, ?lookup_delete_eq, ?Eall, ?Eact; split; eauto.
Qed.

Lemma mutate_marked (s : SessionHandler) (m : Mutation) : marked m s (mutate s m).
Proof.
  destruct m as [id r | id b | b d n c now | b d i down]; cbn [mutate marked].
  - unfold updateResource.
    match goal with |- context [triggerUpdate ?x] =>
      destruct (triggerUpdate_marks x) as (-> & _) end. cbn. set_solver.
  - unfold getBridgeStatus, updateBridgeStatus.
    destruct b as [b|];
      [|destruct (truthy (readProperty (bridgeStatuses s) id)) eqn:E].
    + match goal with |- context [triggerUpdate ?x] =>
        destruct (triggerUpdate_marks x) as (_ & -> & _) end. cbn.
      intros _. apply elem_of_union. left. by apply elem_of_singleton.
    + match goal with |- context [triggerUpdate ?x] =>
        destruct (triggerUpdate_marks x) as (_ & -> & _) end. cbn.
      intros _. apply elem_of_union. left. by apply elem_of_singleton.
    + intros [[? [=]]|[=]].
  - unfold getPeripheralStatus, updatePeripheralStatus.
    case_decide as Heq;
      match goal with |- context [triggerUpdate ?x] =>
        destruct (triggerUpdate_effects x) as (_ & _ & _ & _ & _ & -> & _);
        destruct (triggerUpdate_marks x) as (_ & _ & -> & _) end; cbn; [done | set_solver].
  - unfold updatePeripheralTriggerStatus.
    set (key := b +:+ "-" +:+ d +:+ "-" +:+ i).
    destruct (allTriggers s !! key) eqn:Eall;
      destruct down; destruct (activeTriggers s !! key) eqn:Eact;
      match goal with |- context [triggerUpdate ?x] =>
        destruct (triggerUpdate_effects x) as (_ & _ & _ & _ & _ & _ & _ & ->);
        destruct (triggerUpdate_marks x) as (_ & _ & _ & -> & -> & _) end; cbn;
      (split; [try done; intros _; set_solver | try done]).
Qed.

Lemma mutate_stillMarked (s : SessionHandler) (m : Mutation) : stillMarked s (mutate s m).
Proof.
  unfold stillMarked.
  destruct m as [id r | id b | b d n c now | b d i down]; cbn [mutate];
    unfold updateResource, updateBridgeStatus, updatePeripheralStatus,
      updatePeripheralTriggerStatus;
    repeat case_match;
    match goal with |- context [triggerUpdate ?x] =>
      destruct (triggerUpdate_marks x) as (-> & -> & -> & -> & -> & _) end; cbn;
    repeat split; try set_solver; try congruence.
Qed.

Lemma stillMarked_trans (s1 s2 s3 : SessionHandler) :
  stillMarked s1 s2 -> stillMarked s2 s3 -> stillMarked s1 s3.
Proof.
  intros (A1 & A2 & A3 & A4 & A5) (B1 & B2 & B3 & B4 & B5).
  split; [set_solver|]. split; [set_solver|]. split; [set_solver|]. split; [set_solver|].
  auto.
Qed.

Lemma mutations_effects (ms : list Mutation) (s : SessionHandler) :
  emitTimeout s = true ->
  emittedEvents (foldl mutate s ms) = emittedEvents s
  /\ emitTimeout (foldl mutate s ms) = true
  /\ timersSet (foldl mutate s ms) = timersSet s.
Proof.
  revert s. induction ms as [|m ms IH]; intros s Hs; cbn; [auto|].
  destruct (mutate_effects s m) as (He & Ht & Hn). rewrite Hs in Hn.
  destruct (IH (mutate s m) Ht) as (He' & Ht' & Hn').
  rewrite He', Ht', Hn'. auto.
Qed.

Lemma mutations_stillMarked (ms : list Mutation) (s : SessionHandler) :
  stillMarked s (foldl mutate s ms).
Proof.
  revert s. induction ms as [|m ms IH]; intros s; cbn.
  - repeat split; done.
  - eapply stillMarked_trans; [apply mutate_stillMarked | apply IH].
Qed.

Lemma keyed_NoDup (kind : nat) (f : string -> Event) (X : gset string) :
  (forall id, eventKey (f id) = (kind, id)) ->
  eventKey <$> (f <$> elements X) = (fun id => (kind, id)) <$> elements X
  /\ NoDup ((fun id : string => (kind, id)) <$> elements X).
Proof.
  intros Hk. split.
  - rewrite <- list_fmap_compose. apply list_fmap_ext. intros _ id _. apply Hk.
  - apply NoDup_fmap_2; [intros a b [=]; done | apply NoDup_elements].
Qed.

Lemma passEvents_NoDup (s : SessionHandler) : NoDup (eventKey <$> passEvents s).
Proof.
  unfold passEvents. cbn zeta.
  rewrite !fmap_app.
  set (rCh := if emitEverything s then _ else _).
  set (bCh := if emitEverything s then _ else bridgeStatusesHasChanged s).
  set (pCh := if emitEverything s then _ else peripheralsHasChanged s).
  set (aCh := if emitEverything s then true else _).
  destruct (keyed_NoDup 0 (fun id => EvResource id (readProperty (resources s) id)) rCh)
    as [-> N0]; [done|].
  destruct (keyed_NoDup 1 (fun id => EvBridgeStatus id (readProperty (bridgeStatuses s) id)) bCh)
    as [-> N1]; [done|].
  destruct (keyed_NoDup 2 (fun id => EvPeripheral id (peripherals s !! id)) pCh) as [-> N2]; [done|].
  destruct (keyed_NoDup 3 (fun id => EvAllTrigger id (allTriggers s !! id)) (allTriggersHasChanged s)) as [-> N3]; [done|].
  set (last := if aCh then [EvActiveTriggers (snd <$> map_to_list (activeTriggers s)) : Event]
              else []).
  assert (N4 : NoDup (eventKey <$> last)).
  { subst last. destruct aCh; cbn; [apply NoDup_singleton | apply NoDup_nil_2]. }
  assert (K4 : forall x, x ∈ eventKey <$> last -> x.1 = 4%nat).
  { intros x Hx. subst last. destruct aCh; cbn in Hx; [|by apply elem_of_nil in Hx].
    apply list_elem_of_singleton in Hx. by subst. }
  assert (K : forall (k : nat) (X : gset string) x,
             x ∈ (fun id : string => (k, id)) <$> elements X -> x.1 = k).
  { intros k X x Hx. apply list_elem_of_fmap in Hx as (id & -> & _). reflexivity. }
  repeat (apply NoDup_app; split; [assumption | split; [| try assumption]]).
  all: intros x Hx Hy; apply K in Hx;
    repeat (apply elem_of_app in Hy as [Hy | Hy]);
    first [apply K in Hy | apply K4 in Hy]; congruence.
Qed.

Lemma passEvents_reports (s : SessionHandler) : reports s (passEvents s).
Proof.
  unfold reports, passEvents, getResource, getBridgeStatus. cbn zeta.
  repeat split.
  - intros id Hid. apply elem_of_app. left. apply list_elem_of_fmap.
    exists id. split; [reflexivity|]. apply elem_of_elements.
    destruct (emitEverything s); set_solver.
  - intros id Hid. apply elem_of_app. right. apply elem_of_app. left.
    apply list_elem_of_fmap. exists id. split; [reflexivity|]. apply elem_of_elements.
    destruct (emitEverything s); set_solver.
  - intros id Hid. do 2 (apply elem_of_app; right). apply elem_of_app. left.
    apply list_elem_of_fmap. exists id. split; [reflexivity|]. apply elem_of_elements.
    destruct (emitEverything s); set_solver.
  - intros id Hid. do 3 (apply elem_of_app; right). apply elem_of_app. left.
    apply list_elem_of_fmap. exists id. split; [reflexivity|]. by apply elem_of_elements.
  - intros Hact. do 4 (apply elem_of_app; right). rewrite Hact.
    destruct (emitEverything s); apply list_elem_of_here.
Qed.

(** Debounced emission. A mutator changes the state at once (the getter
    called next reads the entry just written; after a removal it reads what
    is left under the id, see [observed]), marks the change and emits
    nothing; however many mutations follow before the timer fires, one timer
    is armed for all of them, and when it fires one pass emits, for
    everything marked, one event per kind and id with what is read under the
    id at that time. *)
Theorem debounced_notification (s : SessionHandler) (m : Mutation) (ms : list Mutation) :
  let s1 := mutate s m in
  let sn := foldl mutate s1 ms in
  observed m s s1
  /\ marked m s s1
  /\ stillMarked s1 sn
  /\ emittedEvents sn = emittedEvents s
  /\ emitTimeout sn = true
  /\ timersSet sn = (if emitTimeout s then timersSet s else S (timersSet s))
  /\ emitTimeout (timerFires sn) = false
  /\ emittedEvents (timerFires sn) = emittedEvents s ++ passEvents sn
  /\ reports sn (passEvents sn)
  /\ NoDup (eventKey <$> passEvents sn).
Proof.
  intros s1 sn.
  destruct (mutate_effects s m) as (He & Ht & Hn). fold s1 in He, Ht, Hn.
  destruct (mutations_effects ms s1 Ht) as (He' & Ht' & Hn'). fold sn in He', Ht', Hn'.
  split; [apply mutate_observed|]. split; [apply mutate_marked|].
  split; [apply mutations_stillMarked|].
  split; [congruence|]. split; [exact Ht'|]. split; [congruence|].
  split; [reflexivity|].
  split; [unfold timerFires, emitChanges; cbn; unfold passEvents; cbn; congruence|].
  split; [apply passEvents_reports | apply passEvents_NoDup].
Qed.

End SessionFacts.

End SessionFacts.

Module SessionExamples.
Import Js Session SessionSamples.


End SessionExamples.

(** ** The timeline materializer *)

Module TimelineFacts.
Import Model Timeline.

Section TimelineFacts.
Variable modify : TimelineObject -> PreparedPart -> TimelineObj -> option Z -> TimelineObject.

Lemma sectionParts_length group section custom ps idCount :
  length (sectionParts modify group section custom ps idCount).1 = length ps.
Proof.
  revert idCount. induction ps as [|p ps IH]; intros idCount; cbn [sectionParts];
    [reflexivity|].
  destruct (makeUniqueId _ _) as [objId c1].
  destruct (changeTimelineId _ _) as [o' c2].
  specialize (IH c2). destruct (sectionParts _ _ _ _ ps c2) as [rest c3].
  cbn in *. by rewrite IH.
Qed.

Lemma sectionToTimelineObj_heads group section id layer custom idCount :
  headOf <$> (sectionToTimelineObj modify group section id layer custom idCount).1
  = if (0 <? length (sec_parts section))%nat
    then [("section_" +:+ id, startingAt (sec_startTime section))]
    else [].
Proof.
  unfold sectionToTimelineObj.
  pose proof (sectionParts_length group section custom (sec_parts section) idCount) as Hlen.
  destruct (sectionParts _ _ _ _ _ _) as [objs c]. cbn [fst snd] in *. rewrite Hlen.
  destruct (0 <? length (sec_parts section))%nat; reflexivity.
Qed.

Lemma singleLoop_spec group custom sections : forall i st,
  let st' := singleLoop modify group custom i sections st in
  firstStart st' = minStart (firstStart st) sections
  /\ headOf <$> children st'
     = (headOf <$> children st)
       ++ ((fun h => (h.1, startingAt h.2)) <$> sectionHeads (group_id group) i sections).
Proof.
  induction sections as [|s rest IH]; intros i st; cbn zeta; cbn [singleLoop sectionHeads].
  - split; [reflexivity|]. cbn. by rewrite app_nil_r.
  - pose proof (sectionToTimelineObj_heads group s
                  (group_id group +:+ "_" +:+ natToString i) (group_id group) custom
                  (loopIdCount st)) as Hh.
    destruct (sectionToTimelineObj _ _ _ _ _ _ _) as [objs c]. cbn [fst] in Hh.
    match goal with
    | |- context [singleLoop _ _ _ _ _ ?st2] => destruct (IH (S i) st2) as [IH1 IH2]
    end.
    split; [exact IH1|].
    rewrite IH2. cbn [children]. rewrite !fmap_app, Hh, <- app_assoc. f_equal.
    f_equal. destruct (0 <? length (sec_parts s))%nat; reflexivity.
Qed.

Lemma minStart_fin sections : forall a,
  exists z, minStart (Fin a) sections = Fin z /\ z <= a
            /\ (forall s, s ∈ sections -> z <= sec_startTime s)
            /\ (z = a \/ exists s, s ∈ sections /\ sec_startTime s = z).
Proof.
  induction sections as [|s rest IH]; intros a; cbn.
  - exists a. split; [reflexivity|]. split; [lia|]. split; [|by left].
    intros s Hs. by apply elem_of_nil in Hs.
  - destruct (IH (Z.min (sec_startTime s) a)) as (z & Hz & Hle & Hall & Hex).
    exists z. split; [exact Hz|]. split; [lia|]. split.
    + intros s' Hs'. apply elem_of_cons in Hs' as [->|Hs']; [lia | by apply Hall].
    + destruct Hex as [->|(s' & Hs' & Hst)].
      * destruct (Z.min_spec (sec_startTime s) a) as [[_ ->]|[_ ->]]; [|by left].
        right. exists s. split; [apply list_elem_of_here | reflexivity].
      * right. exists s'. split; [by apply list_elem_of_further | exact Hst].
Qed.

Lemma minStart_attained s rest :
  exists z, minStart PosInf (s :: rest) = Fin z
            /\ (forall s', s' ∈ s :: rest -> z <= sec_startTime s')
            /\ (exists s', s' ∈ s :: rest /\ sec_startTime s' = z).
Proof.
  cbn. destruct (minStart_fin rest (sec_startTime s)) as (z & Hz & Hle & Hall & Hex).
  exists z. split; [exact Hz|]. split.
  - intros s' Hs'. apply elem_of_cons in Hs' as [->|Hs']; [lia | by apply Hall].
  - destruct Hex as [->|(s' & Hs' & Hst)].
    + exists s. split; [apply list_elem_of_here | reflexivity].
    + exists s'. split; [by apply list_elem_of_further | exact Hst].
Qed.

Lemma rebase_heads (first : Z) (objs : list TimelineObject) (hs : list (string * Z)) :
  headOf <$> objs = (fun h => (h.1, startingAt h.2)) <$> hs ->
  headOf <$> (rebaseObject (Fin first) <$> objs)
  = (fun h => (h.1, startingAt (h.2 - first))) <$> hs.
Proof.
  revert hs. induction objs as [|o objs IH]; intros [|h hs]; cbn; try discriminate; [done|].
  intros [= Hid Hen Hrest]. rewrite (IH hs Hrest).
  destruct o as [id en layer content isGroup ch kf]. cbn in *. subst. reflexivity.
Qed.

Lemma rebase_keeps_children (first : Num) (objs : list TimelineObject) :
  obj_children <$> (rebaseObject first <$> objs) = obj_children <$> objs.
Proof.
  rewrite <- list_fmap_compose. apply list_fmap_ext. intros _ [id en l c g ch kf] _. reflexivity.
Qed.

(** C8 (as amended). When ['single'] prepared data produces a timeline, the
    group's wrapper starts at the smallest section start [first]; the objects
    directly under the wrapper are the section objects, one per section that
    holds a part, each starting at its section's start minus [first] and with
    no end; everything below them is as [sectionToTimelineObj] built it. *)
Theorem single_wrapper_rebased (group : Group) (sections : list PreparedSection)
    (custom : option CustomPartContent) (wrapper : TimelineObject) :
  getTimelineForGroup modify group (Some (PreparedSingle sections)) custom = Some [wrapper] ->
  exists first : Z,
    (forall s, s ∈ sections -> first <= sec_startTime s)
    /\ (exists s, s ∈ sections /\ sec_startTime s = first)
    /\ (exists e, obj_enable wrapper = [mkEnable (Some (ENum (Fin first))) e None None None])
    /\ headOf <$> obj_children wrapper
       = (fun h => (h.1, startingAt (h.2 - first))) <$> sectionHeads (group_id group) 0 sections
    /\ obj_children <$> obj_children wrapper
       = obj_children <$>
           children (singleLoop modify group custom 0 sections (mkSingleLoop PosInf (Fin 0) [] ∅)).
Proof.
  destruct sections as [|s rest]; [cbn; discriminate|].
  unfold getTimelineForGroup.
  destruct (singleLoop_spec group custom (s :: rest) 0 (mkSingleLoop PosInf (Fin 0) [] ∅))
    as [Hfirst Hheads].
  cbn [firstStart children fmap list_fmap app] in Hfirst, Hheads.
  set (st := singleLoop modify group custom 0 (s :: rest) (mkSingleLoop PosInf (Fin 0) [] ∅)) in *.
  destruct (0 <? length (children st))%nat eqn:Hlen; [|discriminate].
  intros [= <-].
  destruct (minStart_attained s rest) as (z & Hz & Hall & Hex).
  rewrite Hz in Hfirst.
  exists z. split; [exact Hall|]. split; [exact Hex|].
  cbn [obj_enable obj_children]. rewrite Hfirst.
  split; [eexists; reflexivity|]. split.
  - apply rebase_heads. exact Hheads.
  - apply rebase_keeps_children.
Qed.
End TimelineFacts.

End TimelineFacts.

Module TimelineExamples.
Import Model Timeline TimelineFacts.
Import TimelineSamples.

(** C8, counterexample. The section starts at 100, so [firstStart] is 100;
    the leaf of the emitted tree is the clip, whose enable starts at 5 before
    and after the rebasing loop: [firstStart] is not subtracted from it. *)
Lemma leaf_enable_not_rebased :
  firstStart lateBuilt = Fin 100
  /\ leafStarts (children lateBuilt) = [Some (ENum (Fin 5))]
  /\ leafStarts lateEmitted = [Some (ENum (Fin 5))]
  /\ leafStarts lateEmitted <> (rebaseExpr (firstStart lateBuilt) <$> leafStarts (children lateBuilt)).
Proof.
  split; [vm_compute; reflexivity|]. split; [vm_compute; reflexivity|].
  split; [vm_compute; reflexivity|]. vm_compute. discriminate.
Qed.

Lemma single_wrapper_rebased_witness :
  exists first : Z,
    (exists s, s ∈ [lateSection] /\ sec_startTime s = first)
    /\ headOf <$> obj_children lateWrapper
       = (fun h => (h.1, startingAt (h.2 - first))) <$> sectionHeads "G" 0 [lateSection].
Proof.
  destruct (single_wrapper_rebased keepClone showGroup [lateSection] None lateWrapper)
    as (first & _ & Hex & _ & Hheads & _).
  - vm_compute. reflexivity.
  - exists first. split; [exact Hex | exact Hheads].
Defined.

(** C3, the failing input. The part [P] holds a clip with a keyframe [fade]
    and a logo that starts at [#fade.start]; it is played twice. The second
    expansion renames the keyframe to [fade_1], but its logo still starts at
    [#fade.start]: the reference names the keyframe of the first expansion. *)
Theorem second_expansion_keeps_stale_keyframe_reference :
  objectIds <$> expansions loopTimeline
    = [["P_0"; "clip"; "fade"; "logo"]; ["P_1"; "clip_1"; "fade_1"; "logo_1"]]
  /\ (fun o => en_start <$> obj_enable o) <$> findInTimeline "logo_1" loopTimeline
     = Some [Some (EStr "#fade.start")].
Proof. split; vm_compute; reflexivity. Qed.

(** With the ids [a] and [a_1] in one part, the second expansion's [a]
    becomes [a_1], the id the first expansion already holds. *)
Lemma overlapping_ids_collide :
  objectIds <$> expansions overlapTimeline
    = [["P_0"; "a"; "a_1"]; ["P_1"; "a_1"; "a_1_1"]].
Proof. vm_compute. reflexivity. Qed.

End TimelineExamples.

(** ** The edit commands *)

Module CommandFacts.
Import Js Model Commands LockGuards JsFacts.

Section CommandFacts.

Variable updateTimeline : Group -> option GroupPreparedPlayData.
Variable updateGroupPlayingParts : Group -> Group.
Variable postProcessPart : Part -> Part.
Variable getPositionFromTarget : MoveTarget -> list string -> Z.
Variable shortID : nat -> string.
Variable getDefaultGroup : Group.
Variable getDefaultPart : Part.
Variable firstKey : gmap string PlayingPart -> option string.
Context {GroupPatch : Type}.
Variable has : GroupPatch -> string -> bool.
Variable deepExtend : Group -> GroupPatch -> Group.
Context {ResourceAny : Type}.
Variable addResourcesToTimeline :
  string -> string -> string -> list ResourceAny -> Cmd (option UndoFunction).

(** What the commands of [LockGuards] do once they are past their guard. *)
Context {Project TimelineObjChange : Type}.
Variable getProject : World -> Project.
Variable findTimelineObjInRundown : Rundown -> string -> option (Group * Part * TimelineObj).
Variable deletePartUnlocked :
  string -> string -> string -> Rundown -> Group -> Part -> Cmd (option UndoableResult).
Variable deleteGroupUnlocked :
  string -> string -> Rundown -> Group -> Cmd (option UndoableResult).
Variable updateTimelineObjUnlocked :
  string -> string -> string -> string -> TimelineObjChange ->
  Rundown -> Group -> Part -> Cmd (option UndoableResult).
Variable deleteTimelineObjUnlocked :
  string -> string -> Rundown -> Group -> Part -> TimelineObj -> Cmd (option UndoableResult).
Variable insertTimelineObjsUnlocked :
  string -> string -> string -> list TimelineObj -> option MoveTarget -> Project ->
  Rundown -> Group -> Part -> Cmd (option UndoableResult).
Variable moveTimelineObjToNewLayerUnlocked :
  string -> string -> string -> string -> Rundown -> Group -> Part ->
  Cmd (option UndoableResult).
Variable addResourcesToTimelineUnlocked :
  string -> string -> string -> option string -> list (string + ResourceAny) ->
  Rundown -> Group -> Part -> Cmd (option UndoableResult).

Abbreviation GroupToInsert := (GroupToInsert (ResourceAny := ResourceAny)).
Abbreviation PartToInsert := (PartToInsert (ResourceAny := ResourceAny)).

Lemma world_eta (w : World) : setWorldRundowns w (rundowns w) = w.
Proof. by destruct w. Qed.

Lemma changeRundown_same rundownId r w :
  rundowns w !! rundownId = Some r ->
  changeRundown rundownId (fun _ => r) w = w.
Proof.
  intros Hr. unfold changeRundown. rewrite alter_id; [apply world_eta|].
  intros x Hx. congruence.
Qed.

Lemma find_existsb {A} (f : A -> bool) (l : list A) :
  existsb f l = true <-> exists x, find f l = Some x.
Proof.
  induction l as [|a l IH]; cbn.
  - split; [discriminate | intros [x [=]]].
  - destruct (f a); [split; eauto|]. cbn. exact IH.
Qed.

Lemma existsb_mono {A} (f : A -> bool) (l l' : list A) :
  (forall x, x ∈ l -> x ∈ l') -> existsb f l = true -> existsb f l' = true.
Proof.
  intros Hsub H. apply existsb_exists in H as (x & Hin & Hf).
  apply existsb_exists. exists x. split; [|exact Hf].
  apply list_elem_of_In, Hsub, list_elem_of_In, Hin.
Qed.

Lemma partIdInUse_mono r r' id :
  (forall g, g ∈ groups r -> g ∈ groups r') ->
  partIdInUse r id = true -> partIdInUse r' id = true.
Proof. intros Hsub. unfold partIdInUse. by apply existsb_mono. Qed.

Lemma groupCollides_mono r r' (g : GroupToInsert) :
  (forall x, x ∈ groups r -> x ∈ groups r') ->
  groupCollides r g = true -> groupCollides r' g = true.
Proof.
  intros Hsub. unfold groupCollides. rewrite !orb_true_iff. intros [H|H].
  - left. by eapply existsb_mono.
  - right. apply existsb_exists in H as (p & Hin & Hp). apply existsb_exists.
    exists p. split; [exact Hin|]. by eapply partIdInUse_mono.
Qed.

(** The loop stops at a colliding element without touching the rundown. *)
Lemma insertGroupsLoop_head_collides (g : GroupToInsert) rest target inserted r :
  groupCollides r g = true ->
  exists e, insertGroupsLoop getPositionFromTarget (g :: rest) target inserted r = Thrown e r.
Proof.
  unfold groupCollides. cbn [insertGroupsLoop].
  destruct (existsb _ (groups r)); [eauto|]. cbn [orb]. intros H.
  apply find_existsb in H as [p Hp]. rewrite Hp. eauto.
Qed.

Lemma insertGroupsLoop_head_fits (g : GroupToInsert) rest target inserted r :
  groupCollides r g = false ->
  insertGroupsLoop getPositionFromTarget (g :: rest) target inserted r
  = insertGroupsLoop getPositionFromTarget rest (TargetAfter (group_id (ins_group g)))
      (inserted ++ [group_id (ins_group g)])
      (setGroups r (splice (getPositionFromTarget target (group_id <$> groups r)) 0
                      [ins_group g] (groups r))).
Proof.
  unfold groupCollides. cbn [insertGroupsLoop]. rewrite orb_false_iff. intros [H1 H2].
  rewrite H1.
  destruct (find _ (parts (ins_group g))) as [p|] eqn:Hf; [|reflexivity].
  assert (existsb (fun part => partIdInUse r (part_id part)) (parts (ins_group g)) = true)
    by (apply find_existsb; eauto).
  congruence.
Qed.

(** A batch that holds a colliding element ends in an exception. *)
Lemma insertGroupsLoop_throws (batch : list GroupToInsert) : forall target inserted r,
  (exists g, g ∈ batch /\ groupCollides r g = true) ->
  exists e r', insertGroupsLoop getPositionFromTarget batch target inserted r = Thrown e r'.
Proof.
  induction batch as [|g0 rest IH]; intros target inserted r (g & Hin & Hg).
  - by apply elem_of_nil in Hin.
  - destruct (groupCollides r g0) eqn:H0.
    + destruct (insertGroupsLoop_head_collides g0 rest target inserted r H0) as [e He]. eauto.
    + rewrite insertGroupsLoop_head_fits by exact H0.
      apply IH. exists g. split.
      * apply elem_of_cons in Hin as [->|Hin]; [congruence | exact Hin].
      * eapply groupCollides_mono; [|exact Hg]. cbn. intros x Hx.
        apply splice_insert_elem. by right.
Qed.

Lemma onRundown_thrown {A} rundownId (body : Rundown -> Outcome Rundown A) w r e r' :
  rundowns w !! rundownId = Some r ->
  body r = Thrown e r' ->
  onRundown rundownId body w = Thrown e (changeRundown rundownId (fun _ => r') w).
Proof. intros Hr Hb. unfold onRundown. by rewrite Hr, Hb. Qed.

Lemma changeRundown_unsaved rundownId f w : unsaved w (changeRundown rundownId f w).
Proof. split; reflexivity. Qed.

Lemma insertGroups_collision (batch : list GroupToInsert) target w rundownId r :
  rundowns w !! rundownId = Some r ->
  (exists g, g ∈ batch /\ groupCollides r g = true) ->
  exists e w',
    insertGroups updateTimeline updateGroupPlayingParts getPositionFromTarget
      addResourcesToTimeline rundownId batch target w = Thrown e w'
    /\ unsaved w w'
    /\ (forall g rest, batch = g :: rest -> groupCollides r g = true -> w' = w).
Proof.
  intros Hr Hcol.
  destruct (insertGroupsLoop_throws batch target [] r Hcol) as (e & r' & Hloop).
  exists e, (changeRundown rundownId (fun _ => r') w).
  split; [|split].
  - unfold insertGroups, bind, getRundown. rewrite Hr.
    by rewrite (onRundown_thrown _ _ _ _ _ _ Hr Hloop).
  - apply changeRundown_unsaved.
  - intros g rest -> Hg.
    destruct (insertGroupsLoop_head_collides g rest target [] r Hg) as [e' He'].
    rewrite He' in Hloop. injection Hloop as _ <-.
    by apply changeRundown_same.
Qed.


Lemma partIdInUse_changeFirst r hit (f : Group -> Group) id :
  (forall g p, p ∈ parts g -> p ∈ parts (f g)) ->
  partIdInUse r id = true ->
  partIdInUse (setGroups r (changeFirst hit f (groups r))) id = true.
Proof.
  intros Hf. unfold partIdInUse. cbn. induction (groups r) as [|g gs IH]; cbn; [done|].
  rewrite orb_true_iff. intros [H|H].
  - destruct (hit g); cbn; rewrite orb_true_iff; left; [|exact H].
    eapply existsb_mono; [|exact H]. apply Hf.
  - destruct (hit g); cbn; rewrite orb_true_iff; right; [exact H | by apply IH].
Qed.

Lemma insertPartsLoop_head_collides groupId (p : PartToInsert) rest target inserted r :
  partCollides r p = true ->
  exists e, insertPartsLoop getPositionFromTarget groupId (p :: rest) target inserted r
            = Thrown e r.
Proof. unfold partCollides. cbn [insertPartsLoop]. intros ->. eauto. Qed.

Lemma insertPartsLoop_throws groupId (batch : list PartToInsert) : forall target inserted r,
  (exists p, p ∈ batch /\ partCollides r p = true) ->
  exists e r', insertPartsLoop getPositionFromTarget groupId batch target inserted r
               = Thrown e r'.
Proof.
  induction batch as [|p0 rest IH]; intros target inserted r (p & Hin & Hp).
  - by apply elem_of_nil in Hin.
  - destruct (partCollides r p0) eqn:H0.
    + destruct (insertPartsLoop_head_collides groupId p0 rest target inserted r H0) as [e He].
      eauto.
    + cbn [insertPartsLoop]. unfold partCollides in H0. rewrite H0.
      apply IH. exists p. split.
      * apply elem_of_cons in Hin as [->|Hin]; [unfold partCollides in Hp; congruence | exact Hin].
      * unfold partCollides in *. apply partIdInUse_changeFirst; [|exact Hp].
        intros g q Hq. cbn. apply splice_insert_elem. by right.
Qed.

Lemma wrapParts_spec (batch : list PartToInsert) : forall w,
  exists wrapped ids w',
    wrapParts shortID getDefaultGroup batch w = Returned (wrapped, ids) w'
    /\ rundowns w' = rundowns w /\ unsaved w w'
    /\ (fun g => parts (ins_group g)) <$> wrapped = (fun p => [ins_part p]) <$> batch.
Proof.
  induction batch as [|p rest IH]; intros w.
  - exists [], [], w. repeat split.
  - cbn [wrapParts]. unfold bind at 1. unfold drawId at 1.
    set (w1 := mkWorld _ _ _ _).
    destruct (IH w1) as (wrapped & ids & w' & Hw & Hr & (Hu1 & Hu2) & Hparts).
    unfold bind at 1. rewrite Hw. unfold ret.
    eexists _, _, w'. split; [reflexivity|]. split; [exact Hr|].
    split; [split; [exact Hu1 | exact Hu2]|].
    cbn. by rewrite Hparts.
Qed.

Lemma _insertPartsAsTransparentGroup_collision (batch : list PartToInsert) target w rundownId r :
  rundowns w !! rundownId = Some r ->
  (exists p, p ∈ batch /\ partCollides r p = true) ->
  exists e w',
    _insertPartsAsTransparentGroup updateTimeline updateGroupPlayingParts getPositionFromTarget
      shortID getDefaultGroup addResourcesToTimeline rundownId batch target w = Thrown e w'
    /\ unsaved w w'
    /\ (forall p rest, batch = p :: rest -> partCollides r p = true -> rundowns w' = rundowns w).
Proof.
  intros Hr (p & Hin & Hp).
  destruct (wrapParts_spec batch w) as (wrapped & ids & w1 & Hw & Hr1 & (Hu1 & Hu2) & Hparts).
  assert (Hr' : rundowns w1 !! rundownId = Some r) by (by rewrite Hr1).
  assert (Hcol : forall q, q ∈ batch -> partCollides r q = true ->
            exists g, g ∈ wrapped /\ groupCollides r g = true
                      /\ parts (ins_group g) = [ins_part q]).
  { intros q Hq Hqc.
    assert (Hmem : [ins_part q] ∈ (fun g : GroupToInsert => parts (ins_group g)) <$> wrapped).
    { rewrite Hparts. apply list_elem_of_fmap. eauto. }
    apply list_elem_of_fmap in Hmem as (g & Hg & Hgin).
    exists g. split; [exact Hgin|]. split; [|done].
    unfold groupCollides. rewrite <- Hg. cbn. unfold partCollides in Hqc. rewrite Hqc.
    apply orb_true_iff. by right. }
  destruct (Hcol p Hin Hp) as (g & Hgin & Hg & _).
  destruct (insertGroups_collision wrapped target w1 rundownId r Hr' (ex_intro _ g (conj Hgin Hg)))
    as (e & w' & Hins & (Hs1 & Hs2) & Hfirst).
  exists e, w'. split; [|split].
  - unfold _insertPartsAsTransparentGroup. unfold bind at 1. rewrite Hw.
    unfold bind at 1. cbn [fst]. by rewrite Hins.
  - split; congruence.
  - intros q rest -> Hq.
    destruct wrapped as [|g0 wrest]; [discriminate|].
    cbn in Hparts. injection Hparts as Hg0 _.
    assert (groupCollides r g0 = true).
    { unfold groupCollides. rewrite Hg0. cbn. unfold partCollides in Hq. rewrite Hq.
      apply orb_true_iff. by right. }
    rewrite (Hfirst g0 wrest eq_refl H). exact Hr1.
Qed.

Lemma insertParts_collision (batch : list PartToInsert) groupId target w rundownId r :
  rundowns w !! rundownId = Some r ->
  (exists p, p ∈ batch /\ partCollides r p = true) ->
  exists e w',
    insertParts updateTimeline updateGroupPlayingParts getPositionFromTarget shortID
      getDefaultGroup addResourcesToTimeline rundownId groupId batch target w = Thrown e w'
    /\ unsaved w w'
    /\ (forall p rest, batch = p :: rest -> partCollides r p = true -> rundowns w' = rundowns w).
Proof.
  intros Hr Hcol. unfold insertParts.
  destruct (truthyString groupId) as [gid|];
    [|by apply (_insertPartsAsTransparentGroup_collision batch target w rundownId r)].
  unfold bind at 1. unfold getGroup, bind, getRundown. rewrite Hr.
  unfold _getGroupOfRundown. destruct (findGroup r gid) as [group|]; cbn [ret throw fst snd].
  2:{ eexists _, w. split; [reflexivity|]. split; [by split|]. done. }
  destruct (transparent group);
    [by apply (_insertPartsAsTransparentGroup_collision batch _ w rundownId r)|].
  destruct (insertPartsLoop_throws gid batch target [] r Hcol) as (e & r' & Hloop).
  exists e, (changeRundown rundownId (fun _ => r') w). split; [|split].
  - by rewrite (onRundown_thrown _ _ _ _ _ _ Hr Hloop).
  - apply changeRundown_unsaved.
  - intros p rest -> Hp.
    destruct (insertPartsLoop_head_collides gid p rest target [] r Hp) as [e' He'].
    rewrite He' in Hloop. injection Hloop as _ <-.
    by rewrite (changeRundown_same _ _ _ Hr).
Qed.

(** C6 (as amended). When a batch handed to [insertGroups] or [insertParts]
    holds an element whose group id or part id is in use in the rundown, the
    command throws and nothing is saved; when the first element of the batch
    is such an element, the rundowns are as they were. *)
Theorem insert_collision_throws_unsaved (w : World) (rundownId : string) (r : Rundown) :
  rundowns w !! rundownId = Some r ->
  (forall (batch : list GroupToInsert) target,
     (exists g, g ∈ batch /\ groupCollides r g = true) ->
     exists e w',
       insertGroups updateTimeline updateGroupPlayingParts getPositionFromTarget
         addResourcesToTimeline rundownId batch target w = Thrown e w'
       /\ unsaved w w'
       /\ (forall g rest, batch = g :: rest -> groupCollides r g = true ->
           rundowns w' = rundowns w))
  /\ (forall (batch : list PartToInsert) groupId target,
       (exists p, p ∈ batch /\ partCollides r p = true) ->
       exists e w',
         insertParts updateTimeline updateGroupPlayingParts getPositionFromTarget shortID
           getDefaultGroup addResourcesToTimeline rundownId groupId batch target w
         = Thrown e w'
         /\ unsaved w w'
         /\ (forall p rest, batch = p :: rest -> partCollides r p = true ->
             rundowns w' = rundowns w)).
Proof.
  intros Hr. split.
  - intros batch target Hcol.
    destruct (insertGroups_collision batch target w rundownId r Hr Hcol)
      as (e & w' & H1 & H2 & H3).
    exists e, w'. split; [exact H1|]. split; [exact H2|].
    intros g rest Hb Hg. by rewrite (H3 g rest Hb Hg).
  - intros batch groupId target Hcol.
    by apply (insertParts_collision batch groupId target w rundownId r).
Qed.


Lemma getGroup_found w rundownId r groupId g :
  rundowns w !! rundownId = Some r -> findGroup r groupId = Some g ->
  getGroup rundownId groupId w = Returned (r, g) w.
Proof.
  intros Hr Hg. unfold getGroup, bind, getRundown, _getGroupOfRundown. rewrite Hr, Hg.
  reflexivity.
Qed.

Lemma getPart_found w rundownId r groupId g partId p :
  rundowns w !! rundownId = Some r -> findGroup r groupId = Some g ->
  findPart g partId = Some p ->
  getPart rundownId groupId partId w = Returned (r, g, p) w.
Proof.
  intros Hr Hg Hp. unfold getPart, bind. rewrite (getGroup_found _ _ _ _ _ Hr Hg).
  cbn. rewrite Hp. reflexivity.
Qed.

Lemma find_changeFirst {A} (hit : A -> bool) (f : A -> A) (l : list A) :
  (forall x, hit x = true -> hit (f x) = true) ->
  find hit (changeFirst hit f l) = f <$> find hit l.
Proof.
  intros Hf. induction l as [|x l IH]; cbn; [reflexivity|].
  destruct (hit x) eqn:Hx; cbn.
  - by rewrite (Hf x Hx).
  - by rewrite Hx.
Qed.

Lemma findGroup_changeGroup w rundownId r groupId g (f : Group -> Group) :
  rundowns w !! rundownId = Some r -> findGroup r groupId = Some g ->
  (forall x, group_id x = groupId -> group_id (f x) = groupId) ->
  exists r', rundowns (changeGroup rundownId groupId f w) !! rundownId = Some r'
             /\ findGroup r' groupId = Some (f g).
Proof.
  intros Hr Hg Hid. unfold changeGroup. cbn. rewrite lookup_alter_eq, Hr. cbn.
  eexists. split; [reflexivity|]. unfold findGroup in *. cbn.
  rewrite find_changeFirst, Hg; [reflexivity|]. intros x Hx.
  apply String.eqb_eq in Hx. apply String.eqb_eq. by apply Hid.
Qed.

Lemma findGroup_id r groupId g : findGroup r groupId = Some g -> group_id g = groupId.
Proof.
  unfold findGroup. intros H. apply find_some in H as [_ H]. by apply String.eqb_eq in H.
Qed.

Lemma refreshGroup_true_locked g : locked (refreshGroup updateTimeline updateGroupPlayingParts true g) = locked g.
Proof. unfold refreshGroup. destruct (1 <? length (parts g))%nat; reflexivity. Qed.

Lemma refreshGroup_true_id g : group_id (refreshGroup updateTimeline updateGroupPlayingParts true g) = group_id g.
Proof. unfold refreshGroup. destruct (1 <? length (parts g))%nat; reflexivity. Qed.

(** [toggleGroupLock] goes through whether the group is locked or not. *)
Lemma toggleGroupLock_sets w rundownId r groupId g value :
  rundowns w !! rundownId = Some r -> findGroup r groupId = Some g ->
  exists u w' r' g',
    toggleGroupLock updateTimeline updateGroupPlayingParts rundownId groupId value w
    = Returned (Some u) w'
    /\ rundowns w' !! rundownId = Some r' /\ findGroup r' groupId = Some g'
    /\ locked g' = value
    /\ updatedRundowns w' = updatedRundowns w ++ [rundownId].
Proof.
  intros Hr Hg. unfold toggleGroupLock. unfold bind at 1.
  rewrite (getGroup_found _ _ _ _ _ Hr Hg). cbn [snd].
  unfold bind at 1. unfold bind at 1. unfold _saveUpdates. cbn [foldl].
  destruct (findGroup_changeGroup w rundownId r groupId g (fun g0 => setLocked g0 value) Hr Hg)
    as (r1 & Hr1 & Hg1); [done|].
  destruct (findGroup_changeGroup _ rundownId r1 groupId _
              (refreshGroup updateTimeline updateGroupPlayingParts true) Hr1 Hg1)
    as (r2 & Hr2 & Hg2); [by intros x <-; apply refreshGroup_true_id|].
  unfold ret. eexists _, _, r2, _. split; [reflexivity|].
  cbn [rundowns updatedRundowns]. split; [exact Hr2|]. split; [exact Hg2|].
  split; [by rewrite refreshGroup_true_locked | reflexivity].
Qed.

Lemma toggleGroupProperty_locked read write description w rundownId r groupId g value :
  rundowns w !! rundownId = Some r -> findGroup r groupId = Some g -> locked g = true ->
  toggleGroupProperty updateTimeline updateGroupPlayingParts read write description
    rundownId groupId value w = Returned None w.
Proof.
  intros Hr Hg Hl. unfold toggleGroupProperty, bind.
  rewrite (getGroup_found _ _ _ _ _ Hr Hg). cbn. rewrite Hl. reflexivity.
Qed.

Lemma toggleGroupOneAtATime_locked w rundownId r groupId g value :
  rundowns w !! rundownId = Some r -> findGroup r groupId = Some g -> locked g = true ->
  toggleGroupOneAtATime updateTimeline updateGroupPlayingParts firstKey rundownId groupId
    value w
  = Returned None w.
Proof.
  intros Hr Hg Hl. unfold toggleGroupOneAtATime, bind.
  rewrite (getGroup_found _ _ _ _ _ Hr Hg). cbn. rewrite Hl. reflexivity.
Qed.

Lemma updateGroup_locked w rundownId r groupId g patch :
  rundowns w !! rundownId = Some r -> findGroup r groupId = Some g -> locked g = true ->
  updateGroup updateTimeline updateGroupPlayingParts has deepExtend rundownId groupId patch w
  = Returned None w.
Proof.
  intros Hr Hg Hl. unfold updateGroup, bind.
  rewrite (getGroup_found _ _ _ _ _ Hr Hg). cbn. rewrite Hl. reflexivity.
Qed.

Lemma setPartTrigger_locked w rundownId r groupId g partId p trigger triggerIndex :
  rundowns w !! rundownId = Some r -> findGroup r groupId = Some g ->
  findPart g partId = Some p -> locked g || part_locked p = true ->
  setPartTrigger updateTimeline updateGroupPlayingParts rundownId groupId partId trigger
    triggerIndex w = Returned None w.
Proof.
  intros Hr Hg Hp Hl. unfold setPartTrigger, bind.
  rewrite (getPart_found _ _ _ _ _ _ _ Hr Hg Hp). cbn. rewrite Hl. reflexivity.
Qed.

Lemma updatePart_locked w rundownId r groupId g partId p patch :
  rundowns w !! rundownId = Some r -> findGroup r groupId = Some g ->
  findPart g partId = Some p ->
  locked g = true \/ (part_locked p = true /\ patch_locked patch = None) ->
  updatePart updateTimeline updateGroupPlayingParts postProcessPart rundownId groupId partId
    patch w = Returned None w.
Proof.
  intros Hr Hg Hp Hl. unfold updatePart, bind.
  rewrite (getPart_found _ _ _ _ _ _ _ Hr Hg Hp). cbn.
  destruct Hl as [->|[-> ->]]; [reflexivity|]. cbn. by destruct (locked g).
Qed.

Lemma newPart_locked w rundownId r groupId g name :
  rundowns w !! rundownId = Some r -> findGroup r groupId = Some g -> locked g = true ->
  groupId <> "" ->
  exists w',
    newPart updateTimeline updateGroupPlayingParts shortID getDefaultGroup getDefaultPart
      rundownId (Some groupId) name w = Returned None w'
    /\ rundowns w' = rundowns w /\ unsaved w w'.
Proof.
  intros Hr Hg Hl Hne. unfold newPart, bind, drawId, getRundown. cbn [rundowns].
  rewrite Hr. unfold truthyString.
  destruct (String.eqb_spec groupId ""); [done|].
  unfold _getGroupOfRundown. rewrite Hg. unfold ret. rewrite Hl.
  eexists. split; [reflexivity|]. repeat split.
Qed.

(** [updatePart] with [locked] in the patch, on a part that may be locked:
    the patch is applied, key by key, and the rundown is saved. *)
Lemma updatePart_locked_key w rundownId r groupId g partId p patch :
  rundowns w !! rundownId = Some r -> findGroup r groupId = Some g ->
  findPart g partId = Some p ->
  locked g = false -> hasKey (patch_locked patch) = true ->
  exists u w',
    updatePart updateTimeline updateGroupPlayingParts postProcessPart rundownId groupId partId
      patch w = Returned (Some u) w'
    /\ w' = stateOf
              (_saveUpdates updateTimeline updateGroupPlayingParts rundownId true
                 (if partAffectsPlayout patch then [groupId] else []) false
                 (changePart rundownId groupId partId
                    (fun p0 => postProcessPart (assignPart p0 patch))
                    (if partAffectsPlayout patch
                     then changeGroup rundownId groupId updateGroupPlayingParts w
                     else w)))
    /\ updatedRundowns w' = updatedRundowns w ++ [rundownId].
Proof.
  intros Hr Hg Hp Hl Hk. unfold updatePart. unfold bind at 1.
  rewrite (getPart_found _ _ _ _ _ _ _ Hr Hg Hp). cbn [fst snd]. rewrite Hl, Hk.
  rewrite andb_false_r.
  unfold bind, ret, _saveUpdates.
  destruct (partAffectsPlayout patch); cbn; eauto.
Qed.

(** The commands that look the part up and return at once when the group or
    the part is locked. *)
Lemma part_guards w rundownId r groupId g partId p :
  rundowns w !! rundownId = Some r -> findGroup r groupId = Some g ->
  findPart g partId = Some p -> locked g || part_locked p = true ->
  deletePart deletePartUnlocked rundownId groupId partId w = Returned None w
  /\ (forall timelineObjId change,
        updateTimelineObj updateTimelineObjUnlocked rundownId groupId partId timelineObjId
          change w = Returned None w)
  /\ (forall timelineObjs target,
        insertTimelineObjs getProject insertTimelineObjsUnlocked rundownId groupId partId
          timelineObjs target w = Returned None w)
  /\ (forall timelineObjId,
        moveTimelineObjToNewLayer moveTimelineObjToNewLayerUnlocked rundownId groupId partId
          timelineObjId w = Returned None w)
  /\ (forall layerId resourceIds,
        LockGuards.addResourcesToTimeline addResourcesToTimelineUnlocked rundownId groupId
          partId layerId resourceIds w = Returned None w).
Proof.
  intros Hr Hg Hp Hl.
  unfold deletePart, updateTimelineObj, insertTimelineObjs, moveTimelineObjToNewLayer,
    LockGuards.addResourcesToTimeline, bind.
  rewrite (getPart_found _ _ _ _ _ _ _ Hr Hg Hp). cbn [fst snd]. rewrite Hl.
  repeat split.
Qed.

Lemma deleteGroup_locked w rundownId r groupId g :
  rundowns w !! rundownId = Some r -> findGroup r groupId = Some g -> locked g = true ->
  deleteGroup deleteGroupUnlocked rundownId groupId w = Returned None w.
Proof.
  intros Hr Hg Hl. unfold deleteGroup, bind.
  rewrite (getGroup_found _ _ _ _ _ Hr Hg). cbn [fst snd]. rewrite Hl. reflexivity.
Qed.

Lemma deleteTimelineObj_locked w rundownId r groupId partId timelineObjId g p o :
  rundowns w !! rundownId = Some r ->
  findTimelineObjInRundown r timelineObjId = Some (g, p, o) ->
  locked g || part_locked p = true ->
  deleteTimelineObj findTimelineObjInRundown deleteTimelineObjUnlocked rundownId groupId
    partId timelineObjId w = Returned None w.
Proof.
  intros Hr Hfind Hl. unfold deleteTimelineObj, bind, getRundown. rewrite Hr, Hfind, Hl.
  reflexivity.
Qed.

(** C7 (as amended). Every command that carries a lock guard hands back
    [undefined] and leaves the world as it is when the flag it guards on is
    set. On the group's flag: [updateGroup], [deleteGroup], the four group
    toggles, and [newPart] into a named group. On the flag of the group or
    of the part: [setPartTrigger], [deletePart], [updateTimelineObj],
    [insertTimelineObjs], [moveTimelineObjToNewLayer],
    [addResourcesToTimeline], and [deleteTimelineObj] for the group and the
    part that hold the timeline object. [updatePart] returns so when the
    group is locked, or when the part is locked and the patch does not carry
    [locked]; with [locked] in the patch and the group not locked it applies
    the whole patch to the part, locked or not, saves the rundown and hands
    back an undoable result. [toggleGroupLock] has no guard and sets the
    flag on any group. *)
Theorem lock_guards (w : World) (rundownId : string) (r : Rundown) (groupId : string)
    (g : Group) :
  rundowns w !! rundownId = Some r ->
  findGroup r groupId = Some g ->
  (locked g = true ->
     (forall patch,
        updateGroup updateTimeline updateGroupPlayingParts has deepExtend rundownId groupId
          patch w
        = Returned None w)
     /\ deleteGroup deleteGroupUnlocked rundownId groupId w = Returned None w
     /\ (forall v,
           toggleGroupLoop updateTimeline updateGroupPlayingParts rundownId groupId v w
           = Returned None w)
     /\ (forall v,
           toggleGroupAutoplay updateTimeline updateGroupPlayingParts rundownId groupId v w
           = Returned None w)
     /\ (forall v,
           toggleGroupDisable updateTimeline updateGroupPlayingParts rundownId groupId v w
           = Returned None w)
     /\ (forall v,
           toggleGroupOneAtATime updateTimeline updateGroupPlayingParts firstKey rundownId
             groupId v w
           = Returned None w)
     /\ (groupId <> "" -> forall name,
           exists w',
             newPart updateTimeline updateGroupPlayingParts shortID getDefaultGroup
               getDefaultPart rundownId (Some groupId) name w = Returned None w'
             /\ rundowns w' = rundowns w /\ unsaved w w'))
  /\ (forall partId p, findPart g partId = Some p ->
        (locked g || part_locked p = true ->
           (forall trigger triggerIndex,
              setPartTrigger updateTimeline updateGroupPlayingParts rundownId groupId partId
                trigger triggerIndex w = Returned None w)
           /\ deletePart deletePartUnlocked rundownId groupId partId w = Returned None w
           /\ (forall timelineObjId change,
                 updateTimelineObj updateTimelineObjUnlocked rundownId groupId partId
                   timelineObjId change w = Returned None w)
           /\ (forall timelineObjs target,
                 insertTimelineObjs getProject insertTimelineObjsUnlocked rundownId groupId
                   partId timelineObjs target w = Returned None w)
           /\ (forall timelineObjId,
                 moveTimelineObjToNewLayer moveTimelineObjToNewLayerUnlocked rundownId groupId
                   partId timelineObjId w = Returned None w)
           /\ (forall layerId resourceIds,
                 LockGuards.addResourcesToTimeline addResourcesToTimelineUnlocked rundownId
                   groupId partId layerId resourceIds w = Returned None w))
        /\ (forall patch,
              locked g = true \/ (part_locked p = true /\ patch_locked patch = None) ->
              updatePart updateTimeline updateGroupPlayingParts postProcessPart rundownId
                groupId partId patch w = Returned None w)
        /\ (forall patch,
              locked g = false -> hasKey (patch_locked patch) = true ->
              exists u w',
                updatePart updateTimeline updateGroupPlayingParts postProcessPart rundownId
                  groupId partId patch w = Returned (Some u) w'
                /\ w' = stateOf
                          (_saveUpdates updateTimeline updateGroupPlayingParts rundownId true
                             (if partAffectsPlayout patch then [groupId] else []) false
                             (changePart rundownId groupId partId
                                (fun p0 => postProcessPart (assignPart p0 patch))
                                (if partAffectsPlayout patch
                                 then changeGroup rundownId groupId updateGroupPlayingParts w
                                 else w)))
                /\ updatedRundowns w' = updatedRundowns w ++ [rundownId]))
  /\ (forall timelineObjId holder part o,
        findTimelineObjInRundown r timelineObjId = Some (holder, part, o) ->
        locked holder || part_locked part = true ->
        forall partId,
          deleteTimelineObj findTimelineObjInRundown deleteTimelineObjUnlocked rundownId
            groupId partId timelineObjId w = Returned None w)
  /\ (forall v,
        exists u w' r' g',
          toggleGroupLock updateTimeline updateGroupPlayingParts rundownId groupId v w
          = Returned (Some u) w'
          /\ rundowns w' !! rundownId = Some r' /\ findGroup r' groupId = Some g'
          /\ locked g' = v
          /\ updatedRundowns w' = updatedRundowns w ++ [rundownId]).
Proof.
  intros Hr Hg. split; [|split; [|split]].
  - intros Hl.
    split; [intros patch; exact (updateGroup_locked w rundownId r groupId g patch Hr Hg Hl)|].
    split; [exact (deleteGroup_locked w rundownId r groupId g Hr Hg Hl)|].
    split; [intros v; exact (toggleGroupProperty_locked _ _ _ w rundownId r groupId g v Hr Hg Hl)|].
    split; [intros v; exact (toggleGroupProperty_locked _ _ _ w rundownId r groupId g v Hr Hg Hl)|].
    split; [intros v; exact (toggleGroupProperty_locked _ _ _ w rundownId r groupId g v Hr Hg Hl)|].
    split; [intros v; exact (toggleGroupOneAtATime_locked w rundownId r groupId g v Hr Hg Hl)|].
    intros Hne name. exact (newPart_locked w rundownId r groupId g name Hr Hg Hl Hne).
  - intros partId p Hp.
    split.
    { intros Hl.
      split; [intros trigger triggerIndex;
              exact (setPartTrigger_locked w rundownId r groupId g partId p trigger
                       triggerIndex Hr Hg Hp Hl)|].
      exact (part_guards w rundownId r groupId g partId p Hr Hg Hp Hl). }
    split; [intros patch Hl;
            exact (updatePart_locked w rundownId r groupId g partId p patch Hr Hg Hp Hl)|].
    intros patch Hl Hk.
    exact (updatePart_locked_key w rundownId r groupId g partId p patch Hr Hg Hp Hl Hk).
  - intros timelineObjId holder part o Hfind Hl partId.
    exact (deleteTimelineObj_locked w rundownId r groupId partId timelineObjId holder part o
             Hr Hfind Hl).
  - intros v. exact (toggleGroupLock_sets w rundownId r groupId g v Hr Hg).
Qed.


End CommandFacts.

End CommandFacts.

Module CommandExamples.
Import Js Model Commands LockGuards JsFacts CommandFacts.
Import CommandSamples.

(** C6, counterexample: the batch is not inserted all-or-nothing. *)
Lemma insertGroups_not_all_or_nothing : PartialInsert.
Proof.
  intros ut ugp gpft R art.
  assert (Hr : rundowns (worldOf evening) !! "rd" = Some evening) by reflexivity.
  set (r1 := setGroups evening
               (splice (gpft TargetLast (group_id <$> groups evening)) 0 [news]
                  (groups evening))).
  assert (Hloop : exists e, insertGroupsLoop gpft [toInsert R news; toInsert R intro]
                              TargetLast [] evening = Thrown e r1).
  { rewrite insertGroupsLoop_head_fits by reflexivity.
    apply insertGroupsLoop_head_collides.
    unfold groupCollides. apply orb_true_iff. left. apply existsb_exists.
    exists intro. split; [|reflexivity].
    apply list_elem_of_In. apply splice_insert_elem. right. apply list_elem_of_here. }
  destruct Hloop as [e Hloop].
  exists e, (changeRundown "rd" (fun _ => r1) (worldOf evening)), r1.
  split.
  { unfold insertGroups, bind, getRundown. rewrite Hr.
    by rewrite (onRundown_thrown _ _ _ _ _ _ Hr Hloop). }
  split; [reflexivity|]. split; [reflexivity|].
  split; [apply splice_insert_length|].
  apply splice_insert_elem. by left.
Qed.

Lemma insert_collision_throws_unsaved_witness :
  exists e w',
    insertGroups noTimeline keepGroup (fun _ ids => Z.of_nat (length ids)) noResources
      "rd" [toInsert unit intro; toInsert unit news] TargetLast (worldOf evening) = Thrown e w'
    /\ rundowns w' = rundowns (worldOf evening).
Proof.
  destruct (insert_collision_throws_unsaved noTimeline keepGroup
              (fun _ ids => Z.of_nat (length ids)) numberedId intro noResources
              (worldOf evening) "rd" evening eq_refl) as [Hgroups _].
  destruct (Hgroups [toInsert unit intro; toInsert unit news] TargetLast)
    as (e & w' & Hthrown & _ & Hfirst).
  - exists (toInsert unit intro). split; [apply list_elem_of_here | reflexivity].
  - exists e, w'. split; [exact Hthrown|].
    apply (Hfirst (toInsert unit intro) [toInsert unit news]); reflexivity.
Defined.

(** C7, counterexample: a command other than the lock toggle changes a
    locked part and hands back an undoable result. *)
Lemma updatePart_changes_locked_part : LockedPartUpdated.
Proof.
  intros ut ugp ppp. split; [reflexivity|]. vm_compute. reflexivity.
Qed.

Lemma lock_guards_witness :
  (* a locked group *)
  (updateGroup noTimeline keepGroup sampleHas sampleExtend "rd" "intro" (Rename "Outro")
     (worldOf lockedRundown) = Returned None (worldOf lockedRundown)
   /\ deleteGroup (fun _ _ _ _ => pastGuard) "rd" "intro" (worldOf lockedRundown)
      = Returned None (worldOf lockedRundown)
   /\ toggleGroupOneAtATime noTimeline keepGroup someKey "rd" "intro" false
        (worldOf lockedRundown) = Returned None (worldOf lockedRundown))
  (* a locked part in a group that is not locked *)
  /\ (setPartTrigger noTimeline keepGroup "rd" "intro" "p1" (Some (mkTrigger "F1" "play")) None
        (worldOf matinee) = Returned None (worldOf matinee)
      /\ deletePart (fun _ _ _ _ _ _ => pastGuard) "rd" "intro" "p1" (worldOf matinee)
         = Returned None (worldOf matinee)
      /\ insertTimelineObjs (fun _ => tt) (fun _ _ _ _ _ _ _ _ _ => pastGuard) "rd" "intro" "p1"
           [titleCard] None (worldOf matinee) = Returned None (worldOf matinee)
      /\ deleteTimelineObj holderOf (fun _ _ _ _ _ _ => pastGuard) "rd" "intro" "p1" "card"
           (worldOf matinee) = Returned None (worldOf matinee)
      /\ exists u w',
           updatePart noTimeline keepGroup keepPart "rd" "intro" "p1" renameAndLock
             (worldOf matinee) = Returned (Some u) w'
           /\ rundowns w' !! "rd"
              = Some (mkRundown "rd" "Matinee"
                        [plainGroup "intro" "Intro" false
                           [mkPart "p1" "Credits" false true false None None [] [titleCard]]
                           ∅]))
  (* the lock toggle *)
  /\ exists u w' r' g',
       toggleGroupLock noTimeline keepGroup "rd" "intro" false (worldOf lockedRundown)
       = Returned (Some u) w'
       /\ rundowns w' !! "rd" = Some r' /\ findGroup r' "intro" = Some g'
       /\ locked g' = false.
Proof.
  pose proof (lock_guards noTimeline keepGroup keepPart numberedId lockedGroup sealed someKey
                sampleHas sampleExtend (fun _ => tt) holderOf
                (fun _ _ _ _ _ _ => pastGuard) (fun _ _ _ _ => pastGuard)
                (fun _ _ _ _ (_ : unit) _ _ _ => pastGuard) (fun _ _ _ _ _ _ => pastGuard)
                (fun _ _ _ _ _ _ _ _ _ => pastGuard) (fun _ _ _ _ _ _ _ => pastGuard)
                (fun _ _ _ _ (_ : list (string + unit)) _ _ _ => pastGuard)
                (worldOf lockedRundown) "rd" lockedRundown "intro" lockedGroup eq_refl eq_refl)
    as (Hgroup & _ & _ & Htoggle).
  pose proof (lock_guards noTimeline keepGroup keepPart numberedId lockedGroup sealed someKey
                sampleHas sampleExtend (fun _ => tt) holderOf
                (fun _ _ _ _ _ _ => pastGuard) (fun _ _ _ _ => pastGuard)
                (fun _ _ _ _ (_ : unit) _ _ _ => pastGuard) (fun _ _ _ _ _ _ => pastGuard)
                (fun _ _ _ _ _ _ _ _ _ => pastGuard) (fun _ _ _ _ _ _ _ => pastGuard)
                (fun _ _ _ _ (_ : list (string + unit)) _ _ _ => pastGuard)
                (worldOf matinee) "rd" matinee "intro" cards eq_refl eq_refl)
    as (_ & Hpart & Hobj & _).
  destruct (Hgroup eq_refl) as (Hupdate & Hdelete & _ & _ & _ & Hsolo & _).
  destruct (Hpart "p1" sealedCard eq_refl) as (Hguard & _ & Hkey).
  destruct (Hguard eq_refl) as (Htrigger & HdeletePart & _ & Hinsert & _).
  destruct (Hkey renameAndLock eq_refl eq_refl) as (u & w' & Hcall & Hw' & _).
  destruct (Htoggle false) as (u2 & w2 & r2 & g2 & Hcall2 & Hr2 & Hg2 & Hl2 & _).
  split; [|split].
  - split; [apply Hupdate|]. split; [exact Hdelete | apply Hsolo].
  - split; [apply Htrigger|]. split; [exact HdeletePart|]. split; [apply Hinsert|].
    split; [exact (Hobj "card" cards sealedCard titleCard eq_refl eq_refl "p1")|].
    exists u, w'. split; [exact Hcall|]. rewrite Hw'. reflexivity.
  - exists u2, w2, r2, g2. split; [exact Hcall2|]. split; [exact Hr2|].
    split; [exact Hg2 | exact Hl2].
Defined.


End CommandExamples.

(** ** The undo ledger: its shape, and round trips *)

Module LedgerRoundTrips.
Import Js Ledger JsFacts LedgerFacts LedgerShape.

Section LedgerRoundTrips.
Context {World Args Value : Type}.
Variable MAX_UNDO_LEDGER_LENGTH : nat.

Abbreviation Server := (Ledger.Server World Args Value).
Abbreviation UndoableResult := (Ledger.UndoableResult World Value).
Abbreviation Action := (Ledger.Action World Args Value).

Lemma index_Some {A} (l : list A) (i : Z) (a : A) :
  index l i = Some a -> 0 <= i < Z.of_nat (length l) /\ l !! Z.to_nat i = Some a.
Proof.
  unfold index. destruct (Z.ltb_spec i 0); [discriminate|].
  intros H1. split; [|exact H1]. apply lookup_lt_Some in H1. lia.
Qed.

Lemma setUndo_length i u (l : list Action) : length (setUndo i u l) = length l.
Proof. unfold setUndo. destruct (l !! i); [apply length_insert | reflexivity]. Qed.

(** X1. The shape of the ledger is kept. If the pointer is [-1] or the index
    of an entry and the ledger holds at most [MAX_UNDO_LEDGER_LENGTH]
    entries, then so it is after a call through the handler, after [undo()]
    and after [redo()], whether the call returns, returns an undoable result
    or throws. *)
Theorem ledger_stays_well_formed (s : Server) (fcn : Ledger.UndoableFunction) (args : Args) :
  wellFormed MAX_UNDO_LEDGER_LENGTH s ->
  wellFormed MAX_UNDO_LEDGER_LENGTH (stateOf (handle MAX_UNDO_LEDGER_LENGTH fcn args s))
  /\ wellFormed MAX_UNDO_LEDGER_LENGTH (stateOf (undo_method s))
  /\ wellFormed MAX_UNDO_LEDGER_LENGTH (stateOf (redo_method s)).
Proof.
  intros [Hp Hlen]. unfold wellFormed. split; [|split].
  - unfold handle. destruct (fcn args (world s)) as [[r|v] w | e w]; cbn [stateOf].
    + pose proof (recordAction_ledger MAX_UNDO_LEDGER_LENGTH fcn args r (withWorld s w))
        as (Hl & Hptr & _); [cbn; lia|].
      rewrite Hptr, Hl, length_drop. unfold appended. rewrite length_app. cbn. lia.
    + cbn. auto.
    + cbn. auto.
  - unfold undo_method.
    destruct (index (undoLedger s) (undoPointer s)) as [a|] eqn:Hi.
    2:{ cbn. rewrite splice_all. cbn. lia. }
    apply index_Some in Hi as [Hr _].
    destruct (undo a) as [f|].
    2:{ cbn. rewrite splice_all. cbn. lia. }
    destruct (f (world s)); cbn; [lia|]. rewrite splice_all. cbn. lia.
  - unfold redo_method.
    destruct (index (undoLedger s) (undoPointer s + 1)) as [a|] eqn:Hi.
    2:{ cbn. rewrite splice_all. cbn. lia. }
    apply index_Some in Hi as [Hr _].
    destruct (redo a (arguments a) (world s)) as [[r|[v|]] w | e w]; cbn;
      rewrite ?setUndo_length, ?splice_all; cbn; lia.
Qed.

(** X2. Undo runs the inverse that was handed back. With room for at least
    one entry and a pointer that is not below [-1]: when a call through the handler returns an undoable result,
    the handler returns its [result], and an [undo()] right after runs the
    [undo] function of that result on the world the call left; when that
    succeeds, the ledger keeps its entries and the pointer steps back by
    one. *)
Theorem undo_runs_returned_inverse (fcn : Ledger.UndoableFunction) (args : Args) (s : Server)
    (r : UndoableResult) (w1 w2 : World) :
  (0 < MAX_UNDO_LEDGER_LENGTH)%nat ->
  -1 <= undoPointer s ->
  fcn args (world s) = Returned (Undoable r) w1 ->
  resultUndo r w1 = Returned tt w2 ->
  exists s1 s2,
    handle MAX_UNDO_LEDGER_LENGTH fcn args s = Returned (Some (result r)) s1
    /\ undo_method s1 = Returned tt s2
    /\ world s2 = w2
    /\ undoLedger s2 = undoLedger s1
    /\ undoPointer s2 = undoPointer s1 - 1.
Proof.
  intros Hmax Hp Hcall Hundo. unfold handle. rewrite Hcall.
  pose proof (recordAction_ledger MAX_UNDO_LEDGER_LENGTH fcn args r (withWorld s w1))
    as (Hl & Hptr & Hw); [cbn; lia|].
  set (s1 := recordAction MAX_UNDO_LEDGER_LENGTH fcn args r (withWorld s w1)) in *.
  set (a := mkAction (resultDescription r) args fcn (Some (resultUndo r))) in *.
  assert (Hlast : index (undoLedger s1) (undoPointer s1) = Some a).
  { rewrite Hptr, Hl. unfold index.
    rewrite length_drop. unfold appended. rewrite length_app. cbn [length].
    set (n := length (take (Z.to_nat (undoPointer (withWorld s w1) + 1)) (undoLedger (withWorld s w1)))).
    destruct (Z.ltb_spec (Z.of_nat (n + 1 - (n + 1 - MAX_UNDO_LEDGER_LENGTH)) - 1) 0); [lia|].
    rewrite lookup_drop.
    replace (n + 1 - MAX_UNDO_LEDGER_LENGTH +
             Z.to_nat (Z.of_nat (n + 1 - (n + 1 - MAX_UNDO_LEDGER_LENGTH)) - 1))%nat
      with (n + 0)%nat by lia.
    rewrite lookup_app_r by (subst n; lia).
    replace (n + 0 - _)%nat with 0%nat by (subst n; lia). reflexivity. }
  exists s1. unfold undo_method. rewrite Hlast. cbn [undo a]. rewrite Hw. cbn [withWorld world].
  rewrite Hundo. cbn.
  eexists. split; [reflexivity|]. split; [reflexivity|]. cbn. auto.
Qed.

(** X3. Undo, then redo. If the entry under the pointer has an [undo] that
    succeeds, and calling the entry's function again with the recorded
    arguments returns an undoable result, then [undo()] followed by [redo()]
    puts the pointer back where it was, keeps the descriptions of the
    ledger, stores the [undo] of the new result in the entry, and announces
    the ledger twice. *)
Theorem redo_after_undo (s : Server) (a : Action) (f : Ledger.UndoFunction)
    (w1 w2 : World) (r2 : UndoableResult) :
  index (undoLedger s) (undoPointer s) = Some a ->
  undo a = Some f ->
  f (world s) = Returned tt w1 ->
  redo a (arguments a) w1 = Returned (Undoable r2) w2 ->
  exists s1 s2,
    undo_method s = Returned tt s1
    /\ redo_method s1 = Returned tt s2
    /\ undoPointer s1 = undoPointer s - 1
    /\ undoPointer s2 = undoPointer s
    /\ world s2 = w2
    /\ description <$> undoLedger s2 = description <$> undoLedger s
    /\ index (undoLedger s2) (undoPointer s)
       = Some (mkAction (description a) (arguments a) (redo a) (Some (resultUndo r2)))
    /\ length (emitted s2) = (length (emitted s) + 2)%nat.
Proof.
  intros Hi Hu Hf Hr. pose proof (index_Some _ _ _ Hi) as [Hrange Hlook].
  unfold undo_method. rewrite Hi, Hu, Hf. cbn.
  eexists. eexists. split; [reflexivity|].
  unfold redo_method. cbn [undoLedger undoPointer world emitUpdatedUndoLedger].
  replace (undoPointer s - 1 + 1) with (undoPointer s) by lia.
  rewrite Hi, Hr. cbn.
  split; [reflexivity|]. split; [reflexivity|]. split; [reflexivity|]. split; [reflexivity|].
  unfold setUndo. rewrite Hlook. cbn [emitUpdatedUndoLedger undoLedger emitted].
  split.
  - apply list_eq. intros i. rewrite !list_lookup_fmap.
    destruct (decide (i = Z.to_nat (undoPointer s))) as [->|Hne].
    + rewrite list_lookup_insert_eq by (apply lookup_lt_Some in Hlook; exact Hlook).
      rewrite Hlook. reflexivity.
    + rewrite list_lookup_insert_ne by congruence. reflexivity.
  - split.
    + unfold index. destruct (Z.ltb_spec (undoPointer s) 0); [lia|].
      rewrite list_lookup_insert_eq by (apply lookup_lt_Some in Hlook; exact Hlook). reflexivity.
    + rewrite !length_app. cbn. lia.
Qed.

End LedgerRoundTrips.
End LedgerRoundTrips.

Module LedgerRoundTripExamples.
Import Js Ledger LedgerShape LedgerRoundTrips.
Import LedgerSamples RoundTripSamples.

Lemma ledger_stays_well_formed_witness :
  wellFormed 2 (stateOf (handle 2 bump tt bumped))
  /\ wellFormed 2 (stateOf (undo_method bumped))
  /\ wellFormed 2 (stateOf (redo_method bumped)).
Proof.
  apply (ledger_stays_well_formed 2 bumped bump tt).
  split; [change (-1 <= 0 < 1) | change (1 <= 2)%nat]; lia.
Defined.

Lemma undo_runs_returned_inverse_witness :
  exists s1 s2,
    handle 2 bump tt fresh = Returned (Some 7%nat) s1
    /\ undo_method s1 = Returned tt s2
    /\ world s2 = 0%nat
    /\ undoLedger s2 = undoLedger s1
    /\ undoPointer s2 = undoPointer s1 - 1.
Proof.
  apply (undo_runs_returned_inverse 2 bump tt fresh bumpResult 1%nat 0%nat).
  - lia.
  - cbn. lia.
  - reflexivity.
  - reflexivity.
Defined.

Lemma redo_after_undo_witness :
  exists s1 s2,
    undo_method bumped = Returned tt s1
    /\ redo_method s1 = Returned tt s2
    /\ undoPointer s1 = -1
    /\ undoPointer s2 = 0
    /\ world s2 = 1%nat.
Proof.
  destruct (redo_after_undo bumped bumpEntry (resultUndo bumpResult) 0%nat 1%nat bumpResult)
    as (s1 & s2 & Hundo & Hredo & Hp1 & Hp2 & Hw & _).
  - reflexivity.
  - reflexivity.
  - reflexivity.
  - reflexivity.
  - exists s1, s2. repeat split; assumption.
Defined.

End LedgerRoundTripExamples.

(** ** The session handler: the remaining methods, and the bridge callback *)

Module SessionRestFacts.
Import Js JsFacts Session SessionRest SessionFacts.

Section SessionRestFacts.

Context {ResourceAny BridgeStatus : Type}.
Variable resource_deviceId : ResourceAny -> string.
Variable resource_id : ResourceAny -> string.
Context `{EqDecision ResourceAny}.

Abbreviation SessionHandler := (Session.SessionHandler ResourceAny BridgeStatus).
Abbreviation Event := (Session.Event ResourceAny BridgeStatus).

(** X4. Once the timer's callback has run, nothing is left marked: the next
    emission pass sends no event, and a second run of the callback changes
    nothing. *)
Theorem second_pass_is_silent (s : SessionHandler) :
  passEvents (timerFires s) = [] /\ timerFires (timerFires s) = timerFires s.
Proof.
  assert (Hq : passEvents (timerFires s) = []).
  { unfold timerFires, emitChanges, passEvents. cbn. rewrite elements_empty. reflexivity. }
  split; [exact Hq|].
  unfold timerFires at 1. unfold emitChanges at 1.
  unfold timerFires in Hq. unfold emitChanges in Hq.
  unfold passEvents at 1. cbn [emitEverything resourcesHasChanged bridgeStatusesHasChanged
    peripheralsHasChanged allTriggersHasChanged activeTriggersHasChanged resources bridgeStatuses
    peripherals allTriggers activeTriggers emittedEvents timersSet emitTimeout timerFires emitChanges].
  unfold timerFires, emitChanges. cbn. rewrite elements_empty. cbn. rewrite app_nil_r. reflexivity.
Qed.

(** X5. [triggerEmitAll()]: when the timer fires, the events of the pass are
    appended to what was emitted before; the pass carries every resource,
    bridge status and peripheral the session holds, and the list of active
    triggers. An [allTrigger] event is sent only for a trigger that was
    marked as changed: [emitEverything] does not resend the triggers. The
    resources are left as they are and [emitEverything] is cleared. *)
Theorem emit_all_resends_what_is_held (s : SessionHandler) :
  let s1 := timerFires (triggerEmitAll s) in
  let batch := passEvents (triggerEmitAll s) in
  emittedEvents s1 = emittedEvents s ++ batch
  /\ (forall id r, resources s !! id = Some r -> EvResource id (Own r) ∈ batch)
  /\ (forall id b, bridgeStatuses s !! id = Some b -> EvBridgeStatus id (Own b) ∈ batch)
  /\ (forall id p, peripherals s !! id = Some p -> EvPeripheral id (Some p) ∈ batch)
  /\ EvActiveTriggers (snd <$> map_to_list (activeTriggers s)) ∈ batch
  /\ (forall id t, EvAllTrigger id t ∈ batch -> id ∈ allTriggersHasChanged s)
  /\ resources s1 = resources s /\ emitEverything s1 = false.
Proof.
  intros s1 batch. subst s1 batch.
  assert (Hp : passEvents (triggerEmitAll s) =
    ((fun id => EvResource id (readProperty (resources s) id))
       <$> elements (dom (resources s) ∪ resourcesHasChanged s)) ++
    ((fun id => EvBridgeStatus id (readProperty (bridgeStatuses s) id))
       <$> elements (dom (bridgeStatuses s) ∪ bridgeStatusesHasChanged s)) ++
    ((fun id => EvPeripheral id (peripherals s !! id)) <$> elements (dom (peripherals s) ∪ peripheralsHasChanged s)) ++
    ((fun id => EvAllTrigger id (allTriggers s !! id)) <$> elements (allTriggersHasChanged s)) ++
    [EvActiveTriggers (snd <$> map_to_list (activeTriggers s)) : Event]).
  { unfold triggerEmitAll, triggerUpdate, passEvents. destruct (emitTimeout s); reflexivity. }
  split.
  { unfold timerFires, emitChanges. cbn [emittedEvents].
    unfold triggerEmitAll, triggerUpdate, passEvents. destruct (emitTimeout s); reflexivity. }
  rewrite Hp.
  split.
  { intros id r Hr. apply elem_of_app. left. apply list_elem_of_fmap.
    exists id. unfold readProperty. rewrite Hr. split; [reflexivity|]. apply elem_of_elements.
    apply elem_of_union. left. apply elem_of_dom. eauto. }
  split.
  { intros id r Hr. apply elem_of_app. right. apply elem_of_app. left. apply list_elem_of_fmap.
    exists id. unfold readProperty. rewrite Hr. split; [reflexivity|]. apply elem_of_elements.
    apply elem_of_union. left. apply elem_of_dom. eauto. }
  split.
  { intros id r Hr. do 2 (apply elem_of_app; right). apply elem_of_app. left.
    apply list_elem_of_fmap.
    exists id. rewrite Hr. split; [reflexivity|]. apply elem_of_elements.
    apply elem_of_union. left. apply elem_of_dom. eauto. }
  split.
  { do 4 (apply elem_of_app; right). apply list_elem_of_singleton. reflexivity. }
  split.
  { intros id t Hin.
    repeat (apply elem_of_app in Hin as [Hin | Hin]);
      try (apply list_elem_of_fmap in Hin as (x & Hx & Hel); try discriminate).
    - injection Hx as -> _. apply elem_of_elements in Hel. exact Hel.
    - apply list_elem_of_singleton in Hin. discriminate. }
  unfold timerFires, emitChanges, triggerEmitAll, triggerUpdate.
  destruct (emitTimeout s); cbn; auto.
Qed.

(** X6. [resetPeripheralTriggerStatuses(bridgeId)] removes the triggers of
    the bridge, and only those, from [allTriggers] and [activeTriggers];
    a removed trigger is no longer marked as changed (no [allTrigger] event
    will tell of the removal); when an active trigger was removed,
    [activeTriggersHasChanged] is set. It arms no timer and emits nothing. *)
Theorem reset_forgets_the_bridge (bridgeId : string) (s : SessionHandler) :
  let s' := resetPeripheralTriggerStatuses bridgeId s in
  (forall id t, allTriggers s' !! id = Some t
                <-> allTriggers s !! id = Some t /\ trigger_bridgeId t <> bridgeId)
  /\ (forall id t, activeTriggers s' !! id = Some t
                   <-> activeTriggers s !! id = Some t /\ trigger_bridgeId t <> bridgeId)
  /\ (forall id t, allTriggers s !! id = Some t -> trigger_bridgeId t = bridgeId ->
                   id ∉ allTriggersHasChanged s')
  /\ (activeTriggers s' <> activeTriggers s -> activeTriggersHasChanged s' = true)
  /\ emitTimeout s' = emitTimeout s
  /\ timersSet s' = timersSet s
  /\ emittedEvents s' = emittedEvents s.
Proof.
  intros s'. subst s'. unfold resetPeripheralTriggerStatuses. cbn.
  split; [|split; [|split; [|split]]].
  - intros id t. rewrite map_lookup_filter_Some. cbn. tauto.
  - intros id t. rewrite map_lookup_filter_Some. cbn. tauto.
  - intros id t Hl Hb Hin. apply elem_of_difference in Hin as [_ Hn]. apply Hn.
    apply elem_of_dom. exists t. apply map_lookup_filter_Some. auto.
  - intros Hne.
    destruct (existsb _ _) eqn:E; [reflexivity|]. exfalso. apply Hne.
    apply map_filter_id. intros id t Hl. cbn. intros Hb.
    assert (Hex : existsb (fun kv : string * ActiveTrigger =>
                     String.eqb (trigger_bridgeId kv.2) bridgeId)
                    (map_to_list (activeTriggers s)) = true).
    { apply existsb_exists. exists (id, t). split.
      - apply list_elem_of_In. apply elem_of_map_to_list. exact Hl.
      - cbn. apply String.eqb_eq. exact Hb. }
    congruence.
  - auto.
Qed.

Lemma updateResource_fields id r (s : SessionHandler) :
  resources (updateResource id r s)
    = match r with Some x => <[id := x]> (resources s) | None => delete id (resources s) end
  /\ resourcesHasChanged (updateResource id r s) = {[id]} ∪ resourcesHasChanged s
  /\ bridgeStatuses (updateResource id r s) = bridgeStatuses s
  /\ peripherals (updateResource id r s) = peripherals s
  /\ allTriggers (updateResource id r s) = allTriggers s
  /\ activeTriggers (updateResource id r s) = activeTriggers s
  /\ emittedEvents (updateResource id r s) = emittedEvents s
  /\ emitTimeout (updateResource id r s) = true.
Proof.
  unfold updateResource.
  match goal with |- context [triggerUpdate ?x] =>
    destruct (triggerUpdate_effects x) as (-> & -> & _ & -> & -> & -> & -> & ->);
    destruct (triggerUpdate_marks x) as (-> & _) end.
  cbn. destruct r; repeat split.
Qed.

Lemma updatePeripheralTriggerStatus_fields bridgeId deviceId identifier0 down (s : SessionHandler) :
  let key := bridgeId +:+ "-" +:+ deviceId +:+ "-" +:+ identifier0 in
  let trigger :=
    mkActiveTrigger key bridgeId deviceId
      (match peripherals s !! (bridgeId +:+ "-" +:+ deviceId) with
       | Some d => peripheral_name d | None => "" end) identifier0 in
  let s' := updatePeripheralTriggerStatus bridgeId deviceId identifier0 down s in
  allTriggers s' = match allTriggers s !! key with
                   | None => <[key := trigger]> (allTriggers s)
                   | Some _ => allTriggers s
                   end
  /\ activeTriggers s' = (if down then
                            match activeTriggers s !! key with
                            | None => <[key := trigger]> (activeTriggers s)
                            | Some _ => activeTriggers s
                            end
                          else delete key (activeTriggers s))
  /\ activeTriggersHasChanged s'
     = (if down then
          match activeTriggers s !! key with None => true | Some _ => activeTriggersHasChanged s end
        else
          match activeTriggers s !! key with Some _ => true | None => activeTriggersHasChanged s end)
  /\ peripherals s' = peripherals s.
Proof.
  intros key trigger s'. subst s'. unfold updatePeripheralTriggerStatus. fold key. fold trigger.
  destruct (allTriggers s !! key) eqn:Eall;
    destruct down; destruct (activeTriggers s !! key) eqn:Eact;
    match goal with |- context [triggerUpdate ?x] =>
      destruct (triggerUpdate_effects x) as (_ & _ & _ & _ & _ & -> & -> & ->);
      destruct (triggerUpdate_marks x) as (_ & _ & _ & _ & -> & _) end; cbn;
    repeat split; try reflexivity; symmetry; apply delete_id; exact Eact.
Qed.

(** X7. Press, then release. After a key is reported down it is among the
    active triggers; after it is then reported up, the active triggers are
    those from before the press without that key, [activeTriggersHasChanged]
    is set, the key is known in [allTriggers], and no other entry of
    [allTriggers] has changed. *)
Theorem press_then_release (bridgeId deviceId identifier0 : string) (s : SessionHandler) :
  let key := bridgeId +:+ "-" +:+ deviceId +:+ "-" +:+ identifier0 in
  let s1 := updatePeripheralTriggerStatus bridgeId deviceId identifier0 true s in
  let s2 := updatePeripheralTriggerStatus bridgeId deviceId identifier0 false s1 in
  is_Some (activeTriggers s1 !! key)
  /\ activeTriggers s2 = delete key (activeTriggers s)
  /\ activeTriggersHasChanged s2 = true
  /\ is_Some (allTriggers s2 !! key)
  /\ (forall k, k <> key -> allTriggers s2 !! k = allTriggers s !! k).
Proof.
  intros key s1 s2.
  destruct (updatePeripheralTriggerStatus_fields bridgeId deviceId identifier0 true s)
    as (Hall1 & Hact1 & _ & Hper1).
  destruct (updatePeripheralTriggerStatus_fields bridgeId deviceId identifier0 false s1)
    as (Hall2 & Hact2 & Hch2 & _).
  fold key in Hall1, Hact1, Hall2, Hact2, Hch2. fold s1 in Hall1, Hact1. fold s2 in Hall2, Hact2, Hch2.
  assert (Hs1 : is_Some (activeTriggers s1 !! key)).
  { rewrite Hact1. destruct (activeTriggers s !! key) eqn:E; [rewrite E; eauto|].
    rewrite lookup_insert_eq. eauto. }
  assert (Ha1 : is_Some (allTriggers s1 !! key)).
  { rewrite Hall1. destruct (allTriggers s !! key) eqn:E; [rewrite E; eauto|].
    rewrite lookup_insert_eq. eauto. }
  split; [exact Hs1|]. split; [|split; [|split]].
  - rewrite Hact2, Hact1. destruct (activeTriggers s !! key) eqn:E; [reflexivity|].
    rewrite delete_insert_eq. reflexivity.
  - rewrite Hch2. destruct Hs1 as [x ->]. reflexivity.
  - rewrite Hall2. destruct Ha1 as [x Hx]. rewrite Hx. eauto.
  - intros k Hk. rewrite Hall2. destruct Ha1 as [x Hx]. rewrite Hx, Hall1.
    destruct (allTriggers s !! key); [reflexivity|]. apply lookup_insert_ne. congruence.
Qed.

(** X8. Disconnecting keeps the time of the last connection. A peripheral
    reported connected at time [t] and then reported disconnected is held as
    not connected, with [lastConnected = t] and the name of the second
    report. *)
Theorem disconnect_keeps_last_connection (bridgeId deviceId name1 name2 : string)
    (t t' : Z) (s : SessionHandler) :
  getPeripheralStatus bridgeId deviceId
    (updatePeripheralStatus bridgeId deviceId name2 false t'
       (updatePeripheralStatus bridgeId deviceId name1 true t s))
  = Some (mkPeripheral deviceId bridgeId name2 (mkPeripheralStatus t false)).
Proof.
  pose proof (mutate_observed (updatePeripheralStatus bridgeId deviceId name1 true t s)
                (UpdatePeripheralStatus bridgeId deviceId name2 false t')) as H2.
  pose proof (mutate_observed s (UpdatePeripheralStatus bridgeId deviceId name1 true t)) as H1.
  cbn [observed mutate] in H1, H2.
  rewrite H2, H1. reflexivity.
Qed.

(** *** The bridge callback *)

Abbreviation addOrUpdate := (SessionRest.addOrUpdate (BridgeStatus := BridgeStatus) resource_id).
Abbreviation removeMissing := (SessionRest.removeMissing (ResourceAny := ResourceAny) (BridgeStatus := BridgeStatus)).
Abbreviation updatedResources :=
  (SessionRest.updatedResources (BridgeStatus := BridgeStatus) resource_deviceId resource_id).
Abbreviation getResourceIds :=
  (SessionRest.getResourceIds (BridgeStatus := BridgeStatus) resource_deviceId).
Abbreviation synced := (SessionRest.synced resource_deviceId resource_id).

Lemma last_cons_filter {A} (x : A) (l : list A) :
  last (x :: l) = match last l with Some y => Some y | None => Some x end.
Proof. apply last_cons. Qed.

Lemma addOrUpdate_lookup (s : SessionHandler) (r : ResourceAny) id :
  resources (addOrUpdate s r) !! id
  = if decide (resource_id r = id) then Some r else resources s !! id.
Proof.
  unfold SessionRest.addOrUpdate, getResource. case_decide as Heq.
  - apply readProperty_Own in Heq.
    case_decide as Hid; [subst id; exact Heq | reflexivity].
  - destruct (updateResource_fields (resource_id r) (Some r) s) as (-> & _).
    case_decide as Hid; [subst id; apply lookup_insert_eq | apply lookup_insert_ne; exact Hid].
Qed.

Lemma added_lookup (rs : list ResourceAny) : forall (s : SessionHandler) id,
  resources (foldl addOrUpdate s rs) !! id
  = match last (filter (fun r => resource_id r = id) rs) with
    | Some r => Some r
    | None => resources s !! id
    end.
Proof.
  induction rs as [|r rs IH]; intros s id; [reflexivity|].
  cbn [foldl]. rewrite IH, addOrUpdate_lookup.
  rewrite filter_cons. case_decide as Hid.
  - rewrite last_cons_filter. destruct (last _); reflexivity.
  - reflexivity.
Qed.

Lemma removeMissing_lookup N (s : SessionHandler) k id :
  resources (removeMissing N s k) !! id
  = if decide (k = id /\ id ∉ N) then None else resources s !! id.
Proof.
  unfold SessionRest.removeMissing. case_decide as Hin.
  - case_decide as Hc; [destruct Hc as [-> Hn]; contradiction | reflexivity].
  - destruct (updateResource_fields k None s) as (-> & _).
    case_decide as Hc.
    + destruct Hc as [-> _]. apply lookup_delete_eq.
    + apply lookup_delete_ne. intros ->. apply Hc. auto.
Qed.

Lemma removed_lookup N (L : list string) : forall (s : SessionHandler) id,
  resources (foldl (removeMissing N) s L) !! id
  = if decide (id ∈ L /\ id ∉ N) then None else resources s !! id.
Proof.
  induction L as [|k L IH]; intros s id.
  - cbn. case_decide as Hc; [destruct Hc as [Hc _]; inversion Hc | reflexivity].
  - cbn [foldl]. rewrite IH, removeMissing_lookup.
    destruct (decide (id ∈ L /\ id ∉ N)) as [[H1 H2]|Hn].
    + rewrite decide_True; [reflexivity|]. split; [by right | exact H2].
    + destruct (decide (k = id /\ id ∉ N)) as [[-> H2]|Hk].
      * rewrite decide_True; [reflexivity|]. split; [by left | exact H2].
      * rewrite decide_False; [reflexivity|].
        intros [Hin H2]. apply elem_of_cons in Hin as [->|Hin]; [apply Hk | apply Hn]; auto.
Qed.

Lemma elem_of_getResourceIds deviceId (s : SessionHandler) id :
  id ∈ getResourceIds deviceId s
  <-> exists r, resources s !! id = Some r /\ resource_deviceId r = deviceId.
Proof.
  unfold SessionRest.getResourceIds. rewrite list_elem_of_fmap. split.
  - intros ([k r] & -> & Hin). apply list_elem_of_filter in Hin as [Hd Hin].
    apply elem_of_map_to_list in Hin. exists r. auto.
  - intros (r & Hl & Hd). exists (id, r). split; [reflexivity|].
    apply list_elem_of_filter. split; [exact Hd|]. apply elem_of_map_to_list. exact Hl.
Qed.

Lemma last_filter_None {A} (P : A -> Prop) `{forall x, Decision (P x)} (l : list A) :
  last (filter P l) = None <-> forall x, x ∈ l -> ~ P x.
Proof.
  rewrite last_None. split.
  - intros Hnil x Hin HP. assert (x ∈ filter P l) as Hf by (apply list_elem_of_filter; auto).
    rewrite Hnil in Hf. inversion Hf.
  - intros Hall. destruct (filter P l) as [|y l'] eqn:E; [reflexivity|].
    assert (y ∈ filter P l) as Hf by (rewrite E; left).
    apply list_elem_of_filter in Hf as [HP Hin]. exfalso. eapply Hall; eauto.
Qed.

Lemma updatedResources_lookup (deviceId : string) (rs : list ResourceAny)
    (s : SessionHandler) (id : string) :
  resources (updatedResources deviceId rs s) !! id = synced deviceId rs (resources s) id.
Proof.
  unfold SessionRest.updatedResources, SessionRest.synced.
  rewrite removed_lookup, added_lookup.
  destruct (last (filter (fun r => resource_id r = id) rs)) as [r|] eqn:El.
  - rewrite decide_False; [reflexivity|].
    intros [_ Hn]. apply Hn. apply elem_of_list_to_set. apply list_elem_of_fmap.
    assert (r ∈ filter (fun r => resource_id r = id) rs) as Hf.
    { apply last_Some in El as [l' ->]. apply elem_of_app. right. left. }
    apply list_elem_of_filter in Hf as [Hid Hin]. exists r. auto.
  - pose proof (proj1 (last_filter_None _ _) El) as Hnone.
    destruct (resources s !! id) as [r|] eqn:Es.
    + destruct (decide (resource_deviceId r = deviceId)) as [Hd|Hd].
      * rewrite decide_True; [reflexivity|]. split.
        -- apply elem_of_getResourceIds. exists r. split; [|exact Hd].
           rewrite added_lookup, El. exact Es.
        -- intros Hin. apply elem_of_list_to_set, list_elem_of_fmap in Hin as (x & Hx & Hin).
           eapply Hnone; eauto.
      * rewrite decide_False; [reflexivity|].
        intros [Hin _]. apply elem_of_getResourceIds in Hin as (r' & Hl & Hd').
        rewrite added_lookup, El, Es in Hl. congruence.
    + case_decide; reflexivity.
Qed.

(** X9. What [updatedResources] leaves in the session. Under an id the
    session then holds the last resource of the report that carries the id;
    for an id that is not in the report, what it held before, unless that
    belonged to the reporting device, in which case nothing. [getResource]
    reads just that entry (where nothing is held, what the name reads on an
    object literal). *)
Theorem updatedResources_syncs (deviceId : string) (rs : list ResourceAny)
    (s : SessionHandler) (id : string) :
  resources (updatedResources deviceId rs s) !! id = synced deviceId rs (resources s) id
  /\ getResource id (updatedResources deviceId rs s)
     = readOwn (synced deviceId rs (resources s) id) id.
Proof.
  unfold getResource, readProperty. rewrite updatedResources_lookup. auto.
Qed.

Lemma added_fixpoint (rs : list ResourceAny) : forall s : SessionHandler,
  (forall r, r ∈ rs -> getResource (resource_id r) s = Own r) ->
  foldl addOrUpdate s rs = s.
Proof.
  induction rs as [|r rs IH]; intros s Hall; [reflexivity|].
  cbn [foldl]. assert (Hr : addOrUpdate s r = s).
  { unfold SessionRest.addOrUpdate. rewrite decide_True; [reflexivity|]. apply Hall. left. }
  rewrite Hr. apply IH. intros x Hx. apply Hall. by right.
Qed.

Lemma removed_fixpoint N (L : list string) : forall s : SessionHandler,
  (forall id, id ∈ L -> id ∈ N) -> foldl (removeMissing N) s L = s.
Proof.
  induction L as [|k L IH]; intros s Hall; [reflexivity|].
  cbn [foldl]. assert (Hr : removeMissing N s k = s).
  { unfold SessionRest.removeMissing. rewrite decide_True; [reflexivity|]. apply Hall. left. }
  rewrite Hr. apply IH. intros x Hx. apply Hall. by right.
Qed.

Lemma NoDup_fmap_elem_inj {A B} (f : A -> B) (l : list A) x y :
  NoDup (f <$> l) -> x ∈ l -> y ∈ l -> f x = f y -> x = y.
Proof.
  induction l as [|a l IH]; intros Hnd Hx Hy Hf; [inversion Hx|].
  rewrite fmap_cons in Hnd. apply NoDup_cons in Hnd as [Hna Hnd].
  apply elem_of_cons in Hx as [->|Hx]; apply elem_of_cons in Hy as [->|Hy].
  - reflexivity.
  - exfalso. apply Hna. rewrite Hf. apply list_elem_of_fmap. eauto.
  - exfalso. apply Hna. rewrite <- Hf. apply list_elem_of_fmap. eauto.
  - eauto.
Qed.

(** X10. Reporting the same resources again changes nothing: with one
    resource per id in the report, a second [updatedResources] with the same
    report leaves the session as the first one left it (no new mark, no new
    timer). *)
Theorem updatedResources_twice (deviceId : string) (rs : list ResourceAny) (s : SessionHandler) :
  NoDup (resource_id <$> rs) ->
  updatedResources deviceId rs (updatedResources deviceId rs s)
  = updatedResources deviceId rs s.
Proof.
  intros Hnd. set (s' := updatedResources deviceId rs s).
  assert (Hheld : forall r, r ∈ rs -> getResource (resource_id r) s' = Own r).
  { intros r Hr. subst s'. apply readProperty_Own.
    rewrite updatedResources_lookup. unfold SessionRest.synced.
    destruct (last (filter (fun r0 => resource_id r0 = resource_id r) rs)) as [y|] eqn:El.
    - assert (y ∈ filter (fun r0 => resource_id r0 = resource_id r) rs) as Hf.
      { apply last_Some in El as [l' ->]. apply elem_of_app. right. left. }
      apply list_elem_of_filter in Hf as [Hid Hin].
      f_equal. eapply NoDup_fmap_elem_inj; eauto.
    - exfalso. eapply (proj1 (last_filter_None _ _) El); eauto. }
  unfold SessionRest.updatedResources at 1.
  rewrite (added_fixpoint rs s' Hheld).
  apply removed_fixpoint. intros id Hin.
  apply elem_of_getResourceIds in Hin as (r & Hl & Hd).
  destruct (decide (id ∈ (list_to_set (resource_id <$> rs) : gset string))) as [Hy|Hn];
    [exact Hy|]. exfalso.
  subst s'. rewrite updatedResources_lookup in Hl. unfold SessionRest.synced in Hl.
  destruct (last (filter (fun r0 => resource_id r0 = id) rs)) as [y|] eqn:El.
  - apply Hn. apply elem_of_list_to_set, list_elem_of_fmap.
    assert (y ∈ filter (fun r0 => resource_id r0 = id) rs) as Hf.
    { apply last_Some in El as [l' ->]. apply elem_of_app. right. left. }
    apply list_elem_of_filter in Hf as [Hid Hin]. eauto.
  - destruct (resources s !! id) as [r0|]; [|discriminate].
    case_decide as Hd0; [discriminate|]. congruence.
Qed.

Lemma addOrUpdate_marks (s : SessionHandler) (r : ResourceAny) id :
  id ∈ resourcesHasChanged (addOrUpdate s r)
  <-> id ∈ resourcesHasChanged s \/ (resource_id r = id /\ resources s !! id <> Some r).
Proof.
  unfold SessionRest.addOrUpdate, getResource. rewrite (decide_ext _ _ _ _ (readProperty_Own _ _ _)).
  case_decide as Heq.
  - split; [auto|]. intros [H0|[<- Hne]]; [exact H0 | contradiction].
  - destruct (updateResource_fields (resource_id r) (Some r) s) as (_ & -> & _).
    rewrite elem_of_union, elem_of_singleton. split.
    + intros [->|H0]; auto.
    + intros [H0|[<- _]]; auto.
Qed.

Lemma added_marks (rs : list ResourceAny) : forall (s : SessionHandler) id,
  NoDup (resource_id <$> rs) ->
  id ∈ resourcesHasChanged (foldl addOrUpdate s rs)
  <-> id ∈ resourcesHasChanged s
      \/ exists r, r ∈ rs /\ resource_id r = id /\ resources s !! id <> Some r.
Proof.
  induction rs as [|r rs IH]; intros s id Hnd.
  - cbn. split; [auto|]. intros [H0|(r & Hr & _)]; [exact H0 | inversion Hr].
  - rewrite fmap_cons in Hnd. apply NoDup_cons in Hnd as [Hna Hnd].
    cbn [foldl]. rewrite (IH _ _ Hnd), addOrUpdate_marks. split.
    + intros [[H0|[Hid Hne]]|(x & Hx & Hid & Hne)].
      * auto.
      * right. exists r. split; [left|]. auto.
      * right. exists x. split; [by right|]. split; [exact Hid|].
        rewrite addOrUpdate_lookup in Hne. rewrite decide_False in Hne; [exact Hne|].
        intros Hr. apply Hna. rewrite Hr, <- Hid. apply list_elem_of_fmap. eauto.
    + intros [H0|(x & Hx & Hid & Hne)]; [auto|].
      apply elem_of_cons in Hx as [->|Hx]; [auto|].
      right. exists x. split; [exact Hx|]. split; [exact Hid|].
      rewrite addOrUpdate_lookup. rewrite decide_False; [exact Hne|].
      intros Hr. apply Hna. rewrite Hr, <- Hid. apply list_elem_of_fmap. eauto.
Qed.

Lemma removed_marks N (L : list string) : forall (s : SessionHandler) id,
  id ∈ resourcesHasChanged (foldl (removeMissing N) s L)
  <-> id ∈ resourcesHasChanged s \/ (id ∈ L /\ id ∉ N).
Proof.
  induction L as [|k L IH]; intros s id.
  - cbn. split; [auto|]. intros [H0|[Hin _]]; [exact H0 | inversion Hin].
  - cbn [foldl]. rewrite IH. unfold SessionRest.removeMissing. case_decide as Hk.
    + split.
      * intros [H0|[Hin Hn]]; [auto|]. right. split; [by right | exact Hn].
      * intros [H0|[Hin Hn]]; [auto|].
        apply elem_of_cons in Hin as [->|Hin]; [contradiction | auto].
    + destruct (updateResource_fields k None s) as (_ & -> & _).
      rewrite elem_of_union, elem_of_singleton. split.
      * intros [[->|H0]|[Hin Hn]]; [right; split; [left | exact Hk] | auto |].
        right. split; [by right | exact Hn].
      * intros [H0|[Hin Hn]]; [auto|].
        apply elem_of_cons in Hin as [->|Hin]; auto.
Qed.

(** X11. With one resource per id in the report, [updatedResources] marks for
    the next emission pass exactly the ids under which the session now holds
    something else than before (besides the ids that were marked already). *)
Theorem updatedResources_marks_changes (deviceId : string) (rs : list ResourceAny)
    (s : SessionHandler) (id : string) :
  NoDup (resource_id <$> rs) ->
  id ∈ resourcesHasChanged (updatedResources deviceId rs s)
  <-> id ∈ resourcesHasChanged s
      \/ getResource id (updatedResources deviceId rs s) <> getResource id s.
Proof.
  intros Hnd. unfold getResource, readProperty. rewrite readOwn_ne, updatedResources_lookup.
  unfold SessionRest.updatedResources, SessionRest.synced.
  rewrite removed_marks, (added_marks _ _ _ Hnd).
  destruct (last (filter (fun r => resource_id r = id) rs)) as [y|] eqn:El.
  - assert (y ∈ filter (fun r0 => resource_id r0 = id) rs) as Hf.
    { apply last_Some in El as [l' ->]. apply elem_of_app. right. left. }
    apply list_elem_of_filter in Hf as [Hid Hin].
    assert (HN : id ∈ (list_to_set (resource_id <$> rs) : gset string)).
    { apply elem_of_list_to_set, list_elem_of_fmap. eauto. }
    split.
    + intros [[H0|(r & Hr & Hrid & Hne)]|[_ Hn]]; [auto| |contradiction].
      right. assert (r = y) as -> by (eapply NoDup_fmap_elem_inj; eauto; congruence).
      congruence.
    + intros [H0|Hne]; [auto|]. left. right. exists y. split; [exact Hin|].
      split; [exact Hid|]. congruence.
  - pose proof (proj1 (last_filter_None _ _) El) as Hnone.
    assert (HN : id ∉ (list_to_set (resource_id <$> rs) : gset string)).
    { intros Hin. apply elem_of_list_to_set, list_elem_of_fmap in Hin as (x & Hx & Hin).
      eapply Hnone; eauto. }
    assert (HL : id ∈ getResourceIds deviceId (foldl addOrUpdate s rs)
                 <-> exists r, resources s !! id = Some r /\ resource_deviceId r = deviceId).
    { rewrite elem_of_getResourceIds, added_lookup, El. reflexivity. }
    split.
    + intros [[H0|(r & Hr & Hrid & _)]|[Hin _]]; [auto| exfalso; eapply Hnone; eauto |].
      right. apply HL in Hin as (r & -> & Hd). rewrite decide_True by exact Hd. discriminate.
    + intros [H0|Hne]; [auto|]. right. split; [|exact HN]. apply HL.
      destruct (resources s !! id) as [r|]; [|contradiction].
      destruct (decide (resource_deviceId r = deviceId)); [eauto | contradiction].
Qed.

End SessionRestFacts.
End SessionRestFacts.

Module SessionRestExamples.
Import Session SessionRest SessionRestFacts.
Import SessionSamples.

Lemma updatedResources_twice_witness :
  updatedResources snd fst "casparcg" reported afterReport = afterReport.
Proof.
  apply (updatedResources_twice snd fst "casparcg" reported stale).
  apply (bool_decide_unpack _). vm_compute. exact I.
Defined.

Lemma updatedResources_marks_changes_witness :
  "old" ∈ resourcesHasChanged afterReport /\ "amb" ∈ resourcesHasChanged afterReport.
Proof.
  assert (Hnd : NoDup (fst <$> reported)) by (apply (bool_decide_unpack _); vm_compute; exact I).
  split.
  - apply (updatedResources_marks_changes snd fst "casparcg" reported stale "old" Hnd).
    right. vm_compute. discriminate.
  - apply (updatedResources_marks_changes snd fst "casparcg" reported stale "amb" Hnd).
    right. vm_compute. discriminate.
Defined.

End SessionRestExamples.

(** ** Edit commands and their undo *)

Module UndoFacts.
Import Js Model Commands CommandFacts GroupCommands.
Open Scope cmd_scope.

Section UndoFacts.

Variable updateTimeline : Group -> option GroupPreparedPlayData.
Variable updateGroupPlayingParts : Group -> Group.
Variable postProcessPart : Part -> Part.
Variable getPositionFromTarget : MoveTarget -> list string -> Z.
Variable shortID : nat -> string.
Variable getDefaultGroup : Group.
Variable getDefaultPart : Part.

Lemma changeFirst_twice {A} (hit : A -> bool) (f g : A -> A) (l : list A) :
  (forall x, hit x = true -> hit (f x) = true) ->
  changeFirst hit g (changeFirst hit f l) = changeFirst hit (fun x => g (f x)) l.
Proof.
  intros Hf. induction l as [|a l IH]; cbn; [reflexivity|].
  destruct (hit a) eqn:Ha; cbn.
  - by rewrite (Hf a Ha).
  - by rewrite Ha, IH.
Qed.

Lemma changeFirst_fixed {A} (hit : A -> bool) (f : A -> A) (l : list A) x :
  find hit l = Some x -> f x = x -> changeFirst hit f l = l.
Proof.
  induction l as [|a l IH]; cbn; [discriminate|].
  destruct (hit a); [intros [= ->] ->; reflexivity|]. intros H1 H2. by rewrite IH.
Qed.

Lemma changeGroup_twice w rundownId groupId (f g : Group -> Group) :
  (forall x, group_id x = groupId -> group_id (f x) = groupId) ->
  changeGroup rundownId groupId g (changeGroup rundownId groupId f w)
  = changeGroup rundownId groupId (fun x => g (f x)) w.
Proof.
  intros Hid. unfold changeGroup, setWorldRundowns. cbn. f_equal.
  rewrite alter_alter_eq. apply alter_ext. intros r _. cbn. unfold setGroups. cbn. f_equal.
  apply changeFirst_twice. intros x Hx. apply String.eqb_eq in Hx. apply String.eqb_eq. auto.
Qed.

Lemma changeGroup_fixed w rundownId r groupId g0 (f : Group -> Group) :
  rundowns w !! rundownId = Some r -> findGroup r groupId = Some g0 -> f g0 = g0 ->
  changeGroup rundownId groupId f w = w.
Proof.
  intros Hr Hg Hf. unfold changeGroup. rewrite alter_id; [apply world_eta|].
  intros x Hx. rewrite Hr in Hx. injection Hx as <-.
  rewrite (changeFirst_fixed _ _ _ g0 Hg Hf). by destruct r.
Qed.

Lemma getGroup_inv w rundownId groupId r g w' :
  getGroup rundownId groupId w = Returned (r, g) w' ->
  w' = w /\ rundowns w !! rundownId = Some r /\ findGroup r groupId = Some g.
Proof.
  unfold getGroup, bind, getRundown, _getGroupOfRundown, ret, throw.
  destruct (rundowns w !! rundownId) as [r0|]; [|discriminate].
  destruct (findGroup r0 groupId) as [g0|] eqn:Hg; [|discriminate].
  intros [= -> -> ->]. auto.
Qed.

Lemma getPart_inv w rundownId groupId partId r g p w' :
  getPart rundownId groupId partId w = Returned (r, g, p) w' ->
  w' = w /\ rundowns w !! rundownId = Some r /\ findGroup r groupId = Some g
  /\ findPart g partId = Some p.
Proof.
  unfold getPart, bind.
  destruct (getGroup rundownId groupId w) as [[r0 g0] w0|] eqn:Hgg; [|discriminate].
  apply getGroup_inv in Hgg as (-> & Hr & Hg). cbn.
  destruct (findPart g0 partId) as [p0|] eqn:Hp; [|discriminate].
  unfold ret. intros [= -> -> -> ->]. auto.
Qed.

Lemma findPart_changeFirst g partId p (f : Part -> Part) :
  findPart g partId = Some p ->
  (forall x, part_id x = partId -> part_id (f x) = partId) ->
  findPart (setParts g (changeFirst (fun p => String.eqb (part_id p) partId) f (parts g))) partId
  = Some (f p).
Proof.
  intros Hp Hid. unfold findPart in *. cbn.
  rewrite find_changeFirst, Hp; [reflexivity|].
  intros x Hx. apply String.eqb_eq in Hx. apply String.eqb_eq. auto.
Qed.

(** X12. [setPartTrigger] and its undo. When the call hands back an undoable
    result, running its [undo] right after succeeds and gives back the
    rundowns as they were before the call; the rundown has then been saved
    twice. *)
Theorem setPartTrigger_undo_restores (w w1 : World) (rundownId groupId partId : string)
    (trigger : option RundownTrigger) (triggerIndex : option Z) (u : UndoableResult) :
  setPartTrigger updateTimeline updateGroupPlayingParts rundownId groupId partId
    trigger triggerIndex w = Returned (Some u) w1 ->
  exists w2,
    Ledger.resultUndo u w1 = Returned tt w2
    /\ rundowns w2 = rundowns w
    /\ updatedRundowns w2 = updatedRundowns w ++ [rundownId; rundownId].
Proof.
  unfold setPartTrigger. unfold bind at 1.
  destruct (getPart rundownId groupId partId w) as [[[r g] p] w0|] eqn:Hgp; [|discriminate].
  apply getPart_inv in Hgp as (-> & Hr & Hg & Hp). cbn [fst snd].
  destruct (locked g || part_locked p); [discriminate|].
  set (triggers' := match triggerIndex with None => _ | Some _ => _ end).
  unfold bind, _saveUpdates, ret. cbn [foldl]. intros [= <- <-]. cbn [Ledger.resultUndo undoable].
  set (hitP := fun p0 : Part => String.eqb (part_id p0) partId).
  set (f1 := fun g0 : Group => setParts g0 (changeFirst hitP (fun p0 => setTriggers p0 triggers') (parts g0))).
  assert (Hf1 : forall x, group_id x = groupId -> group_id (f1 x) = groupId) by (intros x Hx; exact Hx).
  destruct (findGroup_changeGroup w rundownId r groupId g f1 Hr Hg Hf1) as (r1 & Hr1 & Hg1).
  assert (Hp1 : findPart (f1 g) partId = Some (setTriggers p triggers')).
  { unfold f1, hitP.
    apply (findPart_changeFirst g partId p (fun p0 => setTriggers p0 triggers'));
      [exact Hp | intros x Hx; exact Hx]. }
  unfold changePart. fold hitP. fold f1.
  unfold bind.
  erewrite getPart_found; [|cbn; exact Hr1 | exact Hg1 | exact Hp1].
  eexists. split; [reflexivity|]. cbn [rundowns updatedRundowns]. split.
  - fold f1. set (f2 := fun g0 : Group => setParts g0 (changeFirst hitP (fun p0 => setTriggers p0 (part_triggers p)) (parts g0))).
    change (rundowns (changeGroup rundownId groupId f2 (changeGroup rundownId groupId f1 w)) = rundowns w).
    rewrite changeGroup_twice by exact Hf1.
    rewrite (changeGroup_fixed w rundownId r groupId g); [reflexivity | exact Hr | exact Hg |].
    unfold f2, f1. cbn. rewrite changeFirst_twice.
    2:{ intros x Hx. exact Hx. }
    rewrite (changeFirst_fixed hitP
               (fun x => setTriggers (setTriggers x triggers') (part_triggers p)) _ p Hp).
    + clear. destruct g. reflexivity.
    + clear. destruct p. reflexivity.
  - rewrite <- app_assoc. reflexivity.
Qed.

Lemma changeFirst_const {A} (hit : A -> bool) (f : A -> A) (l : list A) x :
  find hit l = Some x -> changeFirst hit f l = changeFirst hit (fun _ => f x) l.
Proof.
  induction l as [|a l IH]; cbn; [discriminate|].
  destruct (hit a); [intros [= ->]; reflexivity|]. intros H. by rewrite IH.
Qed.

Lemma changeGroup_const w rundownId r groupId g (f : Group -> Group) :
  rundowns w !! rundownId = Some r -> findGroup r groupId = Some g ->
  changeGroup rundownId groupId f w = changeGroup rundownId groupId (fun _ => f g) w.
Proof.
  intros Hr Hg. unfold changeGroup. f_equal.
  apply alter_ext. intros x Hx. rewrite Hr in Hx. injection Hx as <-. f_equal.
  apply changeFirst_const. exact Hg.
Qed.

Lemma lookupGroup_Some w rundownId groupId g :
  lookupGroup w rundownId groupId = Some g
  <-> exists r, rundowns w !! rundownId = Some r /\ findGroup r groupId = Some g.
Proof.
  unfold lookupGroup. destruct (rundowns w !! rundownId) as [r|]; cbn.
  - split; [eauto|]. by intros (r' & [= <-] & H).
  - split; [discriminate|]. by intros (r' & [=] & _).
Qed.

Lemma refreshGroup_true_twice g value :
  refreshGroup updateTimeline updateGroupPlayingParts true
    (setLocked (refreshGroup updateTimeline updateGroupPlayingParts true (setLocked g value))
       (locked g))
  = refreshGroup updateTimeline updateGroupPlayingParts true g.
Proof.
  unfold refreshGroup. destruct g as [i n t o a l d lk sc ps pp ppd]. cbn -[Nat.ltb].
  destruct (1 <? length ps)%nat eqn:E; cbn -[Nat.ltb]; rewrite ?E; reflexivity.
Qed.

(** X13. [toggleGroupLock] and its undo. On a group that is there, running
    the [undo] right after the call succeeds, and the group is then as
    before the call, except that a transparent group with more than one
    part has lost [transparent] (through [_saveUpdates]). For a group that
    is not transparent, or has at most one part, the rundowns are as before
    the call. *)
Theorem toggleGroupLock_undo_restores (w w1 : World) (rundownId groupId : string)
    (value : bool) (g : Group) (u : UndoableResult) :
  lookupGroup w rundownId groupId = Some g ->
  toggleGroupLock updateTimeline updateGroupPlayingParts rundownId groupId value w
  = Returned (Some u) w1 ->
  exists w2,
    Ledger.resultUndo u w1 = Returned tt w2
    /\ lookupGroup w2 rundownId groupId
       = Some (if (1 <? length (parts g))%nat then setTransparent g false else g)
    /\ (transparent g = false \/ (length (parts g) <= 1)%nat -> rundowns w2 = rundowns w).
Proof.
  intros Hl. apply lookupGroup_Some in Hl as (r & Hr & Hg).
  unfold toggleGroupLock. unfold bind at 1. rewrite (getGroup_found _ _ _ _ _ Hr Hg). cbn [snd].
  unfold bind at 1. unfold bind at 1. unfold _saveUpdates at 1. cbn [foldl].
  unfold ret. intros [= <- <-]. cbn [Ledger.resultUndo undoable].
  set (refresh := refreshGroup updateTimeline updateGroupPlayingParts true).
  assert (Hrid : forall x, group_id x = groupId -> group_id (refresh x) = groupId).
  { intros x <-. apply refreshGroup_true_id. }
  set (w1 := changeGroup rundownId groupId refresh
               (changeGroup rundownId groupId (fun g0 => setLocked g0 value) w)).
  assert (Hw1 : w1 = changeGroup rundownId groupId (fun x => refresh (setLocked x value)) w).
  { subst w1. apply changeGroup_twice. intros x Hx. exact Hx. }
  destruct (findGroup_changeGroup w rundownId r groupId g
              (fun x => refresh (setLocked x value)) Hr Hg) as (r1 & Hr1 & Hg1).
  { intros x Hx. apply Hrid. exact Hx. }
  rewrite <- Hw1 in Hr1.
  unfold bind at 1.
  erewrite (getGroup_found _ rundownId r1 groupId); [|exact Hr1 | exact Hg1].
  unfold bind, _saveUpdates. cbn [foldl].
  eexists. split; [reflexivity|]. cbn [rundowns].
  set (w2 := changeGroup rundownId groupId refresh
               (changeGroup rundownId groupId (fun g0 => setLocked g0 (locked g)) w1)).
  assert (Hw2 : w2 = changeGroup rundownId groupId (fun _ => refresh g) w).
  { subst w2. rewrite changeGroup_twice by (intros x Hx; exact Hx).
    rewrite Hw1. rewrite changeGroup_twice by (intros x Hx; apply Hrid; exact Hx).
    rewrite (changeGroup_const w rundownId r groupId g _ Hr Hg).
    unfold refresh. rewrite refreshGroup_true_twice. reflexivity. }
  split.
  - change (lookupGroup w2 rundownId groupId = Some (refresh g)).
    rewrite Hw2. apply lookupGroup_Some.
    destruct (findGroup_changeGroup w rundownId r groupId g (fun _ => refresh g) Hr Hg)
      as (r2 & Hr2 & Hg2).
    { intros x Hx. apply Hrid. exact (findGroup_id _ _ _ Hg). }
    eauto.
  - intros Hshape. change (rundowns w2 = rundowns w). rewrite Hw2.
    rewrite (changeGroup_fixed w rundownId r groupId g); [reflexivity | exact Hr | exact Hg |].
    unfold refresh, refreshGroup.
    destruct (Nat.ltb_spec 1 (length (parts g))) as [Hlt|Hge]; [|reflexivity].
    destruct Hshape as [Ht|Hlen]; [|lia]. destruct g. cbn in *. subst. reflexivity.
Qed.

Lemma filter_drops_last {A} (P : A -> Prop) `{forall x, Decision (P x)} (l : list A) (x : A) :
  Forall P l -> ~ P x -> filter P (l ++ [x]) = l.
Proof.
  intros Hall Hx. rewrite filter_app. cbn. rewrite decide_False by exact Hx.
  rewrite app_nil_r. induction Hall as [|a l Ha Hl IH]; [reflexivity|].
  rewrite filter_cons, decide_True by exact Ha. by rewrite IH.
Qed.

Lemma getRundown_found w rundownId r :
  rundowns w !! rundownId = Some r -> getRundown rundownId w = Returned r w.
Proof. unfold getRundown. by intros ->. Qed.

Lemma changeRundown_twice w rundownId (f g : Rundown -> Rundown) :
  changeRundown rundownId g (changeRundown rundownId f w)
  = changeRundown rundownId (fun x => g (f x)) w.
Proof. unfold changeRundown, setWorldRundowns. cbn. f_equal. apply alter_alter_eq. Qed.

Lemma changeRundown_fixed w rundownId r (f : Rundown -> Rundown) :
  rundowns w !! rundownId = Some r -> f r = r -> changeRundown rundownId f w = w.
Proof.
  intros Hr Hf. unfold changeRundown. rewrite alter_id; [apply world_eta|].
  intros x Hx. congruence.
Qed.

Lemma changeRundown_lookup w rundownId r (f : Rundown -> Rundown) :
  rundowns w !! rundownId = Some r ->
  rundowns (changeRundown rundownId f w) !! rundownId = Some (f r).
Proof. intros Hr. unfold changeRundown. cbn. by rewrite lookup_alter_eq, Hr. Qed.

(** X14. [newPart] and its undo. When the ids that [shortID] hands out are
    not in use where the part or its transparent group goes, and the call
    hands back an undoable result, then running its [undo] right after
    succeeds and gives back the rundowns as they were; the result carries
    the id of the part, and the id of the transparent group when one was
    made. *)
Theorem newPart_undo_restores (w w1 : World) (rundownId : string) (groupId : option string)
    (name : string) (u : UndoableResult) :
  idsAreNew shortID w rundownId groupId ->
  newPart updateTimeline updateGroupPlayingParts shortID getDefaultGroup getDefaultPart
    rundownId groupId name w = Returned (Some u) w1 ->
  exists w2,
    Ledger.resultUndo u w1 = Returned tt w2
    /\ rundowns w2 = rundowns w
    /\ Ledger.result u
       = VNewPart (shortID (drawnIds w))
           (match truthyString groupId with
            | Some _ => None
            | None => Some (shortID (S (drawnIds w)))
            end).
Proof.
  unfold idsAreNew, newPart. intros Hnew.
  unfold bind at 1. unfold drawId at 1. cbn [drawnIds rundowns].
  set (w0 := mkWorld (rundowns w) (updatedRundowns w) (updatedPeripherals w) (S (drawnIds w))).
  set (newPartId := shortID (drawnIds w)).
  set (newPart0 := withIdName getDefaultPart newPartId name).
  destruct (truthyString groupId) as [gid|].
  - destruct Hnew as (g & Hl & Hfresh). apply lookupGroup_Some in Hl as (r & Hr & Hg).
    unfold bind at 1. unfold getRundown at 1. cbn [rundowns w0]. rewrite Hr.
    unfold bind at 1. unfold _getGroupOfRundown. rewrite Hg. unfold ret at 1.
    destruct (locked g); [discriminate|].
    unfold bind, _saveUpdates, ret. cbn [foldl]. intros [= <- <-].
    cbn [Ledger.resultUndo Ledger.result undoable].
    set (f1 := fun g0 : Group => setParts g0 (parts g0 ++ [newPart0])).
    assert (Hr0 : rundowns w0 !! rundownId = Some r) by exact Hr.
    destruct (findGroup_changeGroup w0 rundownId r gid g f1 Hr0 Hg) as (r1 & Hr1 & Hg1).
    { intros x Hx. exact Hx. }
    erewrite (getRundown_found _ rundownId r1) by exact Hr1.
    erewrite getGroup_found; [|exact Hr1 | exact Hg1].
    eexists. split; [reflexivity|]. split; [|reflexivity]. cbn [rundowns].
    set (f2 := fun g0 : Group =>
                 setParts g0 (filter (fun p => part_id p <> newPartId) (parts g0))).
    change (rundowns (changeGroup rundownId gid f2 (changeGroup rundownId gid f1 w0))
            = rundowns w).
    rewrite changeGroup_twice by (intros x Hx; exact Hx).
    rewrite (changeGroup_fixed w0 rundownId r gid g); [reflexivity | exact Hr0 | exact Hg |].
    unfold f2, f1. cbn. rewrite filter_drops_last.
    + clear. destruct g. reflexivity.
    + apply Forall_forall. intros p Hp Heq. apply Hfresh.
      apply list_elem_of_fmap. exists p. split; [symmetry; exact Heq | exact Hp].
    + intros Hne. apply Hne. reflexivity.
  - destruct Hnew as (r & Hr & Hfresh).
    unfold bind at 1. unfold getRundown at 1. cbn [rundowns w0]. rewrite Hr.
    unfold bind at 1. unfold drawId at 1. cbn [drawnIds w0 rundowns updatedRundowns updatedPeripherals].
    set (gid := shortID (S (drawnIds w))).
    set (w0' := mkWorld (rundowns w) (updatedRundowns w) (updatedPeripherals w)
                  (S (S (drawnIds w)))).
    unfold bind, _saveUpdates, ret. cbn [foldl]. intros [= <- <-].
    cbn [Ledger.resultUndo Ledger.result undoable].
    set (newGroup0 := transparentGroup getDefaultGroup gid name [newPart0]).
    assert (Hr0 : rundowns w0' !! rundownId = Some r) by exact Hr.
    set (f1 := fun r0 : Rundown => setGroups r0 (groups r0 ++ [newGroup0])).
    erewrite (getRundown_found _ rundownId (f1 r))
      by exact (changeRundown_lookup w0' rundownId r f1 Hr0).
    eexists. split; [reflexivity|]. split; [|reflexivity]. cbn [rundowns].
    set (f2 := fun r0 : Rundown =>
                 setGroups r0 (filter (fun g => group_id g <> gid) (groups r0))).
    change (rundowns (changeRundown rundownId f2 (changeRundown rundownId f1 w0'))
            = rundowns w).
    rewrite changeRundown_twice. unfold f2, f1.
    rewrite (changeRundown_fixed w0' rundownId r); [reflexivity | exact Hr0 |].
    cbn. rewrite filter_drops_last.
    + clear. destruct r. reflexivity.
    + apply Forall_forall. intros x Hx Heq. apply Hfresh.
      apply list_elem_of_fmap. exists x. split; [symmetry; exact Heq | exact Hx].
    + intros Hne. apply Hne. reflexivity.
Qed.

(** X15. [newGroup] on an open rundown returns; the result is the id that
    [shortID] handed out; the rundown holds its groups from before followed
    by the default group with that id and the requested name, and is saved
    once. When the id was not in use in the rundown, the [undo] gives back
    the rundowns as they were. *)
Theorem newGroup_appends_and_undoes (w : World) (rundownId name : string) (r : Rundown) :
  rundowns w !! rundownId = Some r ->
  let id := shortID (drawnIds w) in
  exists u w1,
    newGroup updateTimeline updateGroupPlayingParts shortID getDefaultGroup rundownId name w
    = Returned u w1
    /\ Ledger.result u = VString id
    /\ rundowns w1 !! rundownId
       = Some (setGroups r (groups r ++ [defaultGroupNamed getDefaultGroup id name]))
    /\ updatedRundowns w1 = updatedRundowns w ++ [rundownId]
    /\ (id ∉ group_id <$> groups r ->
        exists w2, Ledger.resultUndo u w1 = Returned tt w2 /\ rundowns w2 = rundowns w).
Proof.
  intros Hr id. unfold newGroup.
  unfold bind at 1. unfold drawId at 1. cbn [drawnIds rundowns]. fold id.
  set (w0 := mkWorld (rundowns w) (updatedRundowns w) (updatedPeripherals w) (S (drawnIds w))).
  assert (Hr0 : rundowns w0 !! rundownId = Some r) by exact Hr.
  unfold bind at 1. unfold getRundown at 1. rewrite Hr0.
  unfold bind, _saveUpdates, ret. cbn [foldl].
  eexists _, _. split; [reflexivity|]. cbn [Ledger.resultUndo Ledger.result undoable].
  split; [reflexivity|]. cbn [rundowns updatedRundowns].
  split.
  { exact (changeRundown_lookup w0 rundownId r
             (fun r0 => setGroups r0 (groups r0 ++ [defaultGroupNamed getDefaultGroup id name]))
             Hr0). }
  split; [reflexivity|].
  intros Hfresh.
  set (f1 := fun r0 : Rundown =>
               setGroups r0 (groups r0 ++ [defaultGroupNamed getDefaultGroup id name])).
  erewrite (getRundown_found _ rundownId (f1 r))
    by exact (changeRundown_lookup w0 rundownId r f1 Hr0).
  eexists. split; [reflexivity|]. cbn [rundowns].
  set (f2 := fun r0 : Rundown =>
               setGroups r0 (filter (fun g => group_id g <> id) (groups r0))).
  change (rundowns (changeRundown rundownId f2 (changeRundown rundownId f1 w0))
          = rundowns w).
  rewrite changeRundown_twice. unfold f2, f1.
  rewrite (changeRundown_fixed w0 rundownId r); [reflexivity | exact Hr0 |].
  cbn. rewrite filter_drops_last.
  + clear. destruct r. reflexivity.
  + apply Forall_forall. intros x Hx Heq. apply Hfresh.
    apply list_elem_of_fmap. exists x. split; [symmetry; exact Heq | exact Hx].
  + intros Hne. apply Hne. reflexivity.
Qed.

(** *** Moving and inserting groups *)

Lemma splice_insert_perm {A} (pos : Z) (x : A) (l : list A) :
  splice pos 0 [x] l ≡ₚ x :: l.
Proof.
  unfold splice.
  set (start := if pos <? 0 then _ else _).
  assert (Hs : 0 <= start <= Z.of_nat (length l)).
  { subst start. destruct (Z.ltb_spec pos 0); lia. }
  change (Z.max 0 0) with 0. rewrite (Z.min_l 0) by lia. rewrite Z.add_0_r.
  rewrite <- (take_drop (Z.to_nat start) l) at 3.
  cbn [app]. symmetry. apply Permutation_middle.
Qed.

Lemma filter_all {A} (P : A -> Prop) `{forall x, Decision (P x)} (l : list A) :
  Forall P l -> filter P l = l.
Proof.
  induction 1 as [|a l Ha Hl IH]; [reflexivity|].
  rewrite filter_cons, decide_True by exact Ha. by rewrite IH.
Qed.

Lemma find_unique {A} (f : A -> string) (l : list A) (x : A) :
  NoDup (f <$> l) -> x ∈ l -> find (fun y => String.eqb (f y) (f x)) l = Some x.
Proof.
  induction l as [|a l IH]; intros Hnd Hin; [inversion Hin|].
  rewrite fmap_cons in Hnd. apply NoDup_cons in Hnd as [Hna Hnd]. cbn.
  destruct (String.eqb_spec (f a) (f x)) as [Heq|Hne].
  - apply elem_of_cons in Hin as [->|Hin]; [reflexivity|].
    exfalso. apply Hna. rewrite Heq. apply list_elem_of_fmap. eauto.
  - apply elem_of_cons in Hin as [->|Hin]; [contradiction|]. by apply IH.
Qed.

Lemma filter_out_perm {A} (f : A -> string) (l : list A) (x : A) :
  NoDup (f <$> l) -> x ∈ l -> l ≡ₚ x :: filter (fun y => f y <> f x) l.
Proof.
  induction l as [|a l IH]; intros Hnd Hin; [inversion Hin|].
  rewrite fmap_cons in Hnd. apply NoDup_cons in Hnd as [Hna Hnd].
  destruct (decide (f a = f x)) as [Heq|Hne].
  - assert (x = a) as ->.
    { apply elem_of_cons in Hin as [->|Hin]; [reflexivity|].
      exfalso. apply Hna. rewrite Heq. apply list_elem_of_fmap. eauto. }
    rewrite filter_cons, decide_False by (intros Hc; by apply Hc).
    rewrite filter_all; [reflexivity|].
    apply Forall_forall. intros y Hy Hc. apply Hna. rewrite <- Hc.
    apply list_elem_of_fmap. eauto.
  - apply elem_of_cons in Hin as [->|Hin]; [contradiction|].
    rewrite filter_cons, decide_True by exact Hne.
    rewrite (IH Hnd Hin) at 1. apply perm_swap.
Qed.

Lemma findGroup_is_Some r id :
  is_Some (findGroup r id) <-> id ∈ group_id <$> groups r.
Proof.
  unfold findGroup. split.
  - intros [g Hg]. apply find_some in Hg as [Hin Heq]. apply String.eqb_eq in Heq.
    apply list_elem_of_fmap. exists g. split; [by symmetry | by apply list_elem_of_In].
  - intros Hin. apply list_elem_of_fmap in Hin as (g & -> & Hin).
    destruct (find _ _) eqn:E; [eauto|]. exfalso.
    apply list_elem_of_In in Hin. eapply find_none in E; [|exact Hin].
    rewrite String.eqb_refl in E. discriminate.
Qed.

Lemma findGroup_unique r g :
  NoDup (group_id <$> groups r) -> g ∈ groups r -> findGroup r (group_id g) = Some g.
Proof. intros Hnd Hin. unfold findGroup. by apply (find_unique group_id). Qed.

Lemma moveGroupsLoop_permutes (ids : list string) : forall target r,
  NoDup (group_id <$> groups r) ->
  Forall (fun id => is_Some (findGroup r id)) ids ->
  exists r',
    moveGroupsLoop getPositionFromTarget ids target r = Returned tt r'
    /\ groups r' ≡ₚ groups r
    /\ rundown_id r' = rundown_id r
    /\ rundown_name r' = rundown_name r.
Proof.
  induction ids as [|id ids IH]; intros target r Hnd Hall.
  - exists r. cbn. auto.
  - apply Forall_cons in Hall as [[g Hg] Hall]. cbn [moveGroupsLoop]. rewrite Hg.
    assert (Hin : g ∈ groups r).
    { unfold findGroup in Hg. apply find_some in Hg as [Hin _]. by apply list_elem_of_In. }
    set (others := filter (fun g0 => group_id g0 <> group_id g) (groups r)).
    set (r2 := setGroups r (splice _ 0 [g] others)).
    assert (Hperm : groups r2 ≡ₚ groups r).
    { subst r2. cbn. rewrite splice_insert_perm. symmetry.
      apply (filter_out_perm group_id); assumption. }
    destruct (IH (TargetAfter (group_id g)) r2) as (r' & Hrun & Hp & Hi & Hn).
    + rewrite Hperm. exact Hnd.
    + eapply Forall_impl; [exact Hall|]. intros x Hx. cbn in Hx.
      apply findGroup_is_Some. rewrite Hperm. by apply findGroup_is_Some.
    + exists r'. split; [exact Hrun|]. split; [by rewrite Hp|]. split; [exact Hi | exact Hn].
Qed.

Lemma omap_findGroup r1 (l : list Group) :
  NoDup (group_id <$> groups r1) -> (forall g, g ∈ l -> g ∈ groups r1) ->
  omap (fun groupId => findGroup r1 groupId) (group_id <$> l) = l.
Proof.
  intros Hnd. induction l as [|g l IH]; intros Hall; [reflexivity|].
  cbn. rewrite (findGroup_unique r1 g Hnd) by (apply Hall; left).
  f_equal. apply IH. intros x Hx. apply Hall. by right.
Qed.

Lemma restore_order w rundownId r r1 :
  rundowns w !! rundownId = Some r ->
  NoDup (group_id <$> groups r1) ->
  (forall g, g ∈ groups r -> g ∈ groups r1) ->
  rundown_id r1 = rundown_id r -> rundown_name r1 = rundown_name r ->
  changeRundown rundownId
    (fun r0 => setGroups r0 (omap (fun groupId => findGroup r0 groupId) (group_id <$> groups r)))
    (changeRundown rundownId (fun _ => r1) w) = w.
Proof.
  intros Hr Hnd Hsub Hi Hn. rewrite changeRundown_twice.
  apply (changeRundown_fixed w rundownId r _ Hr).
  rewrite (omap_findGroup r1 (groups r) Hnd Hsub).
  destruct r, r1. cbn in *. by subst.
Qed.

(** X16. [moveGroups]. In a rundown whose groups have distinct ids, moving
    groups that are all there returns, leaves the rundown with the same
    groups in some order, saves once, and its [undo] gives back the rundowns
    as they were, wherever [getPositionFromTarget] puts the groups. *)
Theorem moveGroups_reorders (w : World) (rundownId : string) (r : Rundown)
    (groupIds : list string) (target : MoveTarget) :
  rundowns w !! rundownId = Some r ->
  NoDup (group_id <$> groups r) ->
  Forall (fun id => id ∈ group_id <$> groups r) groupIds ->
  exists u w1 r1,
    moveGroups updateTimeline updateGroupPlayingParts getPositionFromTarget
      rundownId groupIds target w = Returned u w1
    /\ rundowns w1 !! rundownId = Some r1
    /\ groups r1 ≡ₚ groups r
    /\ updatedRundowns w1 = updatedRundowns w ++ [rundownId]
    /\ exists w2, Ledger.resultUndo u w1 = Returned tt w2 /\ rundowns w2 = rundowns w.
Proof.
  intros Hr Hnd Hall.
  destruct (moveGroupsLoop_permutes groupIds target r Hnd) as (r1 & Hrun & Hp & Hi & Hn).
  { eapply Forall_impl; [exact Hall|]. intros x Hx. by apply findGroup_is_Some. }
  unfold moveGroups. unfold bind at 1. rewrite (getRundown_found w rundownId r Hr).
  unfold bind at 1. unfold onRundown. rewrite Hr, Hrun.
  unfold bind, _saveUpdates, ret. cbn [foldl].
  eexists _, _, r1. split; [reflexivity|]. cbn [rundowns updatedRundowns].
  split; [exact (changeRundown_lookup w rundownId r (fun _ => r1) Hr)|].
  split; [exact Hp|]. split; [reflexivity|].
  cbn [Ledger.resultUndo undoable].
  erewrite (getRundown_found _ rundownId r1)
    by exact (changeRundown_lookup w rundownId r (fun _ => r1) Hr).
  eexists. split; [reflexivity|]. cbn [rundowns].
  change (rundowns
            (changeRundown rundownId
               (fun r0 => setGroups r0
                  (omap (fun groupId => findGroup r0 groupId) (group_id <$> groups r)))
               (changeRundown rundownId (fun _ => r1) w)) = rundowns w).
  rewrite (restore_order w rundownId r r1); auto.
  - rewrite Hp. exact Hnd.
  - intros g Hg. rewrite Hp. exact Hg.
Qed.

Context {ResourceAny : Type}.
Variable addResourcesToTimeline :
  string -> string -> string -> list ResourceAny -> Cmd (option UndoFunction).

Abbreviation GroupToInsert := (GroupToInsert (ResourceAny := ResourceAny)).

Lemma groupCollides_same r r' (g : GroupToInsert) :
  (forall x, x ∈ groups r <-> x ∈ groups r') -> groupCollides r g = groupCollides r' g.
Proof.
  intros Hsame.
  destruct (groupCollides r g) eqn:E1; destruct (groupCollides r' g) eqn:E2; try reflexivity.
  - rewrite (groupCollides_mono r r' g) in E2; [discriminate | apply Hsame | exact E1].
  - rewrite (groupCollides_mono r' r g) in E1; [discriminate | apply Hsame | exact E2].
Qed.

Lemma fitsAll_same (batch : list GroupToInsert) : forall r r',
  (forall x, x ∈ groups r <-> x ∈ groups r') -> fitsAll r batch = fitsAll r' batch.
Proof.
  induction batch as [|g rest IH]; intros r r' Hsame; [reflexivity|].
  cbn [fitsAll]. rewrite (groupCollides_same r r' g Hsame). f_equal.
  apply IH. intros x. cbn. rewrite !elem_of_cons, Hsame. reflexivity.
Qed.

Lemma insertGroupsLoop_inserts (batch : list GroupToInsert) : forall target inserted r,
  fitsAll r batch = true ->
  exists r',
    insertGroupsLoop getPositionFromTarget batch target inserted r
    = Returned (inserted ++ ((fun g => group_id (ins_group g)) <$> batch)) r'
    /\ groups r' ≡ₚ groups r ++ (ins_group <$> batch)
    /\ rundown_id r' = rundown_id r
    /\ rundown_name r' = rundown_name r
    /\ (NoDup (group_id <$> groups r) -> NoDup (group_id <$> groups r')).
Proof.
  induction batch as [|g rest IH]; intros target inserted r Hfit.
  - exists r. cbn. rewrite !app_nil_r. auto.
  - cbn [fitsAll] in Hfit. apply andb_true_iff in Hfit as [Hg Hrest].
    apply negb_true_iff in Hg.
    rewrite insertGroupsLoop_head_fits by exact Hg.
    set (r2 := setGroups r (splice _ 0 [ins_group g] (groups r))).
    assert (Hperm : groups r2 ≡ₚ ins_group g :: groups r).
    { subst r2. cbn. apply splice_insert_perm. }
    destruct (IH (TargetAfter (group_id (ins_group g))) (inserted ++ [group_id (ins_group g)]) r2)
      as (r' & Hrun & Hp & Hi & Hn & Hnd).
    { rewrite <- Hrest. apply fitsAll_same. intros x. rewrite Hperm. reflexivity. }
    exists r'. split; [|split; [|split; [|split]]].
    + rewrite Hrun. rewrite <- app_assoc. reflexivity.
    + rewrite Hp, Hperm. rewrite fmap_cons. cbn [app]. apply Permutation_middle.
    + exact Hi.
    + exact Hn.
    + intros Hnd0. apply Hnd. rewrite Hperm. rewrite fmap_cons. apply NoDup_cons.
      split; [|exact Hnd0]. intros Hin.
      unfold groupCollides in Hg. apply orb_false_iff in Hg as [Hg _].
      apply list_elem_of_fmap in Hin as (x & Hx & Hin).
      assert (existsb (fun g' : Group => String.eqb (group_id g') (group_id (ins_group g)))
                (groups r) = true) as Hex.
      { apply existsb_exists. exists x. split; [by apply list_elem_of_In|].
        apply String.eqb_eq. by symmetry. }
      congruence.
Qed.

Lemma addResourcesOfParts_none rundownId groupId (ps : list (string * list ResourceAny)) :
  forall undos w,
  Forall (fun pr => pr.2 = []) ps ->
  addResourcesOfParts addResourcesToTimeline rundownId groupId ps undos w = Returned undos w.
Proof.
  induction ps as [|[partId resources] ps IH]; intros undos w Hall; [reflexivity|].
  apply Forall_cons in Hall as [Hr Hall]. cbn in Hr. subst resources.
  cbn [addResourcesOfParts]. cbn. by apply IH.
Qed.

Lemma addResourcesOfGroups_none rundownId (batch : list GroupToInsert) : forall undos w,
  Forall (fun g => ins_resources g = ∅) batch ->
  addResourcesOfGroups addResourcesToTimeline rundownId batch undos w = Returned undos w.
Proof.
  induction batch as [|g rest IH]; intros undos w Hall; [reflexivity|].
  apply Forall_cons in Hall as [Hg Hall]. cbn [addResourcesOfGroups]. unfold bind.
  rewrite addResourcesOfParts_none.
  - by apply IH.
  - apply Forall_forall. intros [partId resources] Hin.
    apply list_elem_of_fmap in Hin as (part & [= -> ->] & _). cbn.
    rewrite Hg, lookup_empty. reflexivity.
Qed.

(** X17. [insertGroups] on a batch that fits. When no group of the batch
    collides with the rundown as the groups before it have left it, and the
    groups bring no resources, the call returns the ids of the batch in
    order; the rundown then holds its groups from before and those of the
    batch, and is saved once. When the ids of the rundown's groups were
    distinct, the [undo] gives back the rundowns as they were. *)
Theorem insertGroups_inserts_all (w : World) (rundownId : string) (r : Rundown)
    (batch : list GroupToInsert) (target : MoveTarget) :
  rundowns w !! rundownId = Some r ->
  fitsAll r batch = true ->
  Forall (fun g => ins_resources g = ∅) batch ->
  exists u w1 r1,
    insertGroups updateTimeline updateGroupPlayingParts getPositionFromTarget
      addResourcesToTimeline rundownId batch target w = Returned u w1
    /\ Ledger.result u = VGroups ((fun g => group_id (ins_group g)) <$> batch)
    /\ rundowns w1 !! rundownId = Some r1
    /\ groups r1 ≡ₚ groups r ++ (ins_group <$> batch)
    /\ updatedRundowns w1 = updatedRundowns w ++ [rundownId]
    /\ (NoDup (group_id <$> groups r) ->
        exists w2, Ledger.resultUndo u w1 = Returned tt w2 /\ rundowns w2 = rundowns w).
Proof.
  intros Hr Hfit Hres.
  destruct (insertGroupsLoop_inserts batch target [] r Hfit)
    as (r1 & Hrun & Hp & Hi & Hn & Hnd).
  unfold insertGroups. unfold bind at 1. rewrite (getRundown_found w rundownId r Hr).
  unfold bind at 1. unfold onRundown. rewrite Hr, Hrun.
  unfold bind at 1. unfold _saveUpdates at 1. cbn [foldl].
  unfold bind at 1. rewrite addResourcesOfGroups_none by exact Hres.
  unfold ret.
  eexists _, _, r1. split; [reflexivity|]. cbn [Ledger.result Ledger.resultUndo undoable].
  split; [reflexivity|]. cbn [rundowns updatedRundowns].
  split; [exact (changeRundown_lookup w rundownId r (fun _ => r1) Hr)|].
  split; [exact Hp|]. split; [reflexivity|].
  intros Hnd0. cbn [rev runUndos]. unfold bind, ret, _saveUpdates. cbn [foldl].
  erewrite (getRundown_found _ rundownId r1)
    by exact (changeRundown_lookup w rundownId r (fun _ => r1) Hr).
  eexists. split; [reflexivity|]. cbn [rundowns].
  change (rundowns
            (changeRundown rundownId
               (fun r0 => setGroups r0
                  (omap (fun groupId => findGroup r0 groupId) (group_id <$> groups r)))
               (changeRundown rundownId (fun _ => r1) w)) = rundowns w).
  rewrite (restore_order w rundownId r r1); auto.
  intros g Hg. rewrite Hp. apply elem_of_app. by left.
Qed.

End UndoFacts.
End UndoFacts.

Module UndoExamples.
Import Js Model Commands GroupCommands UndoFacts.
Import CommandSamples EditSamples.

Lemma setPartTrigger_undo_restores_witness :
  match setPartTrigger noTimeline keepGroup "rd" "intro" "p1" (Some onF2) None
          (worldOf brunch) with
  | Returned (Some u) w1 =>
    lookupPart w1 "rd" "intro" "p1" = Some (setTriggers keyed [onF2])
    /\ exists w2, Ledger.resultUndo u w1 = Returned tt w2
                  /\ rundowns w2 = rundowns (worldOf brunch)
                  /\ lookupPart w2 "rd" "intro" "p1" = Some keyed
  | _ => False
  end.
Proof.
  destruct (setPartTrigger noTimeline keepGroup "rd" "intro" "p1" (Some onF2) None
              (worldOf brunch)) as [[u|] w1|e w1] eqn:Hcall; [|discriminate Hcall..].
  destruct (setPartTrigger_undo_restores noTimeline keepGroup (worldOf brunch) w1
              "rd" "intro" "p1" (Some onF2) None u Hcall) as (w2 & Hundo & Hsame & _).
  split.
  - injection Hcall as _ <-. reflexivity.
  - exists w2. split; [exact Hundo|]. split; [exact Hsame|].
    unfold lookupPart, lookupGroup. rewrite Hsame. reflexivity.
Defined.

Lemma toggleGroupLock_undo_restores_witness :
  match toggleGroupLock noTimeline keepGroup "rd" "intro" true (worldOf evening) with
  | Returned (Some u) w1 =>
    exists w2, Ledger.resultUndo u w1 = Returned tt w2
               /\ rundowns w2 = rundowns (worldOf evening)
  | _ => False
  end.
Proof.
  destruct (toggleGroupLock noTimeline keepGroup "rd" "intro" true (worldOf evening))
    as [[u|] w1|e w1] eqn:Hcall; [|discriminate Hcall..].
  destruct (toggleGroupLock_undo_restores noTimeline keepGroup (worldOf evening) w1
              "rd" "intro" true intro u eq_refl Hcall) as (w2 & Hundo & _ & Hsame).
  exists w2. split; [exact Hundo|]. apply Hsame. left. reflexivity.
Defined.

Lemma newPart_undo_restores_witness :
  match newPart noTimeline keepGroup numberedId blankGroup blankPart "rd" (Some "intro")
          "Weather" (worldOf evening) with
  | Returned (Some u) w1 =>
    exists w2, Ledger.resultUndo u w1 = Returned tt w2
               /\ rundowns w2 = rundowns (worldOf evening)
               /\ Ledger.result u = VNewPart "id0" None
  | _ => False
  end.
Proof.
  destruct (newPart noTimeline keepGroup numberedId blankGroup blankPart "rd" (Some "intro")
              "Weather" (worldOf evening)) as [[u|] w1|e w1] eqn:Hcall; [|discriminate Hcall..].
  destruct (newPart_undo_restores noTimeline keepGroup numberedId blankGroup blankPart
              (worldOf evening) w1 "rd" (Some "intro") "Weather" u) as (w2 & Hundo & Hsame & Hres).
  - exists intro. split; [reflexivity|].
    apply (bool_decide_unpack _). vm_compute. exact I.
  - exact Hcall.
  - exists w2. split; [exact Hundo|]. split; [exact Hsame | exact Hres].
Defined.

Lemma newGroup_appends_and_undoes_witness :
  exists u w1,
    newGroup noTimeline keepGroup numberedId blankGroup "rd" "Weather" (worldOf evening)
    = Returned u w1
    /\ rundowns w1 !! "rd"
       = Some (setGroups evening [intro; defaultGroupNamed blankGroup "id0" "Weather"])
    /\ exists w2, Ledger.resultUndo u w1 = Returned tt w2
                  /\ rundowns w2 = rundowns (worldOf evening).
Proof.
  destruct (newGroup_appends_and_undoes noTimeline keepGroup numberedId blankGroup
              (worldOf evening) "rd" "Weather" evening eq_refl)
    as (u & w1 & Hcall & _ & Hheld & _ & Hundo).
  exists u, w1. split; [exact Hcall|]. split; [exact Hheld|].
  apply Hundo. apply (bool_decide_unpack _). vm_compute. exact I.
Defined.

Lemma moveGroups_reorders_witness :
  exists u w1 r1,
    moveGroups noTimeline keepGroup atEnd "rd" ["intro"] TargetLast (worldOf twoGroups)
    = Returned u w1
    /\ rundowns w1 !! "rd" = Some r1
    /\ groups r1 ≡ₚ [intro; news]
    /\ exists w2, Ledger.resultUndo u w1 = Returned tt w2
                  /\ rundowns w2 = rundowns (worldOf twoGroups).
Proof.
  destruct (moveGroups_reorders noTimeline keepGroup atEnd (worldOf twoGroups) "rd" twoGroups
              ["intro"] TargetLast eq_refl)
    as (u & w1 & r1 & Hcall & Hheld & Hperm & _ & Hundo).
  - apply (bool_decide_unpack _). vm_compute. exact I.
  - apply (bool_decide_unpack _). vm_compute. exact I.
  - exists u, w1, r1. split; [exact Hcall|]. split; [exact Hheld|].
    split; [exact Hperm | exact Hundo].
Defined.

Lemma insertGroups_inserts_all_witness :
  exists u w1 r1,
    insertGroups noTimeline keepGroup atEnd noResources "rd" [toInsert unit news] TargetLast
      (worldOf evening) = Returned u w1
    /\ Ledger.result u = VGroups ["news"]
    /\ rundowns w1 !! "rd" = Some r1
    /\ groups r1 ≡ₚ [intro; news].
Proof.
  destruct (insertGroups_inserts_all noTimeline keepGroup atEnd noResources (worldOf evening)
              "rd" evening [toInsert unit news] TargetLast eq_refl eq_refl)
    as (u & w1 & r1 & Hcall & Hres & Hheld & Hperm & _).
  - repeat constructor.
  - exists u, w1, r1. split; [exact Hcall|]. split; [exact Hres|].
    split; [exact Hheld | exact Hperm].
Defined.

End UndoExamples.

(** ** The playout commands *)

Module PlayCommandFacts.
Import Js Model Playout Commands CommandFacts PlayCommands UndoFacts.
Open Scope cmd_scope.

Section PlayCommandFacts.

Variable getGroupPlayData : option GroupPreparedPlayData -> Z -> GroupPlayData.
Variable updateTimeline : Group -> option GroupPreparedPlayData.
Variable updateGroupPlayingParts : Group -> Group.

Abbreviation _saveUpdates := (Commands._saveUpdates updateTimeline updateGroupPlayingParts).

Lemma none_active_when_stopped now (m : gmap string PlayingPart) :
  filter (fun kv : string * PlayingPart => stopTime kv.2 = None) (stopEntry now <$> m) = ∅.
Proof.
  apply map_eq. intros k. rewrite lookup_empty. apply map_lookup_filter_None. right.
  intros e He. rewrite lookup_fmap in He.
  destruct (m !! k); [|discriminate]. injection He as <-. cbn. discriminate.
Qed.

(** X18. Stopping. On a group that has [playingParts], [stopGroup] hands to
    [_saveUpdates] the group with every entry stopped at [now], so that
    none is active; [stopPart] does the same (every entry stopped at [now])
    when the group plays one part at a time, and otherwise stops the entry
    of the part and no other. Neither touches the parts of the group. *)
Theorem stop_commands (w : World) (rundownId : string) (r : Rundown) (groupId : string)
    (g : Group) (m : gmap string PlayingPart) (partId : string) (now : Z) :
  rundowns w !! rundownId = Some r ->
  findGroup r groupId = Some g ->
  playingParts g = Some m ->
  (exists g1,
      stopGroup updateTimeline updateGroupPlayingParts rundownId groupId now w
      = _saveUpdates rundownId true [groupId] false
          (changeGroup rundownId groupId (fun _ => g1) w)
      /\ active g1 = ∅
      /\ (forall k, entries g1 !! k = stopEntry now <$> m !! k)
      /\ parts g1 = parts g)
  /\ (exists g2,
         stopPart updateTimeline updateGroupPlayingParts rundownId groupId partId now w
         = _saveUpdates rundownId true [groupId] false
             (changeGroup rundownId groupId (fun _ => g2) w)
         /\ (oneAtATime g = true ->
             active g2 = ∅ /\ forall k, entries g2 !! k = stopEntry now <$> m !! k)
         /\ (oneAtATime g = false ->
             entries g2 !! partId = stopEntry now <$> m !! partId
             /\ forall k, k <> partId -> entries g2 !! k = m !! k)
         /\ parts g2 = parts g).
Proof.
  intros Hr Hg Hm. split.
  - exists (setPlayingParts g (Some (stopEntry now <$> m))).
    split; [|split; [|split]].
    + unfold stopGroup, bind. rewrite (getGroup_found _ _ _ _ _ Hr Hg). cbn [snd].
      rewrite Hm. rewrite (changeGroup_const w rundownId r groupId g _ Hr Hg). reflexivity.
    + unfold active, entries. cbn. apply none_active_when_stopped.
    + intros k. unfold entries. cbn. apply lookup_fmap.
    + reflexivity.
  - exists (setPlayingParts g
              (Some (if oneAtATime g then stopEntry now <$> m
                     else alter (stopEntry now) partId m))).
    split; [|split; [|split]].
    + unfold stopPart, bind. rewrite (getGroup_found _ _ _ _ _ Hr Hg). cbn [snd].
      rewrite Hm. rewrite (changeGroup_const w rundownId r groupId g _ Hr Hg). reflexivity.
    + intros ->. unfold active, entries. cbn.
      split; [apply none_active_when_stopped | intros k; apply lookup_fmap].
    + intros ->. unfold entries. cbn. split.
      * apply lookup_alter_eq.
      * intros k Hk. apply lookup_alter_ne. congruence.
    + reflexivity.
Qed.

Lemma _playPart_parts g part now : parts (_playPart g part now) = parts g.
Proof. unfold _playPart. destruct (part_disabled part); reflexivity. Qed.

Lemma _playPart_mode g part now : oneAtATime (_playPart g part now) = oneAtATime g.
Proof. unfold _playPart. destruct (part_disabled part); reflexivity. Qed.

Lemma findPart_parts g g' partId : parts g' = parts g -> findPart g' partId = findPart g partId.
Proof. unfold findPart. by intros ->. Qed.

Lemma playable_parts g g' k : parts g' = parts g -> playable g' k = playable g k.
Proof. unfold playable. intros H. by rewrite (findPart_parts _ _ _ H). Qed.

Lemma findPart_id g partId p : findPart g partId = Some p -> part_id p = partId /\ p ∈ parts g.
Proof.
  unfold findPart. intros H. apply find_some in H as [Hin H].
  apply String.eqb_eq in H. split; [exact H|]. by apply list_elem_of_In.
Qed.

Lemma findPart_is_Some g p : p ∈ parts g -> is_Some (findPart g (part_id p)).
Proof.
  intros Hin. unfold findPart.
  destruct (find _ _) eqn:E; [eauto|]. exfalso.
  apply list_elem_of_In in Hin. eapply find_none in E; [|exact Hin].
  rewrite String.eqb_refl in E. discriminate.
Qed.

(** The loop of [playParts] in a group that plays its parts side by side. *)
Lemma playPartsLoop_parallel now (ids : list string) : forall g,
  oneAtATime g = false ->
  (forall id, id ∈ ids -> is_Some (findPart g id)) ->
  exists g1,
    playPartsLoop ids now g = Returned tt g1
    /\ parts g1 = parts g
    /\ oneAtATime g1 = false
    /\ forall k, entries g1 !! k
                 = if bool_decide (k ∈ ids) && playable g k then Some (started now)
                   else entries g !! k.
Proof.
  induction ids as [|id ids IH]; intros g Hmode Hall.
  - exists g. cbn. repeat split; auto.
  - cbn [playPartsLoop].
    destruct (Hall id) as [p Hp]; [left|]. rewrite Hp.
    destruct (IH (_playPart g p now)) as (g1 & Hrun & Hparts & Hm1 & Hent).
    { by rewrite _playPart_mode. }
    { intros x Hx. rewrite (findPart_parts g); [|apply _playPart_parts].
      apply Hall. by right. }
    exists g1. split; [exact Hrun|]. split; [by rewrite Hparts, _playPart_parts|].
    split; [exact Hm1|]. intros k. rewrite Hent.
    rewrite (playable_parts g (_playPart g p now)) by apply _playPart_parts.
    destruct (bool_decide (k ∈ ids)) eqn:Hk; cbn.
    + apply bool_decide_eq_true in Hk.
      rewrite (bool_decide_eq_true_2 (k ∈ id :: ids)) by (by right). cbn.
      destruct (playable g k) eqn:Hpl; [reflexivity|].
      unfold _playPart, entries, playable in *. rewrite Hmode.
      destruct (part_disabled p) eqn:Hd; [reflexivity|]. cbn.
      destruct (decide (k = id)) as [->|Hne].
      * rewrite Hp, Hd in Hpl. discriminate.
      * apply findPart_id in Hp as [Hid _]. rewrite lookup_insert_ne by congruence.
        destruct (playingParts g); reflexivity.
    + apply bool_decide_eq_false in Hk.
      unfold _playPart, entries, playable. rewrite Hmode.
      destruct (decide (k = id)) as [->|Hne].
      * rewrite (bool_decide_eq_true_2 (id ∈ id :: ids)) by left. cbn. rewrite Hp.
        destruct (part_disabled p) eqn:Hd; cbn; [reflexivity|].
        apply findPart_id in Hp as [Hid _]. rewrite Hid. apply lookup_insert_eq.
      * rewrite (bool_decide_eq_false_2 (k ∈ id :: ids)).
        2:{ intros Hin. apply elem_of_cons in Hin as [?|?]; contradiction. }
        cbn. destruct (part_disabled p) eqn:Hd; cbn; [reflexivity|].
        apply findPart_id in Hp as [Hid _]. rewrite lookup_insert_ne by congruence.
        destruct (playingParts g); reflexivity.
Qed.

(** X19. What [playGroup] plays. A disabled group: nothing, the call
    returns and the world is as before. A group that plays one part at a
    time: the group goes to [_saveUpdates] with the first part that is not
    disabled as its only entry, started at [now] (and as it was, when a
    disabled part with the same id comes before that part); without such a
    part the world is as before. Otherwise the group goes to [_saveUpdates]
    with an entry started at [now] for every part that [findPart] hands out
    as not disabled, and with its other entries as they were. *)
Theorem playGroup_plays (w : World) (rundownId : string) (r : Rundown) (groupId : string)
    (g : Group) (now : Z) :
  rundowns w !! rundownId = Some r ->
  findGroup r groupId = Some g ->
  let run := playGroup updateTimeline updateGroupPlayingParts rundownId groupId now in
  (disabled g = true -> run w = Returned tt w)
  /\ (disabled g = false -> oneAtATime g = true ->
      match find (fun p => negb (part_disabled p)) (parts g) with
      | None => run w = Returned tt w
      | Some p =>
        savesGroupAs updateTimeline updateGroupPlayingParts run rundownId groupId w
          (if playable g (part_id p)
           then setPlayingParts g (Some {[part_id p := started now]})
           else g)
      end)
  /\ (disabled g = false -> oneAtATime g = false ->
      exists g1,
        savesGroupAs updateTimeline updateGroupPlayingParts run rundownId groupId w g1
        /\ parts g1 = parts g
        /\ forall k, entries g1 !! k
                     = if playable g k then Some (started now) else entries g !! k).
Proof.
  intros Hr Hg run. subst run. unfold savesGroupAs.
  assert (Hpg : playGroup updateTimeline updateGroupPlayingParts rundownId groupId now w
    = (if disabled g then ret tt
       else if oneAtATime g then
         match find (fun p => negb (part_disabled p)) (parts g) with
         | Some part =>
           caught (playPart updateTimeline updateGroupPlayingParts rundownId groupId
                     (part_id part) now)
         | None => ret tt
         end
       else caught (playParts updateTimeline updateGroupPlayingParts rundownId groupId
                      (part_id <$> parts g) now)) w).
  { unfold playGroup. unfold bind at 1. rewrite (getGroup_found _ _ _ _ _ Hr Hg).
    reflexivity. }
  rewrite Hpg. clear Hpg.
  split; [|split].
  - intros ->. reflexivity.
  - intros -> Hmode. rewrite Hmode.
    destruct (find (fun p => negb (part_disabled p)) (parts g)) as [p|] eqn:Hfind;
      [|reflexivity].
    assert (Hin : p ∈ parts g) by (apply find_some in Hfind as [? _]; by apply list_elem_of_In).
    destruct (findPart_is_Some g p Hin) as [p' Hp'].
    unfold caught, playPart, bind.
    rewrite (getPart_found _ _ _ _ _ _ _ Hr Hg Hp'). cbn [snd].
    rewrite (changeGroup_const w rundownId r groupId g _ Hr Hg).
    unfold playable. rewrite Hp'. unfold _playPart. rewrite Hmode.
    destruct (findPart_id _ _ _ Hp') as [Hid _].
    unfold Commands._saveUpdates.
    destruct (part_disabled p'); cbn; [reflexivity|].
    rewrite Hid, insert_empty. reflexivity.
  - intros -> Hmode. rewrite Hmode.
    destruct (playPartsLoop_parallel now (part_id <$> parts g) g Hmode)
      as (g1 & Hrun & Hparts & _ & Hent).
    { intros id Hid. apply list_elem_of_fmap in Hid as (p & -> & Hin).
      by apply findPart_is_Some. }
    exists g1. split; [|split; [exact Hparts|]].
    + unfold caught, playParts, bind, onGroup, bind.
      rewrite (getGroup_found _ _ _ _ _ Hr Hg). cbn [snd]. rewrite Hrun.
      unfold Commands._saveUpdates. reflexivity.
    + intros k. rewrite Hent. destruct (playable g k) eqn:Hpl; [|by rewrite andb_false_r].
      rewrite bool_decide_eq_true_2; [reflexivity|].
      unfold playable in Hpl. destruct (findPart g k) as [p|] eqn:Hp; [|discriminate].
      apply findPart_id in Hp as [<- Hin]. apply list_elem_of_fmap. eauto.
Qed.

End PlayCommandFacts.
End PlayCommandFacts.

Module PlayCommandExamples.
Import Js Model Playout Commands GroupCommands PlayCommands PlayCommandFacts.
Import CommandSamples EditSamples.

Lemma stop_commands_witness :
  exists g1 g2,
    stopGroup noTimeline keepGroup "rd" "late" 70 (worldOf night)
    = _saveUpdates noTimeline keepGroup "rd" true ["late"] false
        (changeGroup "rd" "late" (fun _ => g1) (worldOf night))
    /\ active g1 = ∅
    /\ parts g1 = parts scheduled
    /\ stopPart noTimeline keepGroup "rd" "late" "q" 70 (worldOf night)
       = _saveUpdates noTimeline keepGroup "rd" true ["late"] false
           (changeGroup "rd" "late" (fun _ => g2) (worldOf night))
    /\ entries g2 !! "q" = Some (stopEntry 70 stoppedLater)
    /\ entries g2 !! "s" = Some (stopEntry 70 stillPlaying).
Proof.
  destruct (stop_commands noTimeline keepGroup (worldOf night) "rd" night "late" scheduled
              lateEntries "q" 70 eq_refl eq_refl eq_refl)
    as [(g1 & Hcall & Hactive & _ & Hparts) (g2 & Hcall2 & Hsolo & _)].
  destruct (Hsolo eq_refl) as [_ Hall].
  exists g1, g2. split; [exact Hcall|]. split; [exact Hactive|]. split; [exact Hparts|].
  split; [exact Hcall2|]. split; [exact (Hall "q") | exact (Hall "s")].
Defined.

Lemma playGroup_plays_witness :
  savesGroupAs noTimeline keepGroup (playGroup noTimeline keepGroup "rd" "intro" 70)
    "rd" "intro" (worldOf evening)
    (setPlayingParts intro (Some {["p1" := started 70]})).
Proof.
  destruct (playGroup_plays noTimeline keepGroup (worldOf evening) "rd" evening "intro" intro 70
              eq_refl eq_refl) as (_ & Hsolo & _).
  exact (Hsolo eq_refl eq_refl).
Defined.

End PlayCommandExamples.

(** ** Commands addressed to something that is not there *)

Module NotFoundFacts.
Import Js Model Playout Commands CommandFacts GroupCommands PlayCommands UndoFacts.
Open Scope cmd_scope.

Section NotFoundFacts.

Variable getGroupPlayData : option GroupPreparedPlayData -> Z -> GroupPlayData.
Variable updateTimeline : Group -> option GroupPreparedPlayData.
Variable updateGroupPlayingParts : Group -> Group.
Variable postProcessPart : Part -> Part.
Variable firstKey : gmap string PlayingPart -> option string.
Context {GroupPatch : Type}.
Variable has : GroupPatch -> string -> bool.
Variable deepExtend : Group -> GroupPatch -> Group.

Lemma getGroup_missing w rundownId groupId :
  lookupGroup w rundownId groupId = None ->
  exists e, getGroup rundownId groupId w = Thrown e w.
Proof.
  unfold lookupGroup, getGroup, bind, getRundown, _getGroupOfRundown, throw.
  destruct (rundowns w !! rundownId) as [r|]; cbn; [|eauto].
  intros ->. eauto.
Qed.

Lemma getPart_missing w rundownId groupId partId :
  lookupPart w rundownId groupId partId = None ->
  exists e, getPart rundownId groupId partId w = Thrown e w.
Proof.
  unfold lookupPart, getPart. intros H. unfold bind.
  destruct (lookupGroup w rundownId groupId) as [g|] eqn:Hl.
  - apply lookupGroup_Some in Hl as (r & Hr & Hg).
    rewrite (getGroup_found _ _ _ _ _ Hr Hg). cbn in *. rewrite H. unfold throw. eauto.
  - destruct (getGroup_missing _ _ _ Hl) as [e ->]. eauto.
Qed.

(** X20. A command addressed to a group that is not there (or to a rundown
    that is not open) throws, and leaves the world as it was: [stopGroup],
    [stopPart], [playGroup], [playParts], the toggles and [updateGroup]. *)
Theorem missing_group_is_rejected (w : World) (rundownId groupId partId : string)
    (partIds : list string) (now : Z) (value : bool) (patch : GroupPatch) :
  lookupGroup w rundownId groupId = None ->
  rejected (stopGroup updateTimeline updateGroupPlayingParts rundownId groupId now w) w
  /\ rejected (stopPart updateTimeline updateGroupPlayingParts rundownId groupId partId now w) w
  /\ rejected (playGroup updateTimeline updateGroupPlayingParts rundownId groupId now w) w
  /\ rejected (playParts updateTimeline updateGroupPlayingParts rundownId groupId partIds now w) w
  /\ rejected (toggleGroupLock updateTimeline updateGroupPlayingParts rundownId groupId value w) w
  /\ rejected (toggleGroupLoop updateTimeline updateGroupPlayingParts rundownId groupId value w) w
  /\ rejected (toggleGroupAutoplay updateTimeline updateGroupPlayingParts rundownId groupId
                 value w) w
  /\ rejected (toggleGroupDisable updateTimeline updateGroupPlayingParts rundownId groupId
                 value w) w
  /\ rejected (toggleGroupOneAtATime updateTimeline updateGroupPlayingParts firstKey
                 rundownId groupId value w) w
  /\ rejected (updateGroup updateTimeline updateGroupPlayingParts has deepExtend
                 rundownId groupId patch w) w.
Proof.
  intros Hl. destruct (getGroup_missing _ _ _ Hl) as [e He].
  repeat split.
  all: try (unfold stopGroup, stopPart, playGroup, toggleGroupLock, toggleGroupLoop,
              toggleGroupAutoplay, toggleGroupDisable, toggleGroupProperty,
              toggleGroupOneAtATime; unfold bind at 1; rewrite He; reflexivity).
  all: try (unfold playParts, onGroup; unfold bind at 1; unfold bind at 1; rewrite He;
            reflexivity).
  all: unfold updateGroup; unfold bind at 1; rewrite He; reflexivity.
Qed.

(** X21. A command addressed to a part that is not there throws, and leaves
    the world as it was: [playPart], [pausePart], [setPartTrigger] and
    [updatePart]. *)
Theorem missing_part_is_rejected (w : World) (rundownId groupId partId : string)
    (now clock : Z) (time : option Z) (trigger : option RundownTrigger)
    (triggerIndex : option Z) (patch : PartPatch) :
  lookupPart w rundownId groupId partId = None ->
  rejected (playPart updateTimeline updateGroupPlayingParts rundownId groupId partId now w) w
  /\ rejected (pausePart getGroupPlayData updateTimeline updateGroupPlayingParts
                 rundownId groupId partId time now clock w) w
  /\ rejected (setPartTrigger updateTimeline updateGroupPlayingParts rundownId groupId partId
                 trigger triggerIndex w) w
  /\ rejected (updatePart updateTimeline updateGroupPlayingParts postProcessPart
                 rundownId groupId partId patch w) w.
Proof.
  intros Hl. destruct (getPart_missing _ _ _ _ Hl) as [e He].
  repeat split.
  all: unfold playPart, pausePart, setPartTrigger, updatePart; unfold bind at 1; rewrite He;
       reflexivity.
Qed.

End NotFoundFacts.
End NotFoundFacts.

Module NotFoundExamples.
Import Js Model Playout Commands GroupCommands PlayCommands NotFoundFacts.
Import PlayoutSamples CommandSamples.

Lemma missing_group_is_rejected_witness :
  rejected (stopGroup noTimeline keepGroup "rd" "sports" 70 (worldOf evening)) (worldOf evening)
  /\ rejected (toggleGroupLock noTimeline keepGroup "rd" "sports" true (worldOf evening))
       (worldOf evening).
Proof.
  destruct (missing_group_is_rejected noTimeline keepGroup someKey sampleHas sampleExtend
              (worldOf evening) "rd" "sports" "p1" ["p1"] 70 true enableSchedule eq_refl)
    as (Hstop & _ & _ & _ & Hlock & _).
  split; [exact Hstop | exact Hlock].
Defined.

Lemma missing_part_is_rejected_witness :
  rejected (playPart noTimeline keepGroup "rd" "intro" "p9" 70 (worldOf evening))
    (worldOf evening)
  /\ rejected (pausePart sectionResolver noTimeline keepGroup "rd" "intro" "p9" None 70 70
                 (worldOf evening)) (worldOf evening).
Proof.
  destruct (missing_part_is_rejected sectionResolver noTimeline keepGroup keepPart
              (worldOf evening) "rd" "intro" "p9" 70 70 None None None renameAndLock eq_refl)
    as (Hplay & Hpause & _).
  split; [exact Hplay | exact Hpause].
Defined.

End NotFoundExamples.

(** ** Reading an emitted timeline *)

Module TimelineReadingFacts.
Import Model Timeline TimelineReading TimelineFacts.

Lemma TimelineObject_nested_ind (P : TimelineObject -> Prop) :
  (forall id enable layer content isGroup children keyframes,
      Forall P children -> P (mkObject id enable layer content isGroup children keyframes)) ->
  forall o, P o.
Proof.
  intros Hstep. fix IH 1. intros [id enable layer content isGroup children keyframes].
  apply Hstep. induction children as [|c cs IHcs]; constructor; [apply IH | exact IHcs].
Qed.

Lemma updateEnable_duration m e : en_duration (updateEnable m e) = Some (ENum PosInf).
Proof. reflexivity. Qed.

Lemma references_durations m (o : TimelineObject) :
  forall e, e ∈ enables (updateTimelineReferences m o) -> en_duration e = Some (ENum PosInf).
Proof.
  induction o as [id enable layer content isGroup children keyframes IH]
    using TimelineObject_nested_ind.
  intros e. cbn [updateTimelineReferences enables].
  rewrite !elem_of_app. intros [He|[He|He]].
  - unfold updateTimelineEnable in He. apply list_elem_of_fmap in He as (e0 & -> & _).
    apply updateEnable_duration.
  - apply list_elem_of_In, in_flat_map in He as (c & Hc & He).
    apply in_map_iff in Hc as (c0 & <- & Hc0).
    rewrite Forall_forall in IH. apply (IH c0); [by apply list_elem_of_In|].
    by apply list_elem_of_In.
  - apply list_elem_of_In, in_flat_map in He as (k & Hk & He).
    apply in_map_iff in Hk as (k0 & <- & Hk0). cbn in He.
    unfold updateTimelineEnable in He. apply list_elem_of_In, list_elem_of_fmap in He as (e0 & -> & _).
    apply updateEnable_duration.
Qed.

Section Emitted.
Variable modify : TimelineObject -> PreparedPart -> TimelineObj -> option Z -> TimelineObject.

Lemma changeTimelineId_frozen o c : frozen (changeTimelineId o c).1.
Proof.
  unfold changeTimelineId.
  destruct (changeTimelineIdInnerObj o (c, [])) as [o' [c' m]]. cbn.
  intros e. apply references_durations.
Qed.

Lemma changeTimelineIdInnerObj_enable o st :
  obj_enable (changeTimelineIdInnerObj o st).1 = obj_enable o.
Proof.
  destruct o as [id enable layer content isGroup children keyframes].
  cbn [changeTimelineIdInnerObj]. repeat case_match. reflexivity.
Qed.

Lemma numExpr_untouched m d : updateTimelineExpression m (numExpr d) = numExpr d.
Proof. destruct d; reflexivity. Qed.

Lemma changeTimelineId_instance objId group part start pauseTime0 stopTime0 custom c
    (section : PreparedSection) :
  start = pp_startTime part - sec_startTime section ->
  pauseTime0 = sec_pauseTime section ->
  obj_enable
    (changeTimelineId
       (partToTimelineObj modify objId group part start pauseTime0 stopTime0 custom) c).1
  = instanceEnable section part.
Proof.
  intros -> ->. unfold changeTimelineId.
  pose proof (changeTimelineIdInnerObj_enable
                (partToTimelineObj modify objId group part
                   (pp_startTime part - sec_startTime section) (sec_pauseTime section)
                   stopTime0 custom) (c, [])) as Hen.
  destruct (changeTimelineIdInnerObj _ (c, [])) as [o' [c' m]]. cbn [fst] in *.
  destruct o' as [id enable layer content isGroup children keyframes].
  cbn [obj_enable updateTimelineReferences] in *. subst enable.
  unfold partToTimelineObj, instanceEnable. cbn [obj_enable updateTimelineEnable fmap list_fmap].
  unfold updateEnable. cbn.
  destruct (sec_pauseTime section); cbn; [reflexivity|].
  destruct (part_loop (pp_part part)); cbn; [|reflexivity].
  by rewrite numExpr_untouched.
Qed.

Lemma sectionParts_instances group section custom ps : forall c,
  obj_enable <$> (sectionParts modify group section custom ps c).1
  = instanceEnable section <$> ps
  /\ Forall frozen (sectionParts modify group section custom ps c).1.
Proof.
  induction ps as [|p ps IH]; intros c; cbn [sectionParts]; [by split|].
  destruct (makeUniqueId _ _) as [objId c1].
  pose proof (changeTimelineId_instance objId group p
                (pp_startTime p - sec_startTime section) (sec_pauseTime section)
                (sec_stopTime section) custom c1 section eq_refl eq_refl) as Hen.
  pose proof (changeTimelineId_frozen
                (partToTimelineObj modify objId group p
                   (pp_startTime p - sec_startTime section) (sec_pauseTime section)
                   (sec_stopTime section) custom) c1) as Hfr.
  destruct (changeTimelineId _ c1) as [o' c2]. cbn [fst] in *.
  destruct (IH c2) as [IH1 IH2].
  destruct (sectionParts _ _ _ _ ps c2) as [rest c3]. cbn [fst] in *.
  split; [by rewrite fmap_cons, Hen, IH1 | by constructor].
Qed.

Lemma sectionToTimelineObj_under group section id layer custom c :
  under (sectionToTimelineObj modify group section id layer custom c).1
  = (sectionParts modify group section custom (sec_parts section) c).1.
Proof.
  unfold sectionToTimelineObj.
  destruct (sectionParts _ _ _ _ _ _) as [objs c'] eqn:E. cbn [fst].
  destruct objs as [|o objs]; [reflexivity|]. cbn. by rewrite !app_nil_r.
Qed.

Lemma under_app l1 l2 : under (l1 ++ l2) = under l1 ++ under l2.
Proof. unfold under. apply flat_map_app. Qed.

Lemma singleLoop_instances group custom sections : forall i st,
  let st' := singleLoop modify group custom i sections st in
  obj_enable <$> under (children st')
  = (obj_enable <$> under (children st))
    ++ flat_map (fun s => instanceEnable s <$> sec_parts s) sections
  /\ (Forall frozen (under (children st)) -> Forall frozen (under (children st'))).
Proof.
  induction sections as [|s rest IH]; intros i st; cbn zeta; cbn [singleLoop flat_map].
  - by rewrite app_nil_r.
  - pose proof (sectionToTimelineObj_under group s
                  (group_id group +:+ "_" +:+ natToString i) (group_id group) custom
                  (loopIdCount st)) as Hu.
    destruct (sectionParts_instances group s custom (sec_parts s) (loopIdCount st))
      as [Hen Hfr].
    destruct (sectionToTimelineObj _ _ _ _ _ _ _) as [objs c]. cbn [fst] in Hu.
    match goal with
    | |- context [singleLoop _ _ _ _ _ ?st2] => destruct (IH (S i) st2) as [IH1 IH2]
    end.
    cbn [children] in IH1, IH2. rewrite under_app, Hu in IH1, IH2. split.
    + rewrite IH1, fmap_app, Hen, <- app_assoc. reflexivity.
    + intros H0. apply IH2. apply Forall_app. auto.
Qed.

Lemma under_rebase first objs : under (rebaseObject first <$> objs) = under objs.
Proof.
  unfold under. induction objs as [|[id en l c g ch kf] objs IH]; [reflexivity|].
  cbn. by rewrite IH.
Qed.

Lemma multiSections_instances group custom partId sections : forall i c,
  let objs := (multiSections modify group custom partId i sections c).1 in
  obj_enable <$> flat_map (fun w => under (obj_children w)) objs
  = flat_map (fun s => instanceEnable s <$> sec_parts s) sections
  /\ Forall frozen (flat_map (fun w => under (obj_children w)) objs).
Proof.
  induction sections as [|s rest IH]; intros i c; cbn zeta; cbn [multiSections flat_map];
    [by split|].
  pose proof (sectionToTimelineObj_under group s
                (group_id group +:+ "_" +:+ partId +:+ "_" +:+ natToString i)
                (group_id group +:+ "_" +:+ partId) custom c) as Hu.
  destruct (sectionParts_instances group s custom (sec_parts s) c) as [Hen Hfr].
  destruct (sectionToTimelineObj _ _ _ _ _ _ _) as [ch c1]. cbn [fst] in Hu.
  destruct (IH (S i) c1) as [IH1 IH2].
  destruct (multiSections _ _ _ _ _ rest c1) as [rest' c2]. cbn [fst] in *.
  rewrite flat_map_app, fmap_app, IH1.
  assert (Hhead : flat_map (fun w => under (obj_children w))
                    (if (0 <? length ch)%nat
                     then [mkObject
                             ("group_" +:+ group_id group +:+ "_" +:+ partId +:+ "_"
                              +:+ natToString i)
                             [mkEnable (Some (ENum (Fin 0))) None None None None]
                             ("__group_" +:+ group_id group +:+ "_" +:+ partId)
                             EmptyContent true ch []]
                     else []) = under ch).
  { destruct ch as [|x ch]; [reflexivity|]. cbn. by rewrite app_nil_r. }
  rewrite Hhead, Hu. split; [by rewrite Hen|]. apply Forall_app. auto.
Qed.

Lemma multiLoop_instances group custom entries : forall c,
  let objs := multiLoop modify group custom entries c in
  obj_enable <$> flat_map (fun w => under (obj_children w)) objs
  = flat_map (fun s => instanceEnable s <$> sec_parts s) (flat_map snd entries)
  /\ Forall frozen (flat_map (fun w => under (obj_children w)) objs).
Proof.
  induction entries as [|[partId sections] rest IH]; intros c; cbn zeta;
    cbn [multiLoop flat_map]; [by split|].
  destruct (multiSections_instances group custom partId sections 0%nat c) as [H1 H2].
  destruct (multiSections _ _ _ _ _ sections c) as [objs c1]. cbn [fst snd] in *.
  destruct (IH c1) as [IH1 IH2].
  rewrite !flat_map_app, fmap_app, H1, IH1. split; [reflexivity|]. apply Forall_app. auto.
Qed.

Lemma emitted_instances group prepared custom timeline :
  getTimelineForGroup modify group prepared custom = Some timeline ->
  obj_enable <$> instances prepared timeline
  = flat_map (fun s => instanceEnable s <$> sec_parts s) (sectionsOf prepared)
  /\ Forall frozen (instances prepared timeline).
Proof.
  unfold getTimelineForGroup, instances, sectionsOf.
  destruct prepared as [[sections|entries]|]; [| |discriminate].
  - destruct (singleLoop_instances group custom sections 0%nat
                (mkSingleLoop PosInf (Fin 0) [] ∅)) as [H1 H2].
    cbn [children under flat_map fmap list_fmap app] in H1, H2.
    set (st := singleLoop modify group custom 0 sections (mkSingleLoop PosInf (Fin 0) [] ∅))
      in *.
    destruct (0 <? length (children st))%nat eqn:Hlen; intros [= <-].
    + unfold expansions. cbn [flat_map obj_children]. rewrite app_nil_r.
      fold (under (rebaseObject (firstStart st) <$> children st)).
      rewrite under_rebase. split; [exact H1 | apply H2; constructor].
    + destruct (children st); [|discriminate]. cbn in H1. cbn. split; [exact H1|constructor].
  - destruct (multiLoop_instances group custom entries ∅) as [H1 H2].
    set (ch := multiLoop modify group custom entries ∅) in *.
    destruct (0 <? length ch)%nat eqn:Hlen; intros [= <-].
    + cbn [flat_map obj_children]. rewrite app_nil_r. unfold expansions.
      split; [exact H1 | exact H2].
    + destruct ch; [|discriminate]. cbn in H1. cbn. split; [exact H1|constructor].
Qed.

(** X22. Durations. In an emitted timeline, every enable of a part instance
    and of the objects and keyframes below it has the duration [Infinity],
    whatever the part and its timeline objects asked for. *)
Theorem emitted_durations_are_infinite (group : Group)
    (prepared : option GroupPreparedPlayData) (custom : option CustomPartContent)
    (timeline : list TimelineObject) (instance : TimelineObject) (e : TimelineEnable) :
  getTimelineForGroup modify group prepared custom = Some timeline ->
  instance ∈ instances prepared timeline ->
  e ∈ enables instance ->
  en_duration e = Some (ENum PosInf).
Proof.
  intros Hget Hin He. destruct (emitted_instances group prepared custom timeline Hget)
    as [_ Hfr].
  rewrite Forall_forall in Hfr. exact (Hfr instance Hin e He).
Qed.

(** X23. The enables of the part instances. An emitted timeline holds one
    instance per prepared part, in the order of the prepared data; its
    enable starts at the start of the part counted from the start of its
    section, has the duration [Infinity], and repeats with the resolved
    duration of the part when the part loops and the section is not
    paused. *)
Theorem emitted_instance_enables (group : Group)
    (prepared : option GroupPreparedPlayData) (custom : option CustomPartContent)
    (timeline : list TimelineObject) :
  getTimelineForGroup modify group prepared custom = Some timeline ->
  obj_enable <$> instances prepared timeline
  = flat_map (fun s => instanceEnable s <$> sec_parts s) (sectionsOf prepared).
Proof. intros Hget. by destruct (emitted_instances group prepared custom timeline Hget). Qed.

End Emitted.

(** *** The id rewrite *)

Lemma shape_references m (o : TimelineObject) : shape (updateTimelineReferences m o) = shape o.
Proof.
  induction o as [id enable layer content isGroup children keyframes IH]
    using TimelineObject_nested_ind.
  cbn [updateTimelineReferences shape]. f_equal.
  - rewrite map_map. apply map_ext_Forall. exact IH.
  - rewrite map_map. reflexivity.
Qed.

Lemma objectIds_references m (o : TimelineObject) :
  objectIds (updateTimelineReferences m o) = objectIds o.
Proof.
  induction o as [id enable layer content isGroup children keyframes IH]
    using TimelineObject_nested_ind.
  cbn [updateTimelineReferences objectIds]. f_equal. f_equal.
  - induction IH as [|c cs Hc Hcs IHcs]; [reflexivity|]. cbn. by rewrite Hc, IHcs.
  - rewrite map_map. reflexivity.
Qed.

Lemma changeKeyframes_spec kfs : forall st,
  map kf_content (changeKeyframes kfs st).1 = map kf_content kfs
  /\ map kf_id (changeKeyframes kfs st).1 = (renameAll (map kf_id kfs) st.1).1
  /\ (changeKeyframes kfs st).2.1 = (renameAll (map kf_id kfs) st.1).2.
Proof.
  induction kfs as [|kf kfs IH]; intros st; cbn [changeKeyframes map renameAll]; [by repeat split|].
  unfold changeTimelineIdInnerKeyframe.
  destruct (getUniqueId (kf_id kf) st.1) as [newId c1]. cbn [kf_id].
  specialize (IH (c1, mapSet newId newId st.2)). cbn [fst] in IH.
  destruct (changeKeyframes kfs _) as [rest st2].
  destruct (renameAll (map kf_id kfs) c1) as [ids c2]. cbn [fst snd] in *.
  destruct IH as (IH1 & IH2 & IH3). cbn. by rewrite IH1, IH2, IH3.
Qed.

Lemma renameAll_app l1 l2 c :
  renameAll (l1 ++ l2) c
  = let '(a, c1) := renameAll l1 c in
    let '(b, c2) := renameAll l2 c1 in (a ++ b, c2).
Proof.
  revert c. induction l1 as [|id l1 IH]; intros c; cbn [renameAll app].
  - by destruct (renameAll l2 c).
  - destruct (getUniqueId id c) as [id' c1]. rewrite IH.
    destruct (renameAll l1 c1) as [a c2]. by destruct (renameAll l2 c2).
Qed.

Lemma changeTimelineIdInnerObj_unfold id enable layer content isGroup children keyframes st :
  changeTimelineIdInnerObj (mkObject id enable layer content isGroup children keyframes) st
  = let '(newId, idCount) := getUniqueId id st.1 in
    let '(children', st2) :=
      changeChildren changeTimelineIdInnerObj children (idCount, mapSet id newId st.2) in
    let '(keyframes', st3) := changeKeyframes keyframes st2 in
    (mkObject newId enable layer content isGroup children' keyframes', st3).
Proof. reflexivity. Qed.

Lemma changeTimelineIdInnerObj_spec (o : TimelineObject) : forall st,
  shape (changeTimelineIdInnerObj o st).1 = shape o
  /\ objectIds (changeTimelineIdInnerObj o st).1 = (renameAll (objectIds o) st.1).1
  /\ (changeTimelineIdInnerObj o st).2.1 = (renameAll (objectIds o) st.1).2.
Proof.
  induction o as [id enable layer content isGroup children keyframes IH]
    using TimelineObject_nested_ind.
  intros st. rewrite changeTimelineIdInnerObj_unfold. cbn [objectIds renameAll].
  destruct (getUniqueId id st.1) as [newId c1].
  assert (Hwalk : forall s,
    map shape (changeChildren changeTimelineIdInnerObj children s).1 = map shape children
    /\ flat_map objectIds (changeChildren changeTimelineIdInnerObj children s).1
       = (renameAll (flat_map objectIds children) s.1).1
    /\ (changeChildren changeTimelineIdInnerObj children s).2.1
       = (renameAll (flat_map objectIds children) s.1).2).
  { induction IH as [|c cs Hc Hcs IHcs]; intros s; cbn [changeChildren]; [by repeat split|].
    destruct (Hc s) as (H1 & H2 & H3).
    destruct (changeTimelineIdInnerObj c s) as [c' s1]. cbn [fst snd] in *.
    destruct (IHcs s1) as (I1 & I2 & I3).
    destruct (changeChildren changeTimelineIdInnerObj cs s1) as [cs'' s2].
    cbn [fst snd map flat_map] in *. rewrite renameAll_app.
    destruct (renameAll (objectIds c) s.1) as [a ca]. cbn [fst snd] in *. subst ca.
    destruct (renameAll (flat_map objectIds cs) s1.1) as [b cb]. cbn [fst snd] in *.
    by rewrite H1, I1, H2, I2, I3. }
  specialize (Hwalk (c1, mapSet id newId st.2)).
  destruct (changeChildren changeTimelineIdInnerObj children _) as [ch st2].
  cbn [fst snd] in Hwalk. destruct Hwalk as (W1 & W2 & W3).
  destruct (changeKeyframes_spec keyframes st2) as (K1 & K2 & K3).
  destruct (changeKeyframes keyframes st2) as [kf st3]. cbn [fst snd] in *.
  rewrite renameAll_app.
  destruct (renameAll (flat_map objectIds children) c1) as [a ca]. cbn [fst snd] in *.
  rewrite <- W3.
  destruct (renameAll (map kf_id keyframes) st2.1) as [b cb]. cbn [fst snd] in *.
  cbn [shape objectIds]. by rewrite W1, K1, W2, K2, K3.
Qed.

Lemma renameAll_length ids : forall c, length (renameAll ids c).1 = length ids.
Proof.
  induction ids as [|id ids IH]; intros c; cbn [renameAll]; [reflexivity|].
  destruct (getUniqueId id c) as [id' c1]. specialize (IH c1).
  destruct (renameAll ids c1) as [rest c2]. cbn in *. by rewrite IH.
Qed.

Lemma renameAll_fresh ids : forall c,
  NoDup ids -> (forall id, id ∈ ids -> c !! id = None) -> (renameAll ids c).1 = ids.
Proof.
  induction ids as [|id ids IH]; intros c Hnd Hfresh; cbn [renameAll]; [reflexivity|].
  apply NoDup_cons in Hnd as [Hni Hnd].
  unfold getUniqueId. rewrite (Hfresh id) by left. cbn.
  specialize (IH (<[id := 1%nat]> c) Hnd).
  destruct (renameAll ids (<[id := 1%nat]> c)) as [rest c2]. cbn in *. f_equal. apply IH.
  intros x Hx. rewrite lookup_insert_ne; [apply Hfresh; by right|]. intros ->. contradiction.
Qed.

(** X24. What the id rewrite leaves alone. [changeTimelineId] keeps the
    layers, the content and the form of the tree; the ids of the result are
    the ids of the tree passed through [getUniqueId] one after the other, in
    the order parent, children, keyframes, and the counters are left as
    those calls leave them. *)
Theorem rewrite_keeps_shape (o : TimelineObject) (idCount : gmap string nat) :
  shape (changeTimelineId o idCount).1 = shape o
  /\ objectIds (changeTimelineId o idCount).1 = (renameAll (objectIds o) idCount).1
  /\ (changeTimelineId o idCount).2 = (renameAll (objectIds o) idCount).2.
Proof.
  unfold changeTimelineId.
  destruct (changeTimelineIdInnerObj_spec o (idCount, [])) as (H1 & H2 & H3).
  destruct (changeTimelineIdInnerObj o (idCount, [])) as [o' [c' m]]. cbn [fst snd] in *.
  by rewrite shape_references, objectIds_references.
Qed.

Lemma renameAll_distinct ids : forall c,
  NoDup ids ->
  (renameAll ids c).1 = (fun id => (getUniqueId id c).1) <$> ids
  /\ forall id, (renameAll ids c).2 !! id
                = if bool_decide (id ∈ ids) then Some (S (default 0%nat (c !! id)))
                  else c !! id.
Proof.
  induction ids as [|x ids IH]; intros c Hnd; cbn [renameAll].
  - split; [reflexivity|]. intros id. rewrite bool_decide_eq_false_2; [reflexivity|].
    apply not_elem_of_nil.
  - apply NoDup_cons in Hnd as [Hni Hnd].
    destruct (IH (<[x := S (default 0%nat (c !! x))]> c) Hnd) as [IH1 IH2].
    destruct (renameAll ids _) as [rest c2] eqn:Er. cbn [fst snd] in *.
    assert (Hgo : (let '(id', idCount1) := getUniqueId x c in
                   let '(rest', idCount2) := renameAll ids idCount1 in
                   (id' :: rest', idCount2))
                  = ((getUniqueId x c).1 :: rest, c2)).
    { unfold getUniqueId at 1. cbn zeta. by rewrite Er. }
    rewrite Hgo. cbn [fst snd]. split.
    + rewrite fmap_cons. f_equal. rewrite IH1. apply list_fmap_ext.
      intros i y Hy. unfold getUniqueId. cbn.
      rewrite lookup_insert_ne; [reflexivity|]. intros ->.
      apply Hni. eapply list_elem_of_lookup_2. exact Hy.
    + intros id. rewrite IH2.
      destruct (decide (id = x)) as [->|Hne].
      * rewrite (bool_decide_eq_false_2 (x ∈ ids)) by exact Hni.
        rewrite (bool_decide_eq_true_2 (x ∈ x :: ids)) by left.
        apply lookup_insert_eq.
      * rewrite lookup_insert_ne by congruence.
        destruct (bool_decide (id ∈ ids)) eqn:E.
        -- apply bool_decide_eq_true in E.
           rewrite (bool_decide_eq_true_2 (id ∈ x :: ids)) by (by right). reflexivity.
        -- apply bool_decide_eq_false in E.
           rewrite (bool_decide_eq_false_2 (id ∈ x :: ids)); [reflexivity|].
           intros Hin. apply elem_of_cons in Hin as [?|?]; contradiction.
Qed.

(** X25. Distinct ids are renamed one by one. In a tree whose ids are
    distinct, each id is renamed by what the counters held for it before
    the rewrite (kept as it is when it was not counted yet, suffixed with
    its count otherwise), and afterwards the counter of each id of the tree
    is one higher and no other counter has changed. *)
Theorem distinct_ids_renamed_by_count (o : TimelineObject) (idCount : gmap string nat) :
  NoDup (objectIds o) ->
  objectIds (changeTimelineId o idCount).1
  = (fun id => (getUniqueId id idCount).1) <$> objectIds o
  /\ forall id, (changeTimelineId o idCount).2 !! id
                = if bool_decide (id ∈ objectIds o)
                  then Some (S (default 0%nat (idCount !! id)))
                  else idCount !! id.
Proof.
  intros Hnd. unfold changeTimelineId.
  destruct (changeTimelineIdInnerObj_spec o (idCount, [])) as (_ & H2 & H3).
  destruct (changeTimelineIdInnerObj o (idCount, [])) as [o' [c' m]]. cbn [fst snd] in *.
  rewrite objectIds_references, H2, H3. by apply renameAll_distinct.
Qed.

(** *** Nothing to play *)

Section Empty.
Variable modify : TimelineObject -> PreparedPart -> TimelineObj -> option Z -> TimelineObject.

Lemma sectionToTimelineObj_empty group section id layer custom c :
  sec_parts section = [] ->
  sectionToTimelineObj modify group section id layer custom c = ([], c).
Proof. unfold sectionToTimelineObj. by intros ->. Qed.

Lemma singleLoop_empty group custom sections : forall i st,
  Forall (fun s => sec_parts s = []) sections ->
  children (singleLoop modify group custom i sections st) = children st.
Proof.
  induction sections as [|s rest IH]; intros i st Hall; cbn [singleLoop]; [reflexivity|].
  apply Forall_cons in Hall as [Hs Hall].
  rewrite sectionToTimelineObj_empty by exact Hs.
  rewrite IH by exact Hall. cbn. apply app_nil_r.
Qed.

Lemma multiSections_empty group custom partId sections : forall i c,
  Forall (fun s => sec_parts s = []) sections ->
  multiSections modify group custom partId i sections c = ([], c).
Proof.
  induction sections as [|s rest IH]; intros i c Hall; cbn [multiSections]; [reflexivity|].
  apply Forall_cons in Hall as [Hs Hall].
  rewrite sectionToTimelineObj_empty by exact Hs.
  by rewrite IH.
Qed.

Lemma multiLoop_empty group custom entries : forall c,
  Forall (fun s => sec_parts s = []) (flat_map snd entries) ->
  multiLoop modify group custom entries c = [].
Proof.
  induction entries as [|[partId sections] rest IH]; intros c Hall; cbn [multiLoop];
    [reflexivity|].
  cbn [flat_map snd] in Hall. apply Forall_app in Hall as [H1 H2].
  rewrite multiSections_empty by exact H1. by rewrite IH.
Qed.

(** X26. Nothing to play. When no prepared section holds a part, the
    timeline is the empty list (and [null] without prepared data): no
    wrapper object is emitted. *)
Theorem nothing_to_play (group : Group) (prepared : option GroupPreparedPlayData)
    (custom : option CustomPartContent) :
  Forall (fun s => sec_parts s = []) (sectionsOf prepared) ->
  getTimelineForGroup modify group prepared custom
  = match prepared with Some _ => Some [] | None => None end.
Proof.
  intros Hall. unfold getTimelineForGroup.
  destruct prepared as [[sections|entries]|]; [| |reflexivity]; cbn [sectionsOf] in Hall.
  - by rewrite singleLoop_empty.
  - by rewrite multiLoop_empty.
Qed.

End Empty.

End TimelineReadingFacts.

Module TimelineReadingExamples.
Import Model Timeline TimelineReading TimelineReadingFacts.
Import TimelineSamples TimelineReadingSamples.

Lemma emitted_durations_are_infinite_witness :
  en_duration lateClipEnable = Some (ENum PosInf).
Proof.
  apply (emitted_durations_are_infinite keepClone showGroup latePrepared None lateEmitted
           lateInstance lateClipEnable).
  - reflexivity.
  - vm_compute. apply list_elem_of_here.
  - vm_compute. apply list_elem_of_further, list_elem_of_here.
Defined.

Lemma emitted_instance_enables_witness :
  obj_enable <$> instances latePrepared lateEmitted
  = [instanceEnable lateSection (mkPreparedPart latePart 100)].
Proof.
  apply (emitted_instance_enables keepClone showGroup latePrepared None lateEmitted).
  reflexivity.
Defined.

Lemma distinct_ids_renamed_by_count_witness :
  objectIds (changeTimelineId clipWithFade {["clip" := 1%nat]}).1 = ["clip_1"; "fade"].
Proof.
  destruct (distinct_ids_renamed_by_count clipWithFade {["clip" := 1%nat]}) as [Hids _].
  - apply (bool_decide_unpack _). vm_compute. exact I.
  - exact Hids.
Defined.

Lemma nothing_to_play_witness :
  getTimelineForGroup keepClone showGroup (Some (PreparedSingle [emptySection; emptySection]))
    None = Some [].
Proof.
  apply (nothing_to_play keepClone showGroup
           (Some (PreparedSingle [emptySection; emptySection])) None).
  repeat constructor.
Defined.

End TimelineReadingExamples.
